(** * grid_trial: exhaustive search over grid single-crossing profiles

    A shallow embedding of [code/grid_trial.cpp] and the properties of its
    preference-list operations, bounding boxes, validity checks and
    backtracking driver; and, in the module [lp_proof], of
    [code/lp_proof.cpp], which enumerates the arrangements of three voters
    over four candidates and hands one linear program for each to a solver.

    Conventions of the embedding.
    - [int] values that are stored or compared (candidates, box corners) are
      [Z]; loop counters that index a [vector] are [nat].  Counters and
      indices are bounded by a vector size and do not overflow; the one sum
      that can, the count of [cnt_crosses], is checked against the range of
      [int].  Where a theorem needs a dimension to fit an [int] it says so.
    - Everything that stops a C++ function from returning a value is an
      [exn]: the thrown [logic_error], a failed [assert], and the undefined
      behaviour of reading a [vector] beyond its size.  The driver can stop
      in two more ways: [exit(1)], and the budget of the model running out. *)

From Stdlib Require Import ZArith Lia Reals Lra.
From stdpp Require Import base tactics option list list_numbers sorting gmap strings pretty.

Local Open Scope Z_scope.

(** ** Preference lists and outcomes *)

(** [using Pref = vector<int>]; [EmptyProf] is the placeholder of an
    undecided voter. *)
Abbreviation Pref := (list Z) (only parsing).
Definition EmptyProf : Pref := [].

(** [using Grid = vector<vector<Pref>>]. *)
Abbreviation Grid := (list (list (list Z))) (only parsing).

Inductive exn : Type :=
  | LogicError                (* throw logic_error("Could not find candidate.") *)
  | LengthError               (* a vector sized by a negative int *)
  | IndexOutOfRange           (* operator[] at or beyond size() *)
  | AssertionFailed           (* assert(N > 0), assert(M > 0) *)
  | IntegerOverflow.          (* signed arithmetic beyond the range of int *)

Inductive res (A : Type) : Type :=
  | Ret (a : A)
  | Raise (e : exn).
Arguments Ret {A} a.
Arguments Raise {A} e.

#[global] Instance res_ret : MRet res := @Ret.
#[global] Instance res_bind : MBind res := λ A B f m,
  match m with
  | Ret a => f a
  | Raise e => Raise e
  end.

(** [v[i]] on a vector. *)
Definition at_ {A} (v : list A) (i : nat) : res A :=
  match v !! i with
  | Some x => Ret x
  | None => Raise IndexOutOfRange
  end.

(** [for (x : l) s = body(x, s);] *)
Fixpoint for_each {A S} (l : list A) (body : A → S → res S) (s : S) : res S :=
  match l with
  | [] => Ret s
  | x :: l' => s' ← body x s; for_each l' body s'
  end.

(** [for (x : l) if (test(x)) return true;  return false;] *)
Fixpoint any_of {A} (l : list A) (test : A → res bool) : res bool :=
  match l with
  | [] => Ret false
  | x :: l' => b ← test x; if b : bool then Ret true else any_of l' test
  end.

(** [pos]: the loop over [i], started at index [i]. *)
Fixpoint pos_from (p : Pref) (c : Z) (i : nat) : res nat :=
  match p with
  | [] => Raise LogicError
  | x :: p' => if decide (x = c) then Ret i else pos_from p' c (S i)
  end.

Definition pos (p : Pref) (c : Z) : res nat := pos_from p c 0.

Definition prefers (p : Pref) (c0 c1 : Z) : res bool :=
  i0 ← pos p c0; i1 ← pos p c1; Ret (bool_decide (i0 < i1)%nat).

(** ** Bounding boxes *)

Definition INF : Z := 2147483647.

Module Rect.
Record t : Type := mk { r0 : Z; r1 : Z; c0 : Z; c1 : Z }.

(** The default-constructed box. *)
Definition empty : t := mk INF (- INF) INF (- INF).

Definition add (b : t) (r c : Z) : t :=
  mk (Z.min (r0 b) r) (Z.max (r1 b) r) (Z.min (c0 b) c) (Z.max (c1 b) c).

Definition intersects_with_horizontal (b : t) (r : Z) : bool :=
  bool_decide (r0 b ≤ r) && bool_decide (r < r1 b).

Definition intersects_with_vertical (b : t) (c : Z) : bool :=
  bool_decide (c0 b ≤ c) && bool_decide (c < c1 b).

(** [a] lies inside [b]: what "the result contains the box" means. *)
Definition incl (a b : t) : Prop :=
  r0 b ≤ r0 a ∧ r1 a ≤ r1 b ∧ c0 b ≤ c0 a ∧ c1 a ≤ c1 b.

(** The point [(r, c)] lies inside [b]. *)
Definition contains (b : t) (r c : Z) : Prop :=
  r0 b ≤ r ≤ r1 b ∧ c0 b ≤ c ≤ c1 b.

Definition singleton (r c : Z) : t := mk r r c c.
End Rect.

Definition do_intersect (a b : Rect.t) : bool :=
  if decide (Rect.r0 a > Rect.r1 b) then false
  else if decide (Rect.r0 b > Rect.r1 a) then false
  else if decide (Rect.c0 a > Rect.c1 b) then false
  else if decide (Rect.c0 b > Rect.c1 a) then false
  else true.

(** ** Grid profiles *)

(** [v[i] = x] on a vector. *)
Definition store {A} (v : list A) (i : nat) (x : A) : res (list A) :=
  if decide (i < length v)%nat then Ret (<[i := x]> v) else Raise IndexOutOfRange.

(** [v[k]] and [v[k] = x] where the index [k] is an [int] read from data. *)
Definition at_int {A} (v : list A) (k : Z) : res A :=
  if decide (0 ≤ k) then at_ v (Z.to_nat k) else Raise IndexOutOfRange.

Definition store_int {A} (v : list A) (k : Z) (x : A) : res (list A) :=
  if decide (0 ≤ k) then store v (Z.to_nat k) x else Raise IndexOutOfRange.

(** [g[i][j]] and [g[i][j] = p]. *)
Definition cell (g : Grid) (i j : nat) : res Pref :=
  row ← at_ g i; at_ row j.

Definition set_cell (g : Grid) (i j : nat) (p : Pref) : res Grid :=
  row ← at_ g i; row' ← store row j p; store g i row'.

(** The prologue shared by the grid functions:
    [N = g.size(); assert(N > 0); M = g[0].size(); assert(M > 0);]. *)
Definition dims (g : Grid) : res (nat * nat) :=
  match g with
  | [] => Raise AssertionFailed
  | row0 :: _ =>
      match row0 with
      | [] => Raise AssertionFailed
      | _ :: _ => Ret (length g, length row0)
      end
  end.

Definition get_preference_bounding_box (g : Grid) (c0 c1 : Z) : res Rect.t :=
  '(N, M) ← dims g;
  for_each (seq 0 N) (λ i ans,
    for_each (seq 0 M) (λ j ans,
      p ← cell g i j;
      if decide (p = EmptyProf) then Ret ans
      else b ← prefers p c0 c1;
           Ret (if b : bool then Rect.add ans (Z.of_nat i) (Z.of_nat j) else ans))
      ans)
    Rect.empty.

Definition get_dominance_box (g : Grid) (c : Z) : res Rect.t :=
  '(N, M) ← dims g;
  for_each (seq 0 N) (λ i ans,
    for_each (seq 0 M) (λ j ans,
      p ← cell g i j;
      top ← at_ p 0;
      Ret (if decide (top = c) then Rect.add ans (Z.of_nat i) (Z.of_nat j) else ans))
      ans)
    Rect.empty.

Definition grid_valid (g : Grid) (C : Z) : res bool :=
  found ← any_of (seqZ 0 C) (λ c0,
    any_of (seqZ (c0 + 1) (C - (c0 + 1))) (λ c1,
      b0 ← get_preference_bounding_box g c0 c1;
      b1 ← get_preference_bounding_box g c1 c0;
      Ret (do_intersect b0 b1)));
  Ret (negb found).

Definition is_monodominated (g : Grid) : res bool :=
  '(N, M) ← dims g;
  r ← get_dominance_box g 0;
  Ret (bool_decide (Rect.r0 r = 0) && bool_decide (Rect.c0 r = 0) &&
       bool_decide (Rect.r1 r = Z.of_nat N - 1) &&
       bool_decide (Rect.c1 r = Z.of_nat M - 1)).

Definition has_isolated (g : Grid) (C : Z) : res bool :=
  '(N, M) ← dims g;
  any_of (seqZ 0 C) (λ c,
    r ← get_dominance_box g c;
    if decide (Rect.r0 r = INF) then Ret false
    else Ret (bool_decide (Rect.r0 r > 0) && bool_decide (Rect.r1 r < Z.of_nat N - 1) &&
              bool_decide (Rect.c0 r > 0) && bool_decide (Rect.c1 r < Z.of_nat M - 1))).

Definition admits_split_line (g : Grid) (C : Z) : res bool :=
  '(N, M) ← dims g;
  horizontal ← any_of (seq 0 (N - 1)) (λ i,
    crossed ← any_of (seqZ 0 C) (λ c,
      r ← get_dominance_box g c;
      Ret (Rect.intersects_with_horizontal r (Z.of_nat i)));
    Ret (negb crossed));
  if horizontal : bool then Ret true
  else any_of (seq 0 (M - 1)) (λ j,
    crossed ← any_of (seqZ 0 C) (λ c,
      r ← get_dominance_box g c;
      Ret (Rect.intersects_with_vertical r (Z.of_nat j)));
    Ret (negb crossed)).

(** ** Crossing count *)

(** [a + b] on [int]; signed overflow is undefined behaviour. *)
Definition int_add (a b : Z) : res Z :=
  if decide (- INF - 1 ≤ a + b ≤ INF) then Ret (a + b) else Raise IntegerOverflow.

Definition cnt_crosses (p0 p1 : Pref) (C : Z) : res Z :=
  if decide (C < 0) then Raise LengthError
  else
    let zeros := replicate (Z.to_nat C) 0 in
    '(inv_p0, inv_p1) ← for_each (seq 0 (Z.to_nat C)) (λ i '(inv_p0, inv_p1),
        x0 ← at_ p0 i;
        x1 ← at_ p1 i;
        inv_p1' ← store_int inv_p1 x1 (Z.of_nat i);
        inv_p0' ← store_int inv_p0 x0 (Z.of_nat i);
        Ret (inv_p0', inv_p1'))
      (zeros, zeros);
    for_each (seqZ 0 C) (λ c0 ans,
      for_each (seqZ (c0 + 1) (C - (c0 + 1))) (λ c1 ans,
        a0 ← at_int inv_p0 c0;
        a1 ← at_int inv_p0 c1;
        b0 ← at_int inv_p1 c0;
        b1 ← at_int inv_p1 c1;
        int_add ans (if xorb (bool_decide (a0 < a1)) (bool_decide (b0 < b1)) then 1 else 0))
        ans)
      0.

(** ** The permutation enumerator of the standard library

    [std::next_permutation(first, last)] rearranges the range into its
    lexicographic successor and returns [true]; on the last (non-increasing)
    arrangement it leaves the range reversed, hence sorted, and returns
    [false].  The library scans from the right for the last position [i] with
    [p[i] < p[i+1]], swaps [p[i]] with the rightmost element greater than it
    and reverses the tail after [i].  On a list the same computation is a
    recursion on the tail: a tail that still has a successor is advanced in
    place; an exhausted tail comes back reversed (ascending), where the
    rightmost greater element of the original tail is the first greater
    element, and exchanging it with the head leaves the tail ascending.
    That the function below meets the contract of the library function is
    [next_permutation_successor]. *)

(** In an ascending list [s], exchange [x] with the first element greater
    than [x]; [None] when there is none. *)
Fixpoint swap_first_greater (x : Z) (s : list Z) : option (Z * list Z) :=
  match s with
  | [] => None
  | y :: s' =>
      if decide (x < y) then Some (y, x :: s')
      else match swap_first_greater x s' with
           | Some (z, s'') => Some (z, y :: s'')
           | None => None
           end
  end.

Fixpoint next_permutation (p : list Z) : bool * list Z :=
  match p with
  | [] => (false, [])
  | x :: t =>
      let '(more, t') := next_permutation t in
      if more : bool then (true, x :: t')
      else match swap_first_greater x t' with
           | Some (y, t'') => (true, y :: t'')
           | None => (false, t' ++ [x])
           end
  end.

(** [v.resize(C); iota(v.begin(), v.end(), 0);] leaves [0, 1, ..., C - 1]
    whatever [v] held. *)
Definition iota (C : Z) : res Pref :=
  if decide (C < 0) then Raise LengthError else Ret (seqZ 0 C).

(** ** The backtracking driver *)

(** What a run of the search does besides returning: it enters invocations
    of [backtr] and counts the leaves it processes ([++cnt]).  The progress
    line written to [cerr] at every hundredth leaf is determined by the
    number of [Leaf] events and has no event of its own. *)
Inductive event : Type :=
  | Enter (g : Grid) (r c : nat)
  | Leaf (g : Grid).

(** How an invocation of the driver ends. *)
Inductive outcome (A : Type) : Type :=
  | Done (a : A)              (* it returns *)
  | Failed (e : exn)          (* a function it calls does not return *)
  | Exited (shown : Grid)     (* show(g); exit(1) *)
  | OutOfFuel.                (* the model's recursion budget is exhausted *)
Arguments Done {A} a.
Arguments Failed {A} e.
Arguments Exited {A} shown.
Arguments OutOfFuel {A}.

Definition of_res {A} (m : res A) : outcome A :=
  match m with
  | Ret a => Done a
  | Raise e => Failed e
  end.

Definition outcome_bind {A B} (o : outcome A) (k : A → outcome B) : outcome B :=
  match o with
  | Done a => k a
  | Failed e => Failed e
  | Exited g => Exited g
  | OutOfFuel => OutOfFuel
  end.

Record run (A : Type) : Type := Run { trace : list event; result : outcome A }.
Arguments Run {A} trace result.
Arguments trace {A} _.
Arguments result {A} _.

#[global] Instance run_ret : MRet run := λ A a, Run [] (Done a).
#[global] Instance run_bind : MBind run := λ A B f m,
  match result m with
  | Done a => let m' := f a in Run (trace m ++ trace m') (result m')
  | Failed e => Run (trace m) (Failed e)
  | Exited g => Run (trace m) (Exited g)
  | OutOfFuel => Run (trace m) OutOfFuel
  end.

Definition lift {A} (m : res A) : run A := Run [] (of_res m).
Definition emit (e : event) : run unit := Run [e] (Done ()).
Definition stop {A} (o : outcome A) : run A := Run [] o.

(** The [do { ... } while (next_permutation(...))] loop of [backtr] at cell
    [(r, c)]; [body] is the recursive call [backtr(g, C, r, c + 1)], which
    receives the grid by reference and hands it back.  Each round of the
    loop and each level of the recursion takes one unit of [fuel]. *)
Fixpoint perm_loop (fuel : nat) (body : Grid → run Grid) (r c : nat) (g : Grid) : run Grid :=
  match fuel with
  | O => stop OutOfFuel
  | S fuel' =>
      g1 ← body g;
      if bool_decide (r = 0%nat ∧ c = 0%nat) then mret g1
      else
        p ← lift (cell g1 r c);
        let '(more, p') := next_permutation p in
        g2 ← lift (set_cell g1 r c p');
        if more : bool then perm_loop fuel' body r c g2 else mret g2
  end.

Fixpoint backtr (fuel : nat) (g : Grid) (C : Z) (r c : nat) : run Grid :=
  match fuel with
  | O => stop OutOfFuel
  | S fuel' =>
      emit (Enter g r c);;
      '(N, M) ← lift (dims g);
      valid ← lift (grid_valid g C);
      if negb valid then mret g
      else if bool_decide (r = N) then
        emit (Leaf g);;
        split ← lift (admits_split_line g C);
        if split : bool then mret g
        else
          mono ← lift (is_monodominated g);
          if mono : bool then mret g else stop (Exited g)
      else if bool_decide (c = M) then backtr fuel' g C (r + 1) 0
      else
        _ ← lift (cell g r c);
        p ← lift (iota C);
        g1 ← lift (set_cell g r c p);
        g2 ← perm_loop fuel' (λ g', backtr fuel' g' C r (c + 1)) r c g1;
        lift (set_cell g2 r c EmptyProf)
  end.

(** [main] with its compile-time constants as parameters. *)
Definition main_with (fuel N M : nat) (C : Z) : run Grid :=
  backtr fuel (replicate N (replicate M EmptyProf)) C 0 0.

Definition main (fuel : nat) : run Grid := main_with fuel 4 5 5.

(** ** The experiment modifier *)

(** The condition of both [if]s of [grid_has_fast_cross], for the voters
    [(i, j)] and [(i', j')]:
    [g[i][j] != EmptyProf && g[i'][j'] != EmptyProf &&
     cnt_crosses(g[i][j], g[i'][j'], C) > 1], whose operands are evaluated
    from the left until one is false. *)
Definition fast_cross (g : Grid) (C : Z) (i j i' j' : nat) : res bool :=
  p ← cell g i j;
  if decide (p = EmptyProf) then Ret false
  else
    q ← cell g i' j';
    if decide (q = EmptyProf) then Ret false
    else n ← cnt_crosses p q C; Ret (bool_decide (n > 1)).

Definition grid_has_fast_cross (g : Grid) (C : Z) : res bool :=
  '(N, M) ← dims g;
  vertical ← any_of (seq 0 (N - 1)) (λ i,
    any_of (seq 0 M) (λ j, fast_cross g C i j (i + 1) j));
  if vertical : bool then Ret true
  else any_of (seq 0 N) (λ i,
    any_of (seq 0 (M - 1)) (λ j, fast_cross g C i j i (j + 1))).

(** ** Printing a profile *)

(** [endl], as far as the text written is concerned. *)
Definition endl : string := String (Ascii.ascii_of_nat 10) "".

(** What [show] writes for one cell: [?] for [EmptyProf], and otherwise
    the entries in decimal, one after the other with nothing between them. *)
Definition show_pref (p : Pref) : string :=
  if decide (p = EmptyProf) then "?"
  else foldl (λ out x, out +:+ pretty x) "" p.

(** [show]: the text written to [cout]. *)
Definition show (g : Grid) : res string :=
  '(N, M) ← dims g;
  out ← for_each (seq 0 N) (λ i out,
    out ← for_each (seq 0 M) (λ j out,
      p ← cell g i j;
      Ret (out +:+ show_pref p +:+ " ")) out;
    Ret (out +:+ endl)) "";
  Ret (out +:+ "####" +:+ endl).

(** * lp_proof: the linear programs handed to the solver

    [code/lp_proof.cpp] lists the triples [(sigma1, sigma2, c2)] for which
    the profile [(id, sigma1, sigma2)] over the candidates [1..4] is
    single-crossing, and for each has the Z3 solver refute a system of
    linear constraints.  The arrays have five elements and use the indices
    [1..4]; element 0 is never read.

    The solver is outside the embedding.  What is embedded of [check] is
    the list of assertions it hands to the solver; the answer of the solver
    is a parameter [solve] of [check] and [main]. *)
Module lp_proof.

(** Undefined behaviour - an index outside an array, a read of an element
    that was never written, a dereferenced [end()] - is [None]. *)

(** [for (x : l) s = body(x, s);] *)
Fixpoint for_each {A St} (l : list A) (body : A → St → option St) (s : St) : option St :=
  match l with
  | [] => Some s
  | x :: l' => s' ← body x s; for_each l' body s'
  end.

(** [for (x : l) if (test(x)) return ...;] *)
Fixpoint any_of {A} (l : list A) (test : A → option bool) : option bool :=
  match l with
  | [] => Some false
  | x :: l' => b ← test x; if b : bool then Some true else any_of l' test
  end.

(** ** The assertions of [check] *)

(** The Z3 terms that [check] builds: the real constants [r_v_c], integer
    literals and sums; and the comparisons it asserts. *)
Inductive expr : Type :=
  | real_const (v c : Z)      (* cx.real_const("r_v_c") *)
  | num (n : Z)
  | add (a b : expr).

Inductive assertion : Type :=
  | eq (a b : expr)           (* a == b *)
  | le (a b : expr)           (* a <= b *)
  | ge (a b : expr).          (* a >= b *)

(** The answers of [solver::check]. *)
Inductive check_result : Type := unsat | sat | unknown.

#[global] Instance check_result_eq_dec : EqDecision check_result.
Proof. solve_decision. Defined.

(** [r.insert(make_pair(k, x))] leaves a key that is present as it is. *)
Definition map_insert (r : gmap (Z * Z) expr) (k : Z * Z) (x : expr) : gmap (Z * Z) expr :=
  match r !! k with
  | Some _ => r
  | None => <[k := x]> r
  end.

(** The map [r] after the two loops that fill it. *)
Definition variables : gmap (Z * Z) expr :=
  foldl (λ r v, foldl (λ r c, map_insert r (v, c) (real_const v c)) r (seqZ 1 4)) ∅ (seqZ 1 3).

(** [r.find(make_pair(v, c))->second]. *)
Definition get_expr (r : gmap (Z * Z) expr) (v c : Z) : option expr := r !! (v, c).

(** The assertions that [check] has added to the solver when it calls
    [s.check()], in the order of the calls of [s.add]. *)
Definition assertions (p2 p3 : list Z) (c2 : Z) : option (list assertion) :=
  let r := variables in
  e1 ← get_expr r 1 1;
  x2 ← p2 !! 1%nat; e2 ← get_expr r 2 x2;
  x3 ← p3 !! 1%nat; e3 ← get_expr r 3 x3;
  s ← for_each (seq 1 3) (λ c s,
      a1 ← get_expr r 1 (Z.of_nat c); b1 ← get_expr r 1 (Z.of_nat c + 1);
      x2 ← p2 !! c; a2 ← get_expr r 2 x2;
      y2 ← p2 !! (c + 1)%nat; b2 ← get_expr r 2 y2;
      x3 ← p3 !! c; a3 ← get_expr r 3 x3;
      y3 ← p3 !! (c + 1)%nat; b3 ← get_expr r 3 y3;
      Some (s ++ [le a1 b1; le a2 b2; le a3 b3]))
    [eq e1 (num 0); eq e2 (num 0); eq e3 (num 0)];
  for_each (seq 1 4) (λ c s,
    for_each (seq 1 4) (λ c1 s,
      l1 ← get_expr r 1 (Z.of_nat c); l2 ← get_expr r 2 (Z.of_nat c);
      l3 ← get_expr r 2 (Z.of_nat c1); l4 ← get_expr r 3 (Z.of_nat c1);
      r1 ← get_expr r 1 c2; r2 ← get_expr r 2 c2; r3 ← get_expr r 3 c2;
      Some (s ++ [ge (add (add (add l1 l2) l3) l4) (add (add (add (num 1) r1) r2) r3)]))
      s)
    s.

(** [check]: [true] when it returns, [false] when it ends the program
    ([s.check() != unsat], the model is printed and [exit(1)] called). *)
Definition check (solve : list assertion → check_result) (p2 p3 : list Z) (c2 : Z) : option bool :=
  s ← assertions p2 p3 c2;
  Some (bool_decide (solve s = unsat)).

(** ** The profiles *)

(** [int where[5];] is not initialised: an element holds no value until
    it is written. *)
Definition uninitialised : list (option Z) := replicate 5 None.

(** [where[k] = v], the index [k] an [int] read from data. *)
Definition write (w : list (option Z)) (k v : Z) : option (list (option Z)) :=
  if decide (0 ≤ k ∧ (Z.to_nat k < length w)%nat)
  then Some (<[Z.to_nat k := Some v]> w) else None.

(** [where[k]], the index [k] a loop counter. *)
Definition read (w : list (option Z)) (k : nat) : option Z := mjoin (w !! k).

Definition single_crossing (sigma1 sigma2 : list Z) : option bool :=
  '(where1, where2) ← for_each (seq 1 4) (λ i '(where1, where2),
      x1 ← sigma1 !! i;
      x2 ← sigma2 !! i;
      where2' ← write where2 x2 (Z.of_nat i);
      where1' ← write where1 x1 (Z.of_nat i);
      Some (where1', where2'))
    (uninitialised, uninitialised);
  crossing ← any_of (seq 1 4) (λ a,
    any_of (seq (a + 1) (4 - a)) (λ b,
      w1a ← read where1 a;
      w1b ← read where1 b;
      if bool_decide (w1a > w1b) then
        w2a ← read where2 a;
        w2b ← read where2 b;
        Some (bool_decide (w2a < w2b))
      else Some false));
  Some (negb crossing).

(** ** The enumeration *)

(** What a run of [main] does besides returning: it writes the count of
    the profiles found so far to [cerr], and it calls [check]. *)
Inductive event : Type :=
  | Processing (cnt : Z)
  | Check (sigma1 sigma2 : list Z) (c2 : Z).

#[global] Instance event_eq_dec : EqDecision event.
Proof. solve_decision. Defined.

(** How a run ends. *)
Inductive ending : Type :=
  | Returns                   (* return 0 *)
  | Exits                     (* exit(1) in check *)
  | Undefined                 (* undefined behaviour *)
  | OutOfFuel.                (* the model's budget of loop rounds is exhausted *)

(** [for (int c2 = 1; c2 <= 4; ++c2) check(sigma1, sigma2, c2);] over the
    values [l] of [c2] that are left. *)
Fixpoint check_all (solve : list assertion → check_result) (sigma1 sigma2 : list Z) (l : list Z) :
    list event * ending :=
  match l with
  | [] => ([], Returns)
  | c2 :: l' =>
      match check solve sigma1 sigma2 c2 with
      | None => ([Check sigma1 sigma2 c2], Undefined)
      | Some false => ([Check sigma1 sigma2 c2], Exits)
      | Some true =>
          let '(t, e) := check_all solve sigma1 sigma2 l' in (Check sigma1 sigma2 c2 :: t, e)
      end
  end.

(** [next_permutation(sigma + 1, sigma + 5)] on an array of five. *)
Definition next_tail (sigma : list Z) : bool * list Z :=
  let '(more, t) := next_permutation (drop 1 sigma) in (more, take 1 sigma ++ t).

(** The inner [do { ... } while (next_permutation(sigma2 + 1, sigma2 + 5))];
    [cnt] is the [static int cnt] of its body.  Each round takes one unit
    of [fuel]. *)
Fixpoint inner (fuel : nat) (solve : list assertion → check_result)
    (sigma1 sigma2 : list Z) (cnt : Z) : list event * ending * Z :=
  match fuel with
  | O => ([], OutOfFuel, cnt)
  | S fuel' =>
      match single_crossing sigma1 sigma2 with
      | None => ([], Undefined, cnt)
      | Some crossing_free =>
          let '(t, e, cnt') :=
            if crossing_free : bool
            then let '(t, e) := check_all solve sigma1 sigma2 (seqZ 1 4) in
                 (Processing (cnt + 1) :: t, e, cnt + 1)
            else ([], Returns, cnt) in
          match e with
          | Returns =>
              let '(more, sigma2') := next_tail sigma2 in
              if more : bool
              then let '(t', e', cnt'') := inner fuel' solve sigma1 sigma2' cnt' in
                   (t ++ t', e', cnt'')
              else (t, Returns, cnt')
          | _ => (t, e, cnt')
          end
      end
  end.

(** The outer [do { int sigma2[5] = {0, 1, 2, 3, 4}; ... }
    while (next_permutation(sigma1 + 1, sigma1 + 5))]. *)
Fixpoint outer (fuel : nat) (solve : list assertion → check_result)
    (sigma1 : list Z) (cnt : Z) : list event * ending * Z :=
  match fuel with
  | O => ([], OutOfFuel, cnt)
  | S fuel' =>
      let '(t, e, cnt') := inner fuel' solve sigma1 [0; 1; 2; 3; 4] cnt in
      match e with
      | Returns =>
          let '(more, sigma1') := next_tail sigma1 in
          if more : bool
          then let '(t', e', cnt'') := outer fuel' solve sigma1' cnt' in
               (t ++ t', e', cnt'')
          else (t, Returns, cnt')
      | _ => (t, e, cnt')
      end
  end.

Definition main (fuel : nat) (solve : list assertion → check_result) : list event * ending * Z :=
  outer fuel solve [0; 1; 2; 3; 4] 0.

End lp_proof.

Arguments lp_proof.variables : simpl never.
Arguments lp_proof.assertions : simpl never.
Arguments lp_proof.check : simpl never.
Arguments lp_proof.single_crossing : simpl never.
Arguments lp_proof.next_tail : simpl never.

(** * Specification vocabulary *)

(** The cell [(i, j)] of [g] holds the list [p]. *)
Definition holds (g : Grid) (i j : nat) (p : Pref) : Prop := cell g i j = Ret p.

(** [g] is a rectangular [N] by [M] array of cells. *)
Definition grid_shape (g : Grid) (N M : nat) : Prop :=
  length g = N ∧ Forall (λ row : list Pref, length row = M) g.

(** Voter [(i, j)] of [g] ranks candidate [c] first. *)
Definition top_is (g : Grid) (c : Z) (i j : nat) : Prop :=
  ∃ p, holds g i j p ∧ head p = Some c.

(** [b] is the bounding box of the set [pts] of grid points: the default
    box when there is none, and otherwise the rectangle that contains them
    all and has a point on each of its four sides. *)
Definition is_bounding_box (pts : nat → nat → Prop) (b : Rect.t) : Prop :=
  (b = Rect.empty ∧ ∀ i j, ¬ pts i j)
  ∨ ((∀ i j, pts i j → Rect.contains b (Z.of_nat i) (Z.of_nat j))
     ∧ (∃ i j, pts i j ∧ Rect.r0 b = Z.of_nat i)
     ∧ (∃ i j, pts i j ∧ Rect.r1 b = Z.of_nat i)
     ∧ (∃ i j, pts i j ∧ Rect.c0 b = Z.of_nat j)
     ∧ (∃ i j, pts i j ∧ Rect.c1 b = Z.of_nat j)).

(** [g] is a complete [N] by [M] profile over the candidates [0..C-1]:
    every cell holds a permutation of them. *)
Definition complete_profile (g : Grid) (N M : nat) (C : Z) : Prop :=
  grid_shape g N M ∧ ∀ i j p, holds g i j p → p ≡ₚ seqZ 0 C.

(** The rank of candidate [c] in [p], as [pos] finds it. *)
Definition rank (p : Pref) (c : Z) : Z :=
  match pos p c with
  | Ret i => Z.of_nat i
  | Raise _ => -1
  end.

(** The lists [p0] and [p1] order the candidates [c0] and [c1] differently. *)
Definition crossed (p0 p1 : Pref) (c0 c1 : Z) : bool :=
  xorb (bool_decide (rank p0 c0 < rank p0 c1)) (bool_decide (rank p1 c0 < rank p1 c1)).

(** The number of pairs [c0 < c1] of candidates below [C] that [p0] and
    [p1] order differently. *)
Definition crossings (p0 p1 : Pref) (C : Z) : nat :=
  sum_list_with (λ c0,
    sum_list_with (λ c1, if crossed p0 p1 c0 c1 then 1%nat else 0%nat)
      (seqZ (c0 + 1) (C - (c0 + 1))))
    (seqZ 0 C).

(** The array [a] holds, for the first [k] entries of [p], the index of
    each candidate: [a[p[i]] = i]. *)
Definition inverse_upto (C : Z) (p : Pref) (k : nat) (a : list Z) : Prop :=
  length a = Z.to_nat C
  ∧ ∀ i x, (i < k)%nat → p !! i = Some x → a !! Z.to_nat x = Some (Z.of_nat i).

(** The lexicographic order on arrangements. *)
Inductive lex_lt : list Z → list Z → Prop :=
  | lex_lt_nil y k : lex_lt [] (y :: k)
  | lex_lt_head x y l k : x < y → lex_lt (x :: l) (y :: k)
  | lex_lt_tail x l k : lex_lt l k → lex_lt (x :: l) (x :: k).

(** [enumerates p L e]: calling [next_permutation] again and again from the
    arrangement [p] visits the arrangements [L], in this order, until the
    call that returns [false] and leaves [e]. *)
Inductive enumerates : list Z → list (list Z) → list Z → Prop :=
  | enumerates_last p e :
      next_permutation p = (false, e) → enumerates p [p] e
  | enumerates_next p p' L e :
      next_permutation p = (true, p') → enumerates p' L e → enumerates p (p :: L) e.

(** The number of elements of [t] greater than [x]. *)
Definition greater_count (x : Z) (t : list Z) : nat :=
  length (filter (λ y, x < y) t).

(** [L] lists every arrangement of [s] exactly once. *)
Definition all_arrangements (s : list Z) (L : list (list Z)) : Prop :=
  NoDup L ∧ (∀ q, q ∈ L ↔ q ≡ₚ s) ∧ length L = fact (length s).

(** Cell [(i, j)] comes before the cursor [(r, c)] in row-major order. *)
Definition before (i j r c : nat) : Prop := (i < r)%nat ∨ (i = r ∧ (j < c)%nat).

(** Every cell of [g] at or after the cursor [(r, c)] is unassigned: the
    voter [(r, c)] is "the first voter whose preferences have not yet been
    decided". *)
Definition unassigned_from (g : Grid) (r c : nat) : Prop :=
  ∀ i j p, holds g i j p → ¬ before i j r c → p = EmptyProf.

(** The state of the search when [backtr g C r c] is entered, for an [N]
    by [M] grid: the cursor is a position of the row-major walk (the end of
    a row included, and [(N, 0)] for a leaf); every cell before it holds a
    permutation of [0..C-1], cell [(0, 0)] the identity; every cell from it
    on is unassigned. *)
Definition search_inv (N M : nat) (C : Z) (g : Grid) (r c : nat) : Prop :=
  grid_shape g N M
  ∧ ((r < N)%nat ∧ (c ≤ M)%nat ∨ r = N ∧ c = 0%nat)
  ∧ (∀ i j p, holds g i j p → before i j r c → p ≡ₚ seqZ 0 C)
  ∧ (∀ p, holds g 0 0 p → before 0 0 r c → p = seqZ 0 C)
  ∧ unassigned_from g r c.

(** What holds of every event of a search over an [N] by [M] grid: each
    invocation is entered in a state of the search, and each leaf is a
    complete profile that passed the [assert]s and [grid_valid]. *)
Definition event_inv (N M : nat) (C : Z) (e : event) : Prop :=
  match e with
  | Enter g r c => search_inv N M C g r c
  | Leaf g => complete_profile g N M C ∧ dims g = Ret (N, M) ∧ grid_valid g C = Ret true
  end.

(** The event is an invocation at a cursor after [(r, c)], or a leaf. *)
Definition after (r c : nat) (e : event) : Prop :=
  match e with
  | Enter _ r' c' => before r c r' c'
  | Leaf _ => True
  end.

(** The lists a run tried at cell [(r, c)]: what the cell held each time
    [backtr] was entered at the next cursor, [(r, c + 1)]. *)
Definition tried (tr : list event) (r c : nat) : list Pref :=
  omap (λ e,
    match e with
    | Enter g r' c' =>
        if decide (r' = r ∧ c' = S c)
        then match cell g r c with Ret p => Some p | Raise _ => None end
        else None
    | Leaf _ => None
    end) tr.

(** A recursion budget that suffices for [backtr g C r c] on an [N] by [M]
    grid: the number of cursors left, and the [C!] rounds of a loop. *)
Definition budget (N M : nat) (C : Z) (r c : nat) : nat :=
  ((N - r) * (M + 1) - c + 1 + fact (Z.to_nat C))%nat.

(** The profile of the header comment, a counterexample to hypothesis 2. *)
Definition scenario_C : Grid :=
  [ [ [0; 1; 2; 3; 4]; [0; 2; 1; 3; 4]; [0; 3; 2; 1; 4] ];
    [ [1; 2; 3; 0; 4]; [2; 1; 3; 0; 4]; [3; 2; 1; 0; 4] ];
    [ [4; 1; 2; 3; 0]; [4; 2; 1; 3; 0]; [4; 3; 2; 1; 0] ] ].

(** A profile in which candidate 0 leads at both ends of a row and not in
    between. *)
Definition split_dominance : Grid := [ [ [0; 1]; [1; 0]; [0; 1] ] ].

(** Voter [(i, j)] of [g] is assigned and prefers [c0] to [c1]. *)
Definition prefers_at (g : Grid) (c0 c1 : Z) (i j : nat) : Prop :=
  ∃ p, holds g i j p ∧ p ≠ EmptyProf ∧ prefers p c0 c1 = Ret true.

(** A line between two rows or between two columns has the voters [A] on
    one side and the voters [B] on the other. *)
Definition separated (A B : nat → nat → Prop) : Prop :=
  (∀ i j i' j', A i j → B i' j' → (i < i')%nat)
  ∨ (∀ i j i' j', A i j → B i' j' → (i' < i)%nat)
  ∨ (∀ i j i' j', A i j → B i' j' → (j < j')%nat)
  ∨ (∀ i j i' j', A i j → B i' j' → (j' < j)%nat).

(** [g] is [h] with some of its cells unassigned. *)
Definition restricts (g h : Grid) : Prop :=
  dims g = dims h
  ∧ ∀ i j q, holds h i j q → holds g i j q ∨ holds g i j EmptyProf.

(** Candidate [c] leads on both sides of the line below row [i]
    (to the right of column [j]). *)
Definition straddles_row (g : Grid) (c : Z) (i : nat) : Prop :=
  ∃ i0 j0 i1 j1, top_is g c i0 j0 ∧ top_is g c i1 j1 ∧ (i0 ≤ i)%nat ∧ (i < i1)%nat.

Definition straddles_col (g : Grid) (c : Z) (j : nat) : Prop :=
  ∃ i0 j0 i1 j1, top_is g c i0 j0 ∧ top_is g c i1 j1 ∧ (j0 ≤ j)%nat ∧ (j < j1)%nat.

(** The voters [(i, j)] and [(i', j')] are neighbours: [(i', j')] is below
    or to the right of [(i, j)]. *)
Definition adjacent (i j i' j' : nat) : Prop :=
  (i' = S i ∧ j' = j) ∨ (i' = i ∧ j' = S j).

(** The number of pairs [c0 < c1] of candidates below [C] that [p1] orders
    against both [p0] and [p2]. *)
Definition detours (p0 p1 p2 : Pref) (C : Z) : nat :=
  sum_list_with (λ c0,
    sum_list_with (λ c1,
      if crossed p0 p1 c0 c1 && crossed p1 p2 c0 c1 then 1%nat else 0%nat)
      (seqZ (c0 + 1) (C - (c0 + 1))))
    (seqZ 0 C).

(** The first [C] entries of [p] exist and are candidates below [C]: what
    [cnt_crosses] reads and uses as indices. *)
Definition indexable (p : Pref) (C : Z) : Prop :=
  ∀ i, (i < Z.to_nat C)%nat → ∃ x, p !! i = Some x ∧ 0 ≤ x < C.

(** The voters [(i, j)] and [(i', j')] of [g] are assigned and their lists
    order more than one pair of candidates differently. *)
Definition fast_pair (g : Grid) (C : Z) (i j i' j' : nat) : Prop :=
  ∃ p q, holds g i j p ∧ holds g i' j' q ∧ p ≠ EmptyProf ∧ q ≠ EmptyProf
         ∧ (1 < crossings p q C)%nat.

(** Every cell of [g] before the cursor [(r, c)] holds what [h] holds
    there: [g] is on the way to [h]. *)
Definition agrees_before (g h : Grid) (r c : nat) : Prop :=
  ∀ i j p, holds g i j p → before i j r c → holds h i j p.

(** Every entry of every cell of [g] is a candidate of one digit. *)
Definition one_digit (g : Grid) : Prop :=
  Forall (Forall (Forall (λ x : Z, 0 ≤ x < 10))) g.

(** The text of a row and of a rectangular grid, read from the left: each
    cell followed by a space, each row by a line end, and the closing line
    of four number signs. *)
Definition row_text (row : list Pref) (rest : string) : string :=
  foldr (λ p s, show_pref p +:+ " " +:+ s) (endl +:+ rest) row.

Definition text (g : Grid) : string :=
  foldr row_text ("####" +:+ endl) g.

(** ** The vocabulary of lp_proof *)

(** A valuation gives every real constant [r_v_c] a number; a system of
    assertions is unsatisfiable when no valuation satisfies all of them. *)
Fixpoint eval (ρ : Z → Z → R) (e : lp_proof.expr) : R :=
  match e with
  | lp_proof.real_const v c => ρ v c
  | lp_proof.num n => IZR n
  | lp_proof.add a b => (eval ρ a + eval ρ b)%R
  end.

Definition satisfies (ρ : Z → Z → R) (a : lp_proof.assertion) : Prop :=
  match a with
  | lp_proof.eq a b => eval ρ a = eval ρ b
  | lp_proof.le a b => (eval ρ a <= eval ρ b)%R
  | lp_proof.ge a b => (eval ρ a >= eval ρ b)%R
  end.

Definition unsatisfiable (s : list lp_proof.assertion) : Prop :=
  ∀ ρ, ¬ Forall (satisfies ρ) s.

(** The conjunction of what the assertions say. *)
Fixpoint satisfies_all (ρ : Z → Z → R) (s : list lp_proof.assertion) : Prop :=
  match s with
  | [] => True
  | a :: s' => satisfies ρ a ∧ satisfies_all ρ s'
  end.

(** The profile [(id, s1, s2)] over the candidates [1..4] is
    single-crossing: a pair of candidates that [s1] orders against the
    identity is ordered against it by [s2] too. *)
Definition crossing_free (s1 s2 : list Z) : Prop :=
  ∀ a c, 1 ≤ a → a < c → c ≤ 4 → rank s1 c < rank s1 a → rank s2 c < rank s2 a.

(** The pairs [a < c] of candidates. *)
Definition candidate_pairs : list (Z * Z) := [(1, 2); (1, 3); (1, 4); (2, 3); (2, 4); (3, 4)].

(** The triples [(s1, s2, c2)] of two arrangements of [1..4] that
    [single_crossing] accepts and a candidate, listed. *)
Definition accepted_triples : list (list Z * list Z * Z) :=
  s1 ← permutations [1; 2; 3; 4];
  s2 ← permutations [1; 2; 3; 4];
  match lp_proof.single_crossing (0 :: s1) (0 :: s2) with
  | Some true => c2 ← [1; 2; 3; 4]; [(s1, s2, c2)]
  | _ => []
  end.

(** The system of the triple is well formed and has no solution. *)
Definition refutable (t : list Z * list Z * Z) : Prop :=
  ∀ x y, ∃ s, lp_proof.assertions (x :: t.1.1) (y :: t.1.2) t.2 = Some s
              ∧ length s = 28%nat ∧ unsatisfiable s.

(** The run in which the solver answers [unsat] every time, with more fuel
    than it needs. *)
Definition reference_run : list lp_proof.event * lp_proof.ending * Z :=
  lp_proof.main 48 (λ _, lp_proof.unsat).

(** The triple of a call of [check]. *)
Definition call_of (e : lp_proof.event) : option (list Z * list Z * Z) :=
  match e with
  | lp_proof.Check sigma1 sigma2 c2 => Some (sigma1, sigma2, c2)
  | lp_proof.Processing _ => None
  end.

(** A run with the events [t] and the ending [e], cut short at the first
    call of [check] that does not return under [solve]. *)
Fixpoint cut_short (solve : list lp_proof.assertion → lp_proof.check_result)
    (t : list lp_proof.event) (e : lp_proof.ending) : list lp_proof.event * lp_proof.ending :=
  match t with
  | [] => ([], e)
  | lp_proof.Check sigma1 sigma2 c2 :: t' =>
      match lp_proof.check solve sigma1 sigma2 c2 with
      | Some true =>
          let '(u, e') := cut_short solve t' e in (lp_proof.Check sigma1 sigma2 c2 :: u, e')
      | Some false => ([lp_proof.Check sigma1 sigma2 c2], lp_proof.Exits)
      | None => ([lp_proof.Check sigma1 sigma2 c2], lp_proof.Undefined)
      end
  | ev :: t' => let '(u, e') := cut_short solve t' e in (ev :: u, e')
  end.

(** The count that a line written to [cerr] shows. *)
Definition count_of (e : lp_proof.event) : option Z :=
  match e with
  | lp_proof.Processing cnt => Some cnt
  | lp_proof.Check _ _ _ => None
  end.

(** Closed decidable facts (permutations of concrete lists and the like)
    are settled by evaluation. *)
Ltac by_evaluation := refine (bool_decide_unpack _ _); vm_compute; exact I.

(** * Properties *)

(** ** Outcomes and loops *)

Lemma bind_Ret {A B} (m : res A) (f : A → res B) (b : B) :
  m ≫= f = Ret b ↔ ∃ a, m = Ret a ∧ f a = Ret b.
Proof.
  destruct m as [a|e]; simpl; split.
  - intros H. by exists a.
  - by intros (a' & [= ->] & H).
  - intros [=].
  - by intros (a' & [=] & _).
Qed.

Lemma at_Ret {A} (v : list A) (i : nat) (x : A) : at_ v i = Ret x ↔ v !! i = Some x.
Proof. unfold at_. destruct (v !! i); split; congruence. Qed.

Lemma at_Raise {A} (v : list A) (i : nat) (e : exn) :
  at_ v i = Raise e ↔ (length v ≤ i)%nat ∧ e = IndexOutOfRange.
Proof.
  unfold at_. destruct (v !! i) eqn:E.
  - apply lookup_lt_Some in E. split; [done|]. intros [? _]. lia.
  - apply lookup_ge_None in E. split; [by intros [= <-]|]. by intros [_ ->].
Qed.

(** ** Preference lists: [pos] *)

Lemma pos_from_Ret (p : Pref) (c : Z) (k i : nat) :
  pos_from p c k = Ret i ↔
  ∃ n, i = (k + n)%nat ∧ p !! n = Some c ∧ ∀ j, (j < n)%nat → p !! j ≠ Some c.
Proof.
  revert k. induction p as [|x p IH]; intros k; simpl.
  - split; [done|]. by intros (n & _ & ? & _).
  - case_decide as Hx.
    + subst x. split.
      * intros [= <-]. exists 0%nat. split_and!; [lia|done|lia].
      * intros (n & -> & Hn & Hfirst). destruct n as [|n]; [f_equal; lia|].
        by destruct (Hfirst 0%nat ltac:(lia)).
    + rewrite IH. split.
      * intros (n & -> & Hn & Hfirst). exists (S n). split_and!; [lia|done|].
        intros [|j] Hj; simpl; [congruence|]. apply Hfirst. lia.
      * intros (n & -> & Hn & Hfirst). destruct n as [|n]; [simpl in Hn; congruence|].
        exists n. split_and!; [lia|done|].
        intros j Hj. apply (Hfirst (S j)). lia.
Qed.

Lemma pos_from_Raise (p : Pref) (c : Z) (k : nat) (e : exn) :
  pos_from p c k = Raise e ↔ (c ∉ p) ∧ e = LogicError.
Proof.
  revert k. induction p as [|x p IH]; intros k; simpl.
  - split; [intros [= <-]; split; [apply not_elem_of_nil|done]|by intros [_ ->]].
  - case_decide as Hx.
    + subst x. split; [done|]. intros [Hc _]. destruct Hc. left.
    + rewrite IH, not_elem_of_cons. intuition congruence.
Qed.

Lemma pos_Ret (p : Pref) (c : Z) (i : nat) :
  pos p c = Ret i ↔ p !! i = Some c ∧ ∀ j, (j < i)%nat → p !! j ≠ Some c.
Proof.
  unfold pos. rewrite pos_from_Ret. split.
  - by intros (n & -> & ?).
  - intros ?. by exists i.
Qed.

Lemma pos_elem_of (p : Pref) (c : Z) : c ∈ p → ∃ i, pos p c = Ret i.
Proof.
  intros Hc. destruct (pos p c) as [i|e] eqn:E; [by exists i|].
  apply pos_from_Raise in E. by destruct E.
Qed.

(** C8: [pos p c] returns the (first) index [i] with [p[i] == c] whenever
    [c] occurs in [p]; it fails exactly when [c] does not occur, and then by
    throwing [logic_error]; on a permutation of [0..C-1] and a candidate
    [0 <= c < C] it always returns. *)
Theorem pos_spec (p : Pref) (c : Z) :
  (c ∈ p → ∃ i, pos p c = Ret i ∧ p !! i = Some c ∧ ∀ j, (j < i)%nat → p !! j ≠ Some c)
  ∧ (pos p c = Raise LogicError ↔ c ∉ p)
  ∧ (∀ e, pos p c = Raise e → e = LogicError)
  ∧ (∀ C, p ≡ₚ seqZ 0 C → 0 ≤ c < C → ∃ i, pos p c = Ret i ∧ p !! i = Some c).
Proof.
  split_and!.
  - intros Hc. destruct (pos_elem_of p c Hc) as [i Hi]. exists i.
    split; [done|]. by apply pos_Ret.
  - unfold pos. rewrite pos_from_Raise. tauto.
  - unfold pos. intros e. rewrite pos_from_Raise. tauto.
  - intros C Hperm Hc.
    assert (c ∈ p) as Hin by (rewrite Hperm, elem_of_seqZ; lia).
    destruct (pos_elem_of p c Hin) as [i Hi]. exists i.
    split; [done|]. by apply pos_Ret in Hi as [? _].
Qed.

Example pos_spec_example :
  ∃ i, pos [2; 0; 1] 1 = Ret i ∧ [2; 0; 1] !! i = Some 1.
Proof.
  apply (proj2 (proj2 (proj2 (pos_spec [2; 0; 1] 1))) 3); [|lia].
  change (seqZ 0 3) with [0; 1; 2].
  apply (Permutation_cons_app [0; 1] [] 2 (reflexivity _)).
Defined.

(** ** Bounding boxes: [Rect::add] *)

(** C7: [Rect::add] is commutative and idempotent, its result contains the
    box it extends and the added point, and adding a point (with
    coordinates between [-INF] and [INF], as every grid coordinate is) to
    the default-constructed box gives the singleton box of that point. *)
Theorem Rect_add_laws (b : Rect.t) (ra ca rb cb : Z) :
  Rect.add (Rect.add b ra ca) rb cb = Rect.add (Rect.add b rb cb) ra ca
  ∧ Rect.add (Rect.add b ra ca) ra ca = Rect.add b ra ca
  ∧ Rect.incl b (Rect.add b ra ca)
  ∧ Rect.contains (Rect.add b ra ca) ra ca
  ∧ (- INF ≤ ra ≤ INF → - INF ≤ ca ≤ INF →
     Rect.add Rect.empty ra ca = Rect.singleton ra ca).
Proof.
  destruct b as [x0 x1 y0 y1].
  unfold Rect.add, Rect.incl, Rect.contains, Rect.singleton, Rect.empty; simpl.
  split_and!; try lia.
  - f_equal; lia.
  - f_equal; lia.
  - intros Hr Hc. f_equal; lia.
Qed.

Example Rect_add_laws_example :
  Rect.add Rect.empty 1 2 = Rect.singleton 1 2.
Proof.
  apply (proj2 (proj2 (proj2 (proj2 (Rect_add_laws Rect.empty 1 2 0 0)))));
    unfold INF; lia.
Defined.

(** ** Loops *)

Lemma for_each_app {A St} (l1 l2 : list A) (body : A → St → res St) (s : St) :
  for_each (l1 ++ l2) body s = for_each l1 body s ≫= for_each l2 body.
Proof.
  revert s. induction l1 as [|x l1 IH]; intros s; simpl; [done|].
  destruct (body x s); simpl; [apply IH|done].
Qed.

(** Two loops over the same list whose bodies keep a relation between their
    states keep it to the end. *)
Lemma for_each_rel {A St} (R : St → St → Prop) (l : list A) (body body' : A → St → res St) :
  (∀ x s s' t, x ∈ l → R s s' → body x s = Ret t → ∃ t', body' x s' = Ret t' ∧ R t t') →
  ∀ s s' t, R s s' → for_each l body s = Ret t →
  ∃ t', for_each l body' s' = Ret t' ∧ R t t'.
Proof.
  induction l as [|x l IH]; intros Hbody s s' t HR; simpl.
  - intros [= <-]. by exists s'.
  - intros (u & Hu & Hrest)%bind_Ret.
    destruct (Hbody x s s' u) as (u' & -> & HR'); [left|done..|]. simpl.
    apply (IH (λ y a a' b Hy, Hbody y a a' b (list_elem_of_further _ _ _ Hy)) u u' t HR' Hrest).
Qed.

(** A counting loop whose body re-establishes an invariant indexed by the
    number of completed iterations. *)
Lemma for_each_seq_inv {St} (I : nat → St → Prop) (n : nat) (body : nat → St → res St) (s : St) :
  I 0%nat s →
  (∀ k a, (k < n)%nat → I k a → ∃ a', body k a = Ret a' ∧ I (S k) a') →
  ∃ s', for_each (seq 0 n) body s = Ret s' ∧ I n s'.
Proof.
  intros H0 Hstep. induction n as [|n IH].
  - by exists s.
  - destruct IH as (a & Ha & HI); [intros k b Hk; apply Hstep; lia|].
    destruct (Hstep n a ltac:(lia) HI) as (a' & Ha' & HI').
    exists a'. split; [|done].
    rewrite seq_S, for_each_app, Ha. simpl. by rewrite Ha'.
Qed.

Lemma any_of_Ret_false {A} (l : list A) (test : A → res bool) :
  any_of l test = Ret false ↔ ∀ x, x ∈ l → test x = Ret false.
Proof.
  induction l as [|x l IH]; simpl.
  - split; [|done]. intros _ x Hx. by apply elem_of_nil in Hx.
  - split.
    + intros (b & Hb & Hrest)%bind_Ret. destruct b; [done|].
      intros y [->|Hy]%elem_of_cons; [done|]. by apply IH.
    + intros Hall. rewrite (Hall x) by left. simpl. apply IH.
      intros y Hy. apply Hall. by right.
Qed.

(** Tests that can only turn from [false] to [true] can only turn a scan
    from [false] to [true]. *)
Lemma any_of_mono {A} (l : list A) (test test' : A → res bool) :
  (∀ x b, x ∈ l → test x = Ret b → ∃ b', test' x = Ret b' ∧ (b = true → b' = true)) →
  ∀ b, any_of l test = Ret b → ∃ b', any_of l test' = Ret b' ∧ (b = true → b' = true).
Proof.
  induction l as [|x l IH]; intros Hmono b; simpl.
  - intros [= <-]. by exists false.
  - intros (a & Ha & Hrest)%bind_Ret.
    destruct (Hmono x a) as (a' & -> & Haa'); [left|done|]. simpl.
    destruct a.
    + rewrite Haa' by done. by exists true.
    + destruct a'; [by exists true|]. apply IH; [|done].
      intros y c Hy. apply Hmono. by right.
Qed.

(** ** Reading and writing cells *)

Lemma store_Ret {A} (v v' : list A) (i : nat) (x : A) :
  store v i x = Ret v' ↔ (i < length v)%nat ∧ v' = <[i := x]> v.
Proof.
  unfold store. case_decide; split.
  - by intros [= <-].
  - by intros [_ ->].
  - done.
  - intros [? _]. lia.
Qed.

Lemma cell_Ret (g : Grid) (i j : nat) (p : Pref) :
  cell g i j = Ret p ↔ ∃ row, g !! i = Some row ∧ row !! j = Some p.
Proof.
  unfold cell. rewrite bind_Ret. setoid_rewrite at_Ret. done.
Qed.

Lemma set_cell_Ret (g g' : Grid) (i j : nat) (p : Pref) :
  set_cell g i j p = Ret g' ↔
  ∃ row, g !! i = Some row ∧ (j < length row)%nat ∧ g' = <[i := <[j := p]> row]> g.
Proof.
  unfold set_cell. rewrite bind_Ret. setoid_rewrite bind_Ret.
  setoid_rewrite at_Ret. setoid_rewrite store_Ret. split.
  - intros (row & Hrow & row' & [Hj ->] & _ & ->). by exists row.
  - intros (row & Hrow & Hj & ->). exists row. split; [done|].
    exists (<[j := p]> row). split_and!; try done. by eapply lookup_lt_Some.
Qed.

Lemma set_cell_dims (g g' : Grid) (i j : nat) (p : Pref) :
  set_cell g i j p = Ret g' → dims g' = dims g.
Proof.
  intros (row & Hrow & Hj & ->)%set_cell_Ret.
  destruct g as [|row0 g]; [done|].
  destruct i as [|i]; simpl in *.
  - injection Hrow as ->. destruct row as [|q row]; simpl in *; [lia|].
    destruct j; simpl; by rewrite ?length_insert.
  - destruct row0; [done|]. by rewrite length_insert.
Qed.

Lemma set_cell_cell (g g' : Grid) (i j : nat) (p : Pref) (i' j' : nat) :
  set_cell g i j p = Ret g' →
  cell g' i' j' = if decide (i' = i ∧ j' = j) then Ret p else cell g i' j'.
Proof.
  intros (row & Hrow & Hj & ->)%set_cell_Ret. unfold cell, at_.
  destruct (decide (i' = i)) as [->|Hi].
  - rewrite list_lookup_insert_eq by (by eapply lookup_lt_Some). rewrite Hrow. simpl.
    destruct (decide (j' = j)) as [->|Hj'].
    + rewrite list_lookup_insert_eq by done. by rewrite decide_True.
    + rewrite list_lookup_insert_ne by done. rewrite decide_False by tauto. done.
  - rewrite list_lookup_insert_ne by done. rewrite decide_False by tauto. done.
Qed.

(** ** Feasibility is monotone in the assignment *)

Lemma Rect_incl_refl (b : Rect.t) : Rect.incl b b.
Proof. unfold Rect.incl. lia. Qed.

Lemma Rect_add_incl (a b : Rect.t) (r c : Z) :
  Rect.incl a b → Rect.incl a (Rect.add b r c) ∧ Rect.incl (Rect.add a r c) (Rect.add b r c).
Proof. unfold Rect.incl, Rect.add; simpl. lia. Qed.

Lemma do_intersect_true (a b : Rect.t) :
  do_intersect a b = true ↔
  Rect.r0 a ≤ Rect.r1 b ∧ Rect.r0 b ≤ Rect.r1 a ∧ Rect.c0 a ≤ Rect.c1 b ∧ Rect.c0 b ≤ Rect.c1 a.
Proof. unfold do_intersect. repeat case_decide; split; (done || lia). Qed.

Lemma do_intersect_incl (a a' b b' : Rect.t) :
  Rect.incl a a' → Rect.incl b b' → do_intersect a b = true → do_intersect a' b' = true.
Proof. rewrite !do_intersect_true. unfold Rect.incl. lia. Qed.

Lemma prefers_elem_of (p : Pref) (c0 c1 : Z) :
  c0 ∈ p → c1 ∈ p → ∃ b, prefers p c0 c1 = Ret b.
Proof.
  intros [i0 H0]%pos_elem_of [i1 H1]%pos_elem_of.
  unfold prefers. rewrite H0, H1. simpl. eauto.
Qed.

(** Assigning an unassigned cell a list that ranks both candidates can only
    enlarge the box of the voters who prefer [c0] to [c1]. *)
Lemma get_preference_bounding_box_assign (g g' : Grid) (r c : nat) (p : Pref) (c0 c1 : Z) (b : Rect.t) :
  cell g r c = Ret EmptyProf → set_cell g r c p = Ret g' →
  c0 ∈ p → c1 ∈ p →
  get_preference_bounding_box g c0 c1 = Ret b →
  ∃ b', get_preference_bounding_box g' c0 c1 = Ret b' ∧ Rect.incl b b'.
Proof.
  intros Hempty Hset Hc0 Hc1. unfold get_preference_bounding_box.
  rewrite (set_cell_dims _ _ _ _ _ Hset).
  destruct (dims g) as [[N M]|e]; simpl; [|done].
  apply for_each_rel; [|apply Rect_incl_refl].
  intros i s s' t _ HR. apply for_each_rel; [|done].
  clear s s' t HR. intros j s s' t _ HR.
  rewrite (set_cell_cell _ _ _ _ _ i j Hset).
  case_decide as Hij.
  - destruct Hij as [-> ->]. rewrite Hempty. simpl. intros [= <-].
    case_decide; [by exists s'|].
    destruct (prefers_elem_of p c0 c1 Hc0 Hc1) as [q ->]. simpl.
    destruct q; [|by exists s'].
    eexists. split; [done|]. by apply Rect_add_incl.
  - destruct (cell g i j) as [q|e]; simpl; [|done].
    case_decide; [intros [= <-]; by exists s'|].
    destruct (prefers q c0 c1) as [[]|e]; simpl; intros [= <-].
    + eexists. split; [done|]. by apply Rect_add_incl.
    + by exists s'.
Qed.

(** Whatever list is assigned, if both scans return then the box has only
    grown. *)
Lemma for_each_rel_lax {A St} (R : St → St → Prop) (l : list A) (body body' : A → St → res St) :
  (∀ x s s' t t', x ∈ l → R s s' → body x s = Ret t → body' x s' = Ret t' → R t t') →
  ∀ s s' t t', R s s' → for_each l body s = Ret t → for_each l body' s' = Ret t' → R t t'.
Proof.
  induction l as [|x l IH]; intros Hbody s s' t t' HR; simpl.
  - by intros [= <-] [= <-].
  - intros (u & Hu & Hrest)%bind_Ret (u' & Hu' & Hrest')%bind_Ret.
    apply (IH (λ y a a' b b' Hy, Hbody y a a' b b' (list_elem_of_further _ _ _ Hy))
              u u' t t'); [|done..].
    by apply (Hbody x s s' u u'); [left|..].
Qed.

Lemma any_of_lax {A} (l : list A) (test test' : A → res bool) :
  (∀ x, x ∈ l → test x = Ret true → test' x ≠ Ret false) →
  any_of l test = Ret true → any_of l test' ≠ Ret false.
Proof.
  induction l as [|x l IH]; intros Hlax; simpl; [done|].
  intros (b & Hb & Hrest)%bind_Ret.
  pose proof (Hlax x ltac:(left)) as Hx.
  destruct (test' x) as [[]|e]; simpl; [done| |done].
  destruct b; [by destruct Hx|].
  apply IH; [|done]. intros y Hy. apply Hlax. by right.
Qed.

Lemma get_preference_bounding_box_assign_lax
    (g g' : Grid) (r c : nat) (p : Pref) (c0 c1 : Z) (b b' : Rect.t) :
  cell g r c = Ret EmptyProf → set_cell g r c p = Ret g' →
  get_preference_bounding_box g c0 c1 = Ret b →
  get_preference_bounding_box g' c0 c1 = Ret b' →
  Rect.incl b b'.
Proof.
  intros Hempty Hset. unfold get_preference_bounding_box.
  rewrite (set_cell_dims _ _ _ _ _ Hset).
  destruct (dims g) as [[N M]|e]; simpl; [|done].
  apply for_each_rel_lax; [|apply Rect_incl_refl].
  intros i s s' t t' _ HR. apply for_each_rel_lax; [|done].
  clear s s' t t' HR. intros j s s' t t' _ HR.
  rewrite (set_cell_cell _ _ _ _ _ i j Hset).
  case_decide as Hij.
  - destruct Hij as [-> ->]. rewrite Hempty. simpl. intros [= <-].
    case_decide; [by intros [= <-]|].
    destruct (prefers p c0 c1) as [[]|]; simpl; intros [= <-]; [|done].
    by apply Rect_add_incl.
  - destruct (cell g i j) as [q|e]; simpl; [|done].
    case_decide; [by intros [= <-] [= <-]|].
    destruct (prefers q c0 c1) as [[]|e]; simpl; intros [= <-] [= <-]; [|done].
    by apply Rect_add_incl.
Qed.

(** C1: if [grid_valid] returns [false] on a profile, then on every
    profile obtained by assigning one of its unassigned cells it does not
    return [true], whatever list is assigned; and it returns [false] when
    the list is a preference list over the candidates [0..C-1]: a pruned
    profile has no completion that passes. *)
Theorem grid_valid_assign_false (g g' : Grid) (C : Z) (r c : nat) (p : Pref) :
  grid_valid g C = Ret false →
  cell g r c = Ret EmptyProf →
  set_cell g r c p = Ret g' →
  grid_valid g' C ≠ Ret true
  ∧ (p ≡ₚ seqZ 0 C → grid_valid g' C = Ret false).
Proof.
  intros Hvalid Hempty Hset. unfold grid_valid in *.
  apply bind_Ret in Hvalid as (found & Hfound & [= Hneg]).
  destruct found; [clear Hneg|done]. split.
  - assert (any_of (seqZ 0 C) (λ c0,
      any_of (seqZ (c0 + 1) (C - (c0 + 1))) (λ c1,
        b0 ← get_preference_bounding_box g' c0 c1;
        b1 ← get_preference_bounding_box g' c1 c0;
        Ret (do_intersect b0 b1))) ≠ Ret false) as Hlax.
    { revert Hfound. apply any_of_lax.
      intros c0 _. apply any_of_lax. intros c1 _. simpl.
      intros (b0 & Hb0 & (b1 & Hb1 & [= Hmeet])%bind_Ret)%bind_Ret.
      destruct (get_preference_bounding_box g' c0 c1) as [b0'|] eqn:Hb0'; [|done].
      destruct (get_preference_bounding_box g' c1 c0) as [b1'|] eqn:Hb1'; [|done].
      simpl. intros [= Hmeet'].
      rewrite (do_intersect_incl b0 b0' b1 b1') in Hmeet'; [done| | |done].
      - by apply (get_preference_bounding_box_assign_lax g g' r c p c0 c1).
      - by apply (get_preference_bounding_box_assign_lax g g' r c p c1 c0). }
    clear Hfound. destruct (any_of (seqZ 0 C) _) as [[]|e]; simpl; [done| |done].
    by destruct Hlax.
  - intros Hperm.
    eapply any_of_mono in Hfound as (found' & -> & Hfound'); [by rewrite Hfound'|].
    intros c0 b Hc0. apply any_of_mono.
    intros c1 b' Hc1 Hb'. simpl in Hb'.
    apply bind_Ret in Hb' as (b0 & Hb0 & (b1 & Hb1 & [= <-])%bind_Ret).
    apply elem_of_seqZ in Hc0, Hc1.
    assert (c0 ∈ p ∧ c1 ∈ p) as [Hin0 Hin1]
      by (rewrite Hperm, !elem_of_seqZ; lia).
    destruct (get_preference_bounding_box_assign g g' r c p c0 c1 b0)
      as (b0' & -> & Hincl0); [done..|].
    destruct (get_preference_bounding_box_assign g g' r c p c1 c0 b1)
      as (b1' & -> & Hincl1); [done..|].
    simpl. eexists. split; [done|]. by apply do_intersect_incl.
Qed.

Example grid_valid_assign_false_example :
  grid_valid [[[0; 1]; [1; 0]; [0; 1]; [1; 0]]] 2 = Ret false.
Proof.
  apply (grid_valid_assign_false [[[0; 1]; [1; 0]; [0; 1]; []]] _ 2 0 3 [1; 0]).
  - vm_compute. reflexivity.
  - reflexivity.
  - reflexivity.
  - change (seqZ 0 2) with [0; 1]. apply perm_swap.
Defined.

(** ** Scenario C *)

(** C5: on the documented 3 by 3 profile with 5 candidates [has_isolated]
    returns [true]; the isolated region is that of candidate 2, whose
    dominance box is the single interior cell.  The profile passes
    [grid_valid], so the search does reach it. *)
Theorem has_isolated_scenario_C :
  has_isolated scenario_C 5 = Ret true
  ∧ get_dominance_box scenario_C 2 = Ret (Rect.mk 1 1 1 1)
  ∧ grid_valid scenario_C 5 = Ret true.
Proof. split_and!; vm_compute; reflexivity. Qed.

(** ** Bounding boxes computed by scanning the grid *)

Lemma for_each_ext {A St} (l : list A) (body body' : A → St → res St) (s : St) :
  (∀ x a, x ∈ l → body x a = body' x a) → for_each l body s = for_each l body' s.
Proof.
  revert s. induction l as [|x l IH]; intros s Hext; simpl; [done|].
  rewrite <- Hext by left. destruct (body x s); simpl; [|done].
  apply IH. intros y a0 Hy. apply Hext. by right.
Qed.

Lemma is_bounding_box_ext (P Q : nat → nat → Prop) (b : Rect.t) :
  (∀ i j, P i j ↔ Q i j) → is_bounding_box P b → is_bounding_box Q b.
Proof.
  intros HPQ [[-> Hnone]|(Hall & H0 & H1 & H2 & H3)]; [left|right].
  - split; [done|]. intros i j. rewrite <- HPQ. apply Hnone.
  - split_and!; [intros i j; rewrite <- HPQ; apply Hall|..];
      [destruct H0 as (i & j & ? & ?)|destruct H1 as (i & j & ? & ?)
      |destruct H2 as (i & j & ? & ?)|destruct H3 as (i & j & ? & ?)];
      exists i, j; by rewrite <- HPQ.
Qed.

Lemma is_bounding_box_add (P : nat → nat → Prop) (b : Rect.t) (i j : nat) :
  Z.of_nat i ≤ INF → Z.of_nat j ≤ INF →
  is_bounding_box P b →
  is_bounding_box (λ i' j', P i' j' ∨ (i' = i ∧ j' = j)) (Rect.add b (Z.of_nat i) (Z.of_nat j)).
Proof.
  intros Hi Hj [[-> Hnone]|(Hall & H0 & H1 & H2 & H3)]; right.
  - unfold Rect.add, Rect.contains, Rect.empty, INF in *; simpl.
    split_and!.
    + intros i' j' [HP|[-> ->]]; [by destruct (Hnone i' j')|lia].
    + exists i, j. split; [by right|lia].
    + exists i, j. split; [by right|lia].
    + exists i, j. split; [by right|lia].
    + exists i, j. split; [by right|lia].
  - destruct b as [x0 x1 y0 y1]. unfold Rect.add, Rect.contains in *; simpl in *.
    split_and!.
    + intros i' j' [HP|[-> ->]]; [specialize (Hall i' j' HP)|]; lia.
    + destruct H0 as (i0 & j0 & HP & ->).
      destruct (decide (i0 ≤ i)%nat);
        [exists i0, j0; split; [by left|lia]|exists i, j; split; [by right|lia]].
    + destruct H1 as (i0 & j0 & HP & ->).
      destruct (decide (i ≤ i0)%nat);
        [exists i0, j0; split; [by left|lia]|exists i, j; split; [by right|lia]].
    + destruct H2 as (i0 & j0 & HP & ->).
      destruct (decide (j0 ≤ j)%nat);
        [exists i0, j0; split; [by left|lia]|exists i, j; split; [by right|lia]].
    + destruct H3 as (i0 & j0 & HP & ->).
      destruct (decide (j ≤ j0)%nat);
        [exists i0, j0; split; [by left|lia]|exists i, j; split; [by right|lia]].
Qed.

(** The row-major scan shared by the two box functions: when every cell's
    test returns, the scan returns the bounding box of the cells whose test
    is [true]. *)
Lemma bounding_box_scan (N M : nat) (test : nat → nat → res bool) (pts : nat → nat → Prop) :
  Z.of_nat N ≤ INF → Z.of_nat M ≤ INF →
  (∀ i j, (i < N)%nat → (j < M)%nat → ∃ t, test i j = Ret t ∧ (t = true ↔ pts i j)) →
  ∃ b,
    for_each (seq 0 N) (λ i ans,
      for_each (seq 0 M) (λ j ans,
        t ← test i j;
        Ret (if t : bool then Rect.add ans (Z.of_nat i) (Z.of_nat j) else ans)) ans)
      Rect.empty = Ret b
    ∧ is_bounding_box (λ i j, (i < N)%nat ∧ (j < M)%nat ∧ pts i j) b.
Proof.
  intros HN HM Htest.
  apply (for_each_seq_inv
    (λ n b, is_bounding_box (λ i j, (i < n)%nat ∧ (j < M)%nat ∧ pts i j) b)).
  { left. split; [done|]. intros i j [? _]. lia. }
  intros i a Hi Ha.
  destruct (for_each_seq_inv
    (λ m b, is_bounding_box
       (λ i' j', ((i' < i)%nat ∧ (j' < M)%nat ∨ i' = i ∧ (j' < m)%nat) ∧ pts i' j') b)
    M (λ j ans, t ← test i j;
         Ret (if t : bool then Rect.add ans (Z.of_nat i) (Z.of_nat j) else ans)) a)
    as (a' & Ha' & HI).
  - revert Ha. apply is_bounding_box_ext. intros i' j'. intuition lia.
  - intros j b Hj Hb. destruct (Htest i j Hi Hj) as (t & -> & Ht). simpl.
    eexists. split; [done|]. destruct t.
    + apply (is_bounding_box_add _ _ i j) in Hb; [|lia..].
      revert Hb. apply is_bounding_box_ext. intros i' j'.
      split.
      * intros [[Hcase HP]|[-> ->]]; [split; [|done]; intuition lia|].
        split; [right; lia|by apply Ht].
      * intros [[Hlt|[-> Hlt]] HP]; [left; split; [by left|done]|].
        destruct (decide (j' = j)) as [->|]; [by right|].
        left. split; [right; lia|done].
    + revert Hb. apply is_bounding_box_ext. intros i' j'.
      split; [intros [Hcase HP]; split; [|done]; intuition lia|].
      intros [[Hlt|[-> Hlt]] HP]; [split; [by left|done]|].
      destruct (decide (j' = j)) as [->|]; [|split; [right; lia|done]].
      apply Ht in HP. done.
  - exists a'. split; [done|]. revert HI. apply is_bounding_box_ext.
    intros i' j'. intuition lia.
Qed.

(** ** Shapes *)

Lemma grid_shape_dims (g : Grid) (N M : nat) :
  grid_shape g N M → (0 < N)%nat → (0 < M)%nat → dims g = Ret (N, M).
Proof.
  intros [HN Hrows] HN0 HM0. destruct g as [|row0 g]; simpl in *; [lia|].
  apply Forall_cons in Hrows as [Hrow0 _].
  destruct row0; simpl in *; [lia|]. by rewrite HN, Hrow0.
Qed.

Lemma grid_shape_holds (g : Grid) (N M i j : nat) :
  grid_shape g N M → (i < N)%nat → (j < M)%nat → ∃ p, holds g i j p.
Proof.
  intros [HN Hrows] Hi Hj. unfold holds.
  destruct (lookup_lt_is_Some_2 g i) as [row Hrow]; [lia|].
  rewrite Forall_lookup in Hrows. specialize (Hrows i row Hrow).
  destruct (lookup_lt_is_Some_2 row j) as [p Hp]; [simpl in *; lia|].
  exists p. apply cell_Ret. eauto.
Qed.

Lemma grid_shape_holds_lt (g : Grid) (N M i j : nat) (p : Pref) :
  grid_shape g N M → holds g i j p → (i < N)%nat ∧ (j < M)%nat.
Proof.
  intros [HN Hrows] (row & Hrow & Hp)%cell_Ret.
  rewrite Forall_lookup in Hrows. specialize (Hrows i row Hrow). simpl in Hrows.
  apply lookup_lt_Some in Hrow, Hp. lia.
Qed.

Lemma at_0_head {A} (p : list A) : at_ p 0 = match head p with Some x => Ret x | None => Raise IndexOutOfRange end.
Proof. by destruct p. Qed.

(** ** Dominance boxes *)

(** On a complete profile the scan returns the bounding box of the voters
    who rank [c] first. *)
Lemma get_dominance_box_is_bounding_box (g : Grid) (N M : nat) (c : Z) :
  (0 < N)%nat → (0 < M)%nat → Z.of_nat N ≤ INF → Z.of_nat M ≤ INF →
  grid_shape g N M →
  (∀ i j p, holds g i j p → p ≠ EmptyProf) →
  ∃ b, get_dominance_box g c = Ret b ∧ is_bounding_box (top_is g c) b.
Proof.
  intros HN0 HM0 HN HM Hshape Hfull. unfold get_dominance_box.
  rewrite (grid_shape_dims g N M) by done. simpl.
  destruct (bounding_box_scan N M
    (λ i j, p ← cell g i j; top ← at_ p 0; Ret (bool_decide (top = c)))
    (top_is g c) HN HM) as (b & Hb & Hbox).
  - intros i j Hi Hj.
    destruct (grid_shape_holds g N M i j Hshape Hi Hj) as [p Hp].
    unfold holds in Hp. rewrite Hp. simpl. rewrite at_0_head.
    destruct p as [|x p]; [by destruct (Hfull i j [] Hp)|]. simpl.
    eexists. split; [done|]. rewrite bool_decide_eq_true. split.
    + intros ->. by exists (c :: p).
    + intros (q & Hq & Hhead). unfold holds in Hq. rewrite Hp in Hq.
      injection Hq as <-. by injection Hhead.
  - exists b. split.
    + rewrite <- Hb. apply for_each_ext. intros i a _.
      apply for_each_ext. intros j a' _.
      destruct (cell g i j) as [p|]; simpl; [|done].
      destruct (at_ p 0) as [x|]; simpl; [|done].
      by destruct (decide (x = c)); [rewrite bool_decide_eq_true_2|rewrite bool_decide_eq_false_2].
    + revert Hbox. apply is_bounding_box_ext. intros i j. split; [tauto|].
      intros Htop. split_and!; [..|done]; destruct Htop as (p & Hp & _);
        by destruct (grid_shape_holds_lt g N M i j p).
Qed.

Lemma for_each_Raise_only {A St} (e0 : exn) (l : list A) (body : A → St → res St) :
  (∀ x a e, x ∈ l → body x a = Raise e → e = e0) →
  ∀ s e, for_each l body s = Raise e → e = e0.
Proof.
  induction l as [|x l IH]; intros Honly s e; simpl; [done|].
  destruct (body x s) as [a|e'] eqn:E; simpl.
  - apply IH. intros y b e'' Hy. apply Honly. by right.
  - intros [= <-]. eapply Honly; [left|done].
Qed.

Lemma for_each_Raise_at {A St} (e0 : exn) (l : list A) (body : A → St → res St) (x : A) :
  (∀ y a e, y ∈ l → body y a = Raise e → e = e0) →
  x ∈ l → (∀ a, ∃ e, body x a = Raise e) →
  ∀ s, for_each l body s = Raise e0.
Proof.
  induction l as [|y l IH]; intros Honly Hx Hraise s; simpl.
  - by apply elem_of_nil in Hx.
  - destruct (body y s) as [a|e'] eqn:E; simpl.
    + apply elem_of_cons in Hx as [->|Hx].
      { destruct (Hraise s) as [e He]. congruence. }
      apply IH; [|done..]. intros z b e'' Hz. apply Honly. by right.
    + f_equal. eapply Honly; [left|done].
Qed.

(** On a profile with an unassigned cell the scan reads the first element
    of an empty list. *)
Lemma get_dominance_box_unassigned (g : Grid) (N M : nat) (c : Z) (i j : nat) :
  (0 < N)%nat → (0 < M)%nat → grid_shape g N M →
  holds g i j EmptyProf →
  get_dominance_box g c = Raise IndexOutOfRange.
Proof.
  intros HN0 HM0 Hshape Hij. unfold get_dominance_box.
  rewrite (grid_shape_dims g N M) by done. simpl.
  destruct (grid_shape_holds_lt g N M i j _ Hshape Hij) as [Hi Hj].
  assert (∀ i' j' a e,
    (p ← cell g i' j'; top ← at_ p 0;
     Ret (if decide (top = c) then Rect.add a (Z.of_nat i') (Z.of_nat j') else a)) = Raise e →
    e = IndexOutOfRange) as Honly.
  { intros i' j' a e. destruct (cell g i' j') as [p|e'] eqn:E; simpl.
    - rewrite at_0_head. destruct (head p); simpl; congruence.
    - intros [= <-]. unfold cell in E. destruct (at_ g i') as [row|] eqn:E'; simpl in E.
      + by apply at_Raise in E as [_ ->].
      + injection E as <-. by apply at_Raise in E' as [_ ->]. }
  apply (for_each_Raise_at _ _ _ i).
  - intros i' a e _. apply for_each_Raise_only. intros j' a' e' _. apply Honly.
  - apply elem_of_seq. lia.
  - intros a. exists IndexOutOfRange. apply (for_each_Raise_at _ _ _ j).
    + intros j' a' e' _. apply Honly.
    + apply elem_of_seq. lia.
    + intros a'. unfold holds in Hij. rewrite Hij. simpl. by eexists.
Qed.

(** C3, as the code has it: on a complete profile (no cell is the
    placeholder) [get_dominance_box g c] returns the bounding box of exactly
    the voters whose most-preferred candidate is [c]; it does not skip
    unassigned cells, and on a profile that has one it reads the first
    element of an empty list.  The dimensions are those of an
    [int]-indexed grid. *)
Theorem get_dominance_box_complete (g : Grid) (N M : nat) (c : Z) :
  (0 < N)%nat → (0 < M)%nat → Z.of_nat N ≤ INF → Z.of_nat M ≤ INF →
  grid_shape g N M →
  ((∀ i j p, holds g i j p → p ≠ EmptyProf) →
   ∃ b, get_dominance_box g c = Ret b ∧ is_bounding_box (top_is g c) b)
  ∧ ((∃ i j, holds g i j EmptyProf) → get_dominance_box g c = Raise IndexOutOfRange).
Proof.
  intros HN0 HM0 HN HM Hshape. split.
  - intros Hfull. by apply (get_dominance_box_is_bounding_box g N M).
  - intros (i & j & Hij). by apply (get_dominance_box_unassigned g N M c i j).
Qed.

Example get_dominance_box_complete_example :
  ∃ b, get_dominance_box scenario_C 3 = Ret b ∧ is_bounding_box (top_is scenario_C 3) b.
Proof.
  apply (get_dominance_box_complete scenario_C 3 3 3); try (unfold INF; lia).
  - split; [reflexivity|]. repeat constructor.
  - intros i j p Hp ->. unfold holds in Hp.
    destruct i as [|[|[|i]]]; [| | |discriminate Hp];
      (destruct j as [|[|[|j]]]; discriminate Hp).
Defined.

(** Unassigned cells are not skipped: the scan reads [g[i][j][0]] of every
    cell, and on this partial 1 by 2 profile that is a read beyond the end
    of an empty list. *)
Lemma get_dominance_box_partial_faults :
  get_dominance_box [[[0; 1]; []]] 0 = Raise IndexOutOfRange.
Proof. reflexivity. Qed.

(** ** Preference boxes *)

Lemma prefers_head (p : Pref) (a b : Z) :
  head p = Some a → b ∈ p → a ≠ b → prefers p a b = Ret true.
Proof.
  intros Ha Hb Hab. unfold prefers.
  assert (pos p a = Ret 0%nat) as ->.
  { apply pos_Ret. split; [by destruct p|]. lia. }
  destruct (pos_elem_of p b Hb) as [k Hk]. rewrite Hk. simpl.
  apply pos_Ret in Hk as [Hk _]. destruct k; [|by rewrite bool_decide_eq_true_2 by lia].
  destruct p; simpl in *; congruence.
Qed.

Lemma is_bounding_box_contains (P : nat → nat → Prop) (b : Rect.t) (i j : nat) :
  is_bounding_box P b → P i j → Rect.contains b (Z.of_nat i) (Z.of_nat j).
Proof. intros [[_ Hnone]|[Hall _]] HP; [by destruct (Hnone i j)|by apply Hall]. Qed.

(** On a profile whose assigned cells rank both candidates,
    [get_preference_bounding_box g c0 c1] is the bounding box of the
    assigned voters who prefer [c0] to [c1]. *)
Lemma get_preference_bounding_box_spec (g : Grid) (N M : nat) (c0 c1 : Z) :
  (0 < N)%nat → (0 < M)%nat → Z.of_nat N ≤ INF → Z.of_nat M ≤ INF →
  grid_shape g N M →
  (∀ i j p, holds g i j p → p = EmptyProf ∨ (c0 ∈ p ∧ c1 ∈ p)) →
  ∃ b, get_preference_bounding_box g c0 c1 = Ret b
       ∧ is_bounding_box (λ i j, ∃ p, holds g i j p ∧ p ≠ EmptyProf ∧ prefers p c0 c1 = Ret true) b.
Proof.
  intros HN0 HM0 HN HM Hshape Hcells. unfold get_preference_bounding_box.
  rewrite (grid_shape_dims g N M) by done. simpl.
  destruct (bounding_box_scan N M
    (λ i j, p ← cell g i j; if decide (p = EmptyProf) then Ret false else prefers p c0 c1)
    (λ i j, ∃ p, holds g i j p ∧ p ≠ EmptyProf ∧ prefers p c0 c1 = Ret true) HN HM)
    as (b & Hb & Hbox).
  - intros i j Hi Hj.
    destruct (grid_shape_holds g N M i j Hshape Hi Hj) as [p Hp].
    pose proof Hp as Hp'. unfold holds in Hp'. rewrite Hp'. simpl.
    case_decide as Hempty.
    + exists false. split; [done|]. split; [done|].
      intros (q & Hq & Hne & _). unfold holds in Hq. congruence.
    + destruct (Hcells i j p Hp) as [?|[Hin0 Hin1]]; [done|].
      destruct (prefers_elem_of p c0 c1 Hin0 Hin1) as [t Ht].
      exists t. split; [done|]. split.
      * intros ->. by exists p.
      * intros (q & Hq & _ & Hq'). unfold holds in Hq. congruence.
  - exists b. split.
    + rewrite <- Hb. apply for_each_ext. intros i a _.
      apply for_each_ext. intros j a' _.
      destruct (cell g i j) as [p|]; simpl; [|done].
      by case_decide.
    + revert Hbox. apply is_bounding_box_ext. intros i j. split; [tauto|].
      intros Hpts. split_and!; [..|done]; destruct Hpts as (p & Hp & _);
        by destruct (grid_shape_holds_lt g N M i j p).
Qed.

(** ** Monodominance *)

Lemma complete_profile_elem (g : Grid) (N M : nat) (C : Z) (i j : nat) (p : Pref) (c : Z) :
  complete_profile g N M C → holds g i j p → c ∈ p ↔ 0 ≤ c < C.
Proof. intros [_ Hperm] Hp. rewrite (Hperm i j p Hp), elem_of_seqZ. lia. Qed.

Lemma complete_profile_nonempty (g : Grid) (N M : nat) (C : Z) (i j : nat) (p : Pref) :
  0 < C → complete_profile g N M C → holds g i j p → p ≠ EmptyProf.
Proof.
  intros HC Hcomplete Hp ->.
  assert (0 ∈ @nil Z) as H%elem_of_nil; [|done].
  apply (complete_profile_elem g N M C i j [] 0 Hcomplete Hp). lia.
Qed.

Lemma is_monodominated_Ret_true (g : Grid) (N M : nat) :
  (0 < N)%nat → (0 < M)%nat → grid_shape g N M →
  is_monodominated g = Ret true ↔
  get_dominance_box g 0 = Ret (Rect.mk 0 (Z.of_nat N - 1) 0 (Z.of_nat M - 1)).
Proof.
  intros HN0 HM0 Hshape. unfold is_monodominated.
  rewrite (grid_shape_dims g N M) by done. simpl.
  destruct (get_dominance_box g 0) as [[x0 x1 y0 y1]|e]; simpl; [|done].
  split.
  - intros [= H]. rewrite !andb_true_iff, !bool_decide_eq_true in H.
    destruct H as [[[-> ->] ->] ->]. done.
  - intros [= -> -> -> ->]. by rewrite !bool_decide_eq_true_2.
Qed.

(** C2, as the code has it: on a complete profile over [C >= 1]
    candidates, [is_monodominated] returns [true] when every voter ranks
    candidate 0 first; when some voter does not, it returns [false]
    provided the profile passes [grid_valid], as every profile the driver
    tests does. *)
Theorem is_monodominated_valid (g : Grid) (N M : nat) (C : Z) :
  (0 < N)%nat → (0 < M)%nat → Z.of_nat N ≤ INF → Z.of_nat M ≤ INF → 0 < C →
  complete_profile g N M C →
  ((∀ i j p, holds g i j p → head p = Some 0) → is_monodominated g = Ret true)
  ∧ (grid_valid g C = Ret true →
     (∃ i j p, holds g i j p ∧ head p ≠ Some 0) →
     is_monodominated g = Ret false).
Proof.
  intros HN0 HM0 HN HM HC Hcomplete. pose proof Hcomplete as [Hshape Hperm].
  destruct (get_dominance_box_is_bounding_box g N M 0 HN0 HM0 HN HM Hshape) as (b & Hb & Hbox).
  { intros i j p. by apply (complete_profile_nonempty g N M C). }
  split.
  - intros Hall. apply (is_monodominated_Ret_true g N M HN0 HM0 Hshape).
    rewrite Hb. f_equal.
    assert (∀ i j, (i < N)%nat → (j < M)%nat → top_is g 0 i j) as Htop.
    { intros i j Hi Hj. destruct (grid_shape_holds g N M i j Hshape Hi Hj) as [p Hp].
      exists p. split; [done|]. by apply (Hall i j). }
    destruct Hbox as [[_ Hnone]|(Hcontains & H0 & H1 & H2 & H3)].
    { destruct (Hnone 0%nat 0%nat). by apply Htop. }
    pose proof (Hcontains 0%nat 0%nat (Htop _ _ HN0 HM0)) as Hlo.
    pose proof (Hcontains (N - 1)%nat (M - 1)%nat (Htop (N - 1)%nat (M - 1)%nat ltac:(lia) ltac:(lia))) as Hhi.
    destruct H0 as (i0 & j0 & (p0 & Hp0 & _) & E0).
    destruct H1 as (i1 & j1 & (p1 & Hp1 & _) & E1).
    destruct H2 as (i2 & j2 & (p2 & Hp2 & _) & E2).
    destruct H3 as (i3 & j3 & (p3 & Hp3 & _) & E3).
    apply (grid_shape_holds_lt g N M _ _ _ Hshape) in Hp0, Hp1, Hp2, Hp3.
    destruct b as [x0 x1 y0 y1]. unfold Rect.contains in *. simpl in *.
    f_equal; lia.
  - intros Hvalid (i & j & p & Hp & Hhead).
    destruct (is_monodominated g) as [[]|e] eqn:Hmono; [exfalso|done|exfalso].
    + apply (is_monodominated_Ret_true g N M HN0 HM0 Hshape) in Hmono.
      rewrite Hb in Hmono. injection Hmono as ->.
      destruct Hbox as [[[=] _]|(_ & H0 & H1 & H2 & H3)]. simpl in *.
      (* the voter who does not rank 0 first ranks some c first *)
      pose proof (complete_profile_nonempty g N M C i j p HC Hcomplete Hp) as Hne.
      destruct p as [|c p]; [done|]. clear Hne.
      assert (c ≠ 0) as Hc0 by (intros ->; by destruct Hhead).
      assert (0 < c < C) as Hc.
      { assert (0 ≤ c < C); [|lia].
        apply (complete_profile_elem g N M C i j (c :: p) c Hcomplete Hp). left. }
      (* the pair (0, c) passed the test of grid_valid *)
      unfold grid_valid in Hvalid.
      apply bind_Ret in Hvalid as (found & Hfound & [= Hneg]).
      destruct found; [done|]. clear Hneg.
      rewrite any_of_Ret_false in Hfound.
      specialize (Hfound 0 ltac:(apply elem_of_seqZ; lia)). simpl in Hfound.
      rewrite any_of_Ret_false in Hfound.
      specialize (Hfound c ltac:(apply elem_of_seqZ; lia)). simpl in Hfound.
      destruct (get_preference_bounding_box_spec g N M 0 c HN0 HM0 HN HM Hshape)
        as (b0 & Hb0 & Hbox0).
      { intros i' j' q Hq. right.
        rewrite !(complete_profile_elem g N M C i' j' q _ Hcomplete Hq). lia. }
      destruct (get_preference_bounding_box_spec g N M c 0 HN0 HM0 HN HM Hshape)
        as (b1 & Hb1 & Hbox1).
      { intros i' j' q Hq. right.
        rewrite !(complete_profile_elem g N M C i' j' q _ Hcomplete Hq). lia. }
      rewrite Hb0, Hb1 in Hfound. simpl in Hfound. injection Hfound as Hfound.
      assert (do_intersect b0 b1 = true) as Htrue; [|congruence].
      (* every voter who ranks 0 first prefers 0 to c *)
      assert (∀ i' j', top_is g 0 i' j' → Rect.contains b0 (Z.of_nat i') (Z.of_nat j')) as Hin0.
      { intros i' j' (q & Hq & Hq0).
        apply (is_bounding_box_contains _ _ _ _ Hbox0).
        exists q. split_and!; [done|by apply (complete_profile_nonempty g N M C i' j')|].
        apply prefers_head; [done| |done].
        apply (complete_profile_elem g N M C i' j' q c Hcomplete Hq). lia. }
      assert (Rect.contains b1 (Z.of_nat i) (Z.of_nat j)) as Hin1.
      { apply (is_bounding_box_contains _ _ _ _ Hbox1).
        exists (c :: p). split_and!; [done..|].
        apply prefers_head; [done| |done].
        apply (complete_profile_elem g N M C i j (c :: p) 0 Hcomplete Hp). lia. }
      destruct (grid_shape_holds_lt g N M i j _ Hshape Hp) as [Hi Hj].
      destruct H0 as (i0 & j0 & Ht0%Hin0 & E0).
      destruct H1 as (i1 & j1 & Ht1%Hin0 & E1).
      destruct H2 as (i2 & j2 & Ht2%Hin0 & E2).
      destruct H3 as (i3 & j3 & Ht3%Hin0 & E3).
      apply do_intersect_true. unfold Rect.contains in *. lia.
    + unfold is_monodominated in Hmono.
      rewrite (grid_shape_dims g N M) in Hmono by done. simpl in Hmono.
      rewrite Hb in Hmono. done.
Qed.

Lemma complete_profile_intro (g : Grid) (N M : nat) (C : Z) :
  length g = N →
  Forall (λ row : list Pref, length row = M ∧ Forall (λ p, p ≡ₚ seqZ 0 C) row) g →
  complete_profile g N M C.
Proof.
  intros HN Hrows. split.
  - split; [done|]. eapply Forall_impl; [exact Hrows|]. by intros row [? _].
  - intros i j p (row & Hrow & Hp)%cell_Ret.
    rewrite Forall_lookup in Hrows. destruct (Hrows i row Hrow) as [_ Hcells].
    rewrite Forall_lookup in Hcells. by apply (Hcells j).
Qed.

Example is_monodominated_valid_example :
  is_monodominated [[[0; 1]; [0; 1]]] = Ret true
  ∧ is_monodominated [[[0; 1]; [1; 0]]] = Ret false.
Proof.
  split.
  - apply (is_monodominated_valid [[[0; 1]; [0; 1]]] 1 2 2); try (unfold INF; lia).
    + apply complete_profile_intro; [done|by_evaluation].
    + intros i j p Hp. unfold holds in Hp.
      destruct i as [|i]; [|discriminate Hp].
      destruct j as [|[|j]]; [| |discriminate Hp]; by injection Hp as <-.
  - apply (is_monodominated_valid [[[0; 1]; [1; 0]]] 1 2 2); try (unfold INF; lia).
    + apply complete_profile_intro; [done|by_evaluation].
    + vm_compute. reflexivity.
    + by exists 0%nat, 1%nat, [1; 0].
Defined.

(** Validity cannot be dropped: [split_dominance] is a complete 1 by 3
    profile over two candidates whose voter (0, 0) holds the identity
    ranking and whose voter (0, 1) ranks candidate 1 first, and
    [is_monodominated] returns [true] on it.  It does not pass
    [grid_valid]. *)
Lemma is_monodominated_split_dominance :
  complete_profile split_dominance 1 3 2
  ∧ holds split_dominance 0 0 (seqZ 0 2)
  ∧ holds split_dominance 0 1 [1; 0]
  ∧ is_monodominated split_dominance = Ret true
  ∧ grid_valid split_dominance 2 = Ret false.
Proof.
  split_and!; [|reflexivity|reflexivity|reflexivity|vm_compute; reflexivity].
  apply complete_profile_intro; [done|by_evaluation].
Qed.


(** ** Crossing counts *)

Lemma pos_NoDup (p : Pref) (c : Z) (i : nat) :
  NoDup p → p !! i = Some c → pos p c = Ret i.
Proof.
  intros Hnodup Hi. apply pos_Ret. split; [done|].
  intros j Hj Hjc. pose proof (NoDup_lookup p i j c Hnodup Hi Hjc). lia.
Qed.

Lemma rank_lookup (p : Pref) (c : Z) (i : nat) :
  NoDup p → p !! i = Some c → rank p c = Z.of_nat i.
Proof. intros Hnodup Hi. unfold rank. by rewrite (pos_NoDup p c i). Qed.

Lemma seqZ_Permutation_NoDup (p : Pref) (C : Z) : p ≡ₚ seqZ 0 C → NoDup p.
Proof. intros ->. apply NoDup_seqZ. Qed.

Lemma seqZ_Permutation_length (p : Pref) (C : Z) : p ≡ₚ seqZ 0 C → length p = Z.to_nat C.
Proof. intros ->. apply length_seqZ. Qed.

Lemma seqZ_Permutation_lookup (p : Pref) (C c : Z) :
  p ≡ₚ seqZ 0 C → 0 ≤ c < C → ∃ i, p !! i = Some c ∧ (i < Z.to_nat C)%nat.
Proof.
  intros Hperm Hc.
  assert (c ∈ p) as (i & Hi)%list_elem_of_lookup by (rewrite Hperm, elem_of_seqZ; lia).
  exists i. split; [done|]. rewrite <- (seqZ_Permutation_length p C Hperm).
  by eapply lookup_lt_Some.
Qed.

Lemma inverse_upto_step (C : Z) (p : Pref) (k : nat) (a : list Z) :
  p ≡ₚ seqZ 0 C → (k < Z.to_nat C)%nat → inverse_upto C p k a →
  ∃ x a', at_ p k = Ret x ∧ store_int a x (Z.of_nat k) = Ret a' ∧ inverse_upto C p (S k) a'.
Proof.
  intros Hperm Hk [Hlen Hinv].
  destruct (lookup_lt_is_Some_2 p k) as [x Hx].
  { by rewrite (seqZ_Permutation_length p C). }
  assert (0 ≤ x < C) as Hrange.
  { assert (x ∈ p) as Hin by (by eapply list_elem_of_lookup_2).
    rewrite Hperm, elem_of_seqZ in Hin. lia. }
  exists x, (<[Z.to_nat x := Z.of_nat k]> a). split_and!.
  - by apply at_Ret.
  - unfold store_int, store. rewrite decide_True by lia. rewrite decide_True by lia. done.
  - split; [by rewrite length_insert|].
    intros i y Hi Hy. destruct (decide (i = k)) as [->|Hne].
    + assert (y = x) as -> by congruence. apply list_lookup_insert_eq. lia.
    + rewrite list_lookup_insert_ne; [apply Hinv; [lia|done]|].
      intros Heq. assert (y = x) as ->.
      { assert (0 ≤ y).
        { assert (y ∈ p) as Hin by (by eapply list_elem_of_lookup_2).
          rewrite Hperm, elem_of_seqZ in Hin. lia. }
        lia. }
      pose proof (NoDup_lookup p i k x (seqZ_Permutation_NoDup p C Hperm) Hy Hx). lia.
Qed.

Lemma inverse_upto_at (C : Z) (p : Pref) (a : list Z) (c : Z) :
  p ≡ₚ seqZ 0 C → inverse_upto C p (Z.to_nat C) a → 0 ≤ c < C →
  at_int a c = Ret (rank p c).
Proof.
  intros Hperm [Hlen Hinv] Hc.
  destruct (seqZ_Permutation_lookup p C c Hperm Hc) as (i & Hi & Hlt).
  unfold at_int. rewrite decide_True by lia. apply at_Ret.
  rewrite (rank_lookup p c i (seqZ_Permutation_NoDup p C Hperm) Hi). by apply Hinv.
Qed.

Lemma int_add_Ret (a b : Z) : 0 ≤ a → 0 ≤ b → a + b ≤ INF → int_add a b = Ret (a + b).
Proof. intros Ha Hb Hab. unfold int_add. rewrite decide_True; [done|]. unfold INF in *. lia. Qed.

(** A loop that adds [f x] for each [x] returns the sum, as long as the sum
    stays in the range of [int]. *)
Lemma for_each_sum {A} (f : A → nat) (l : list A) (body : A → Z → res Z) (s : Z) :
  (∀ x a, x ∈ l → 0 ≤ a → a + Z.of_nat (f x) ≤ INF → body x a = Ret (a + Z.of_nat (f x))) →
  0 ≤ s → s + Z.of_nat (sum_list_with f l) ≤ INF →
  for_each l body s = Ret (s + Z.of_nat (sum_list_with f l)).
Proof.
  revert s. induction l as [|x l IH]; intros s Hbody Hs Hsum; simpl in *.
  - f_equal. lia.
  - rewrite Hbody by (done || lia || left). simpl. rewrite IH.
    + f_equal. lia.
    + intros y a Hy. apply Hbody. by right.
    + lia.
    + lia.
Qed.

(** On permutations of [0..C-1] the function returns the number of pairs
    that the two lists order differently. *)
Lemma cnt_crosses_crossings (p0 p1 : Pref) (C : Z) :
  0 ≤ C → p0 ≡ₚ seqZ 0 C → p1 ≡ₚ seqZ 0 C →
  Z.of_nat (crossings p0 p1 C) ≤ INF →
  cnt_crosses p0 p1 C = Ret (Z.of_nat (crossings p0 p1 C)).
Proof.
  intros HC Hp0 Hp1 Hfits. unfold cnt_crosses. rewrite decide_False by lia.
  destruct (for_each_seq_inv
    (λ k '(a0, a1), inverse_upto C p0 k a0 ∧ inverse_upto C p1 k a1)
    (Z.to_nat C)
    (λ i '(inv_p0, inv_p1),
       x0 ← at_ p0 i; x1 ← at_ p1 i;
       inv_p1' ← store_int inv_p1 x1 (Z.of_nat i);
       inv_p0' ← store_int inv_p0 x0 (Z.of_nat i);
       Ret (inv_p0', inv_p1'))
    (replicate (Z.to_nat C) 0, replicate (Z.to_nat C) 0))
    as ([inv0 inv1] & -> & Hinv0 & Hinv1).
  - split; (split; [apply length_replicate|]; intros i x Hi; lia).
  - intros k [a0 a1] Hk [H0 H1].
    destruct (inverse_upto_step C p0 k a0 Hp0 Hk H0) as (x0 & a0' & -> & Hs0 & H0').
    destruct (inverse_upto_step C p1 k a1 Hp1 Hk H1) as (x1 & a1' & -> & Hs1 & H1').
    simpl. rewrite Hs1. simpl. rewrite Hs0. simpl. by exists (a0', a1').
  - simpl. unfold crossings in *.
    rewrite (for_each_sum (λ c0,
      sum_list_with (λ c1, if crossed p0 p1 c0 c1 then 1%nat else 0%nat)
        (seqZ (c0 + 1) (C - (c0 + 1))))); [done| |done|done].
    intros c0 a Hc0 Ha Hrow. apply for_each_sum; [|done..].
    intros c1 a' Hc1 Ha' Hadd. apply elem_of_seqZ in Hc0, Hc1.
    rewrite !(inverse_upto_at C p0 inv0), !(inverse_upto_at C p1 inv1) by (done || lia).
    simpl. unfold crossed in *.
    destruct (xorb _ _); rewrite int_add_Ret by (done || lia); done.
Qed.

Lemma sum_list_with_le {A} (f g : A → nat) (l : list A) :
  (∀ x, x ∈ l → (f x ≤ g x)%nat) → (sum_list_with f l ≤ sum_list_with g l)%nat.
Proof.
  induction l as [|x l IH]; intros Hle; simpl; [done|].
  pose proof (Hle x ltac:(left)).
  pose proof (IH (λ y Hy, Hle y (list_elem_of_further _ _ _ Hy))). lia.
Qed.

Lemma sum_list_with_ext {A} (f g : A → nat) (l : list A) :
  (∀ x, x ∈ l → f x = g x) → sum_list_with f l = sum_list_with g l.
Proof.
  intros Hext. apply Nat.le_antisymm; apply sum_list_with_le;
    intros x Hx; rewrite (Hext x Hx); done.
Qed.

Lemma sum_list_with_0 {A} (f : A → nat) (l : list A) :
  sum_list_with f l = 0%nat ↔ ∀ x, x ∈ l → f x = 0%nat.
Proof.
  induction l as [|x l IH]; simpl.
  - split; [|done]. intros _ x Hx. by apply elem_of_nil in Hx.
  - rewrite Nat.eq_add_0, IH. split.
    + intros [Hx Hl] y [->|Hy]%elem_of_cons; [done|by apply Hl].
    + intros Hall. split; [apply Hall; left|]. intros y Hy. apply Hall. by right.
Qed.

(** There are [n (n - 1) / 2] pairs [c0 < c1] among [n] consecutive candidates. *)
Lemma sum_pairs (n : nat) (a : Z) :
  2 * Z.of_nat (sum_list_with (λ c0, Z.to_nat (a + Z.of_nat n - (c0 + 1))) (seqZ a (Z.of_nat n)))
  = Z.of_nat n * (Z.of_nat n - 1).
Proof.
  revert a. induction n as [|n IH]; intros a; [done|].
  rewrite seqZ_cons by lia. simpl sum_list_with.
  replace (Z.pred (Z.of_nat (S n))) with (Z.of_nat n) by lia.
  rewrite (sum_list_with_ext _ (λ c0, Z.to_nat (Z.succ a + Z.of_nat n - (c0 + 1)))).
  - specialize (IH (Z.succ a)). lia.
  - intros c0 _. f_equal. lia.
Qed.

Lemma crossings_comm (p0 p1 : Pref) (C : Z) : crossings p0 p1 C = crossings p1 p0 C.
Proof.
  unfold crossings. apply sum_list_with_ext. intros c0 _.
  apply sum_list_with_ext. intros c1 _. unfold crossed. by rewrite xorb_comm.
Qed.

Lemma crossings_0 (p0 p1 : Pref) (C : Z) :
  crossings p0 p1 C = 0%nat ↔ ∀ c0 c1, 0 ≤ c0 → c0 < c1 → c1 < C → crossed p0 p1 c0 c1 = false.
Proof.
  unfold crossings. rewrite sum_list_with_0. split.
  - intros Hzero c0 c1 H0 H01 H1.
    specialize (Hzero c0 ltac:(apply elem_of_seqZ; lia)). simpl in Hzero.
    rewrite sum_list_with_0 in Hzero.
    specialize (Hzero c1 ltac:(apply elem_of_seqZ; lia)). simpl in Hzero.
    by destruct (crossed p0 p1 c0 c1).
  - intros Hnone c0 Hc0. apply sum_list_with_0. intros c1 Hc1.
    apply elem_of_seqZ in Hc0, Hc1. rewrite Hnone by lia. done.
Qed.

Lemma crossings_le (p0 p1 : Pref) (C : Z) :
  0 ≤ C → 2 * Z.of_nat (crossings p0 p1 C) ≤ C * (C - 1).
Proof.
  intros HC. pose proof (sum_pairs (Z.to_nat C) 0) as Hsum.
  rewrite Z2Nat.id in Hsum by done. rewrite <- Hsum.
  apply Z.mul_le_mono_nonneg_l; [lia|]. apply inj_le.
  unfold crossings. apply sum_list_with_le. intros c0 _.
  etrans; [apply (sum_list_with_le _ (λ _, 1%nat)); intros c1 _; simpl; destruct (crossed _ _ _ _); lia|].
  replace (0 + C - (c0 + 1)) with (C - (c0 + 1)) by lia.
  rewrite <- (length_seqZ (c0 + 1)).
  generalize (seqZ (c0 + 1) (C - (c0 + 1))). intros l. induction l; simpl; lia.
Qed.

Lemma crossings_all (p0 p1 : Pref) (C : Z) :
  0 ≤ C →
  (∀ c0 c1, 0 ≤ c0 → c0 < c1 → c1 < C → crossed p0 p1 c0 c1 = true) →
  2 * Z.of_nat (crossings p0 p1 C) = C * (C - 1).
Proof.
  intros HC Hall. pose proof (sum_pairs (Z.to_nat C) 0) as Hsum.
  rewrite Z2Nat.id in Hsum by done. rewrite <- Hsum. do 2 f_equal.
  unfold crossings. apply sum_list_with_ext. intros c0 Hc0.
  rewrite (sum_list_with_ext _ (λ _, 1%nat)).
  - replace (0 + C - (c0 + 1)) with (C - (c0 + 1)) by lia.
    rewrite <- (length_seqZ (c0 + 1)).
    generalize (seqZ (c0 + 1) (C - (c0 + 1))). intros l. induction l; simpl; lia.
  - intros c1 Hc1. apply elem_of_seqZ in Hc0, Hc1. rewrite Hall by lia. done.
Qed.

Lemma rank_elem_of (p : Pref) (c : Z) :
  NoDup p → c ∈ p → ∃ i, p !! i = Some c ∧ rank p c = Z.of_nat i.
Proof.
  intros Hnodup (i & Hi)%list_elem_of_lookup. exists i. split; [done|].
  by apply rank_lookup.
Qed.

Lemma rank_inj (p : Pref) (a b : Z) :
  NoDup p → a ∈ p → b ∈ p → rank p a = rank p b → a = b.
Proof.
  intros Hnodup (i & Hi & ->)%rank_elem_of (j & Hj & ->)%rank_elem_of Heq; [|done..].
  apply Nat2Z.inj in Heq. congruence.
Qed.

Lemma rank_cons_ne (x : Z) (t : Pref) (c : Z) :
  NoDup (x :: t) → c ∈ t → rank (x :: t) c = 1 + rank t c.
Proof.
  intros Hnodup Hc. pose proof Hnodup as [Hx Ht]%NoDup_cons.
  destruct (rank_elem_of t c Ht Hc) as (i & Hi & ->).
  rewrite (rank_lookup (x :: t) c (S i)); [lia|done..].
Qed.

(** Two arrangements of the same distinct candidates that agree on the
    order of every pair are the same list. *)
Lemma same_order_eq (p0 p1 : Pref) :
  NoDup p0 → p0 ≡ₚ p1 →
  (∀ a b, a ∈ p0 → b ∈ p0 → rank p0 a < rank p0 b → rank p1 a < rank p1 b) →
  p0 = p1.
Proof.
  revert p1. induction p0 as [|x t0 IH]; intros p1 Hnodup Hperm Horder.
  - by apply Permutation_nil_l in Hperm.
  - destruct p1 as [|y t1]; [by apply Permutation_nil_r in Hperm|].
    assert (NoDup (y :: t1)) as Hnodup1 by (by rewrite <- Hperm).
    destruct (decide (x = y)) as [<-|Hxy].
    + f_equal. pose proof Hnodup as [Hx Ht0]%NoDup_cons.
      apply Permutation_cons_inv in Hperm.
      apply IH; [done..|]. intros a b Ha Hb Hab.
      specialize (Horder a b ltac:(by right) ltac:(by right)).
      rewrite !(rank_cons_ne x t0) in Horder by done.
      rewrite !(rank_cons_ne x t1) in Horder by (by rewrite <- ?Hperm).
      lia.
    + exfalso.
      assert (y ∈ t0) as Hy.
      { assert (y ∈ x :: t0) as [?|?]%elem_of_cons by (rewrite Hperm; left); done. }
      assert (x ∈ t1) as Hx.
      { assert (x ∈ y :: t1) as [?|?]%elem_of_cons by (rewrite <- Hperm; left); done. }
      specialize (Horder x y ltac:(left) ltac:(by right)).
      rewrite (rank_lookup (x :: t0) x 0), (rank_lookup (y :: t1) y 0) in Horder by done.
      rewrite (rank_cons_ne x t0 y), (rank_cons_ne y t1 x) in Horder by done.
      destruct (rank_elem_of t0 y) as (i & _ & Hi); [by apply NoDup_cons in Hnodup as [_ ?]|done|].
      destruct (rank_elem_of t1 x) as (j & _ & Hj); [by apply NoDup_cons in Hnodup1 as [_ ?]|done|].
      lia.
Qed.

Lemma rank_reverse (p : Pref) (c : Z) :
  NoDup p → c ∈ p → rank (reverse p) c = Z.of_nat (length p) - 1 - rank p c.
Proof.
  intros Hnodup Hc. destruct (rank_elem_of p c Hnodup Hc) as (i & Hi & ->).
  pose proof (lookup_lt_Some _ _ _ Hi) as Hlt.
  rewrite (rank_lookup (reverse p) c (length p - 1 - i)).
  - lia.
  - by rewrite reverse_Permutation.
  - rewrite reverse_lookup by lia. rewrite <- Hi. f_equal. lia.
Qed.

(** C6: on permutations [p0], [p1] of [0..C-1] (with [C (C - 1) / 2]
    in the range of [int]), [cnt_crosses] returns the same count whichever
    list comes first; the count is 0 exactly when the lists are equal; it
    is at most [C (C - 1) / 2], and it is that for a list and its
    reversal. *)
Theorem cnt_crosses_laws (p0 p1 : Pref) (C : Z) :
  0 ≤ C → C * (C - 1) / 2 ≤ INF → p0 ≡ₚ seqZ 0 C → p1 ≡ₚ seqZ 0 C →
  ∃ n, cnt_crosses p0 p1 C = Ret n
       ∧ cnt_crosses p1 p0 C = Ret n
       ∧ (n = 0 ↔ p0 = p1)
       ∧ 0 ≤ n ≤ C * (C - 1) / 2
       ∧ cnt_crosses p0 (reverse p0) C = Ret (C * (C - 1) / 2).
Proof.
  intros HC Hmax Hp0 Hp1.
  assert (∀ q0 q1, Z.of_nat (crossings q0 q1 C) ≤ INF) as Hfits.
  { intros q0 q1. pose proof (crossings_le q0 q1 C HC).
    etrans; [|exact Hmax]. apply Z.div_le_lower_bound; lia. }
  pose proof (seqZ_Permutation_NoDup p0 C Hp0) as Hnodup0.
  pose proof (seqZ_Permutation_NoDup p1 C Hp1) as Hnodup1.
  assert (∀ c, 0 ≤ c < C → c ∈ p0 ∧ c ∈ p1) as Hin.
  { intros c Hc. rewrite Hp0, Hp1, elem_of_seqZ. lia. }
  exists (Z.of_nat (crossings p0 p1 C)). split_and!.
  - by apply cnt_crosses_crossings.
  - rewrite crossings_comm. by apply cnt_crosses_crossings.
  - split.
    + intros Hzero. assert (crossings p0 p1 C = 0%nat) as Hnone by lia.
      rewrite crossings_0 in Hnone.
      apply same_order_eq; [done|by rewrite Hp0, Hp1|].
      intros a b Ha Hb Hab. rewrite Hp0, elem_of_seqZ in Ha, Hb.
      destruct (Hin a ltac:(lia)) as [Ha0 Ha1]. destruct (Hin b ltac:(lia)) as [Hb0 Hb1].
      destruct (Z.lt_trichotomy a b) as [Hlt|[->|Hgt]]; [|lia|].
      * specialize (Hnone a b ltac:(lia) Hlt ltac:(lia)). unfold crossed in Hnone.
        rewrite (bool_decide_eq_true_2 _ Hab) in Hnone. simpl in Hnone.
        apply negb_false_iff in Hnone. by apply bool_decide_eq_true in Hnone.
      * specialize (Hnone b a ltac:(lia) Hgt ltac:(lia)). unfold crossed in Hnone.
        rewrite (bool_decide_eq_false_2 (rank p0 b < rank p0 a)) in Hnone by lia.
        simpl in Hnone. apply bool_decide_eq_false in Hnone.
        assert (rank p1 a ≠ rank p1 b); [|lia].
        intros Heq. apply (rank_inj p1 a b Hnodup1 Ha1 Hb1) in Heq. lia.
    + intros <-. assert (crossings p0 p0 C = 0%nat) as ->; [|done].
      apply crossings_0. intros c0 c1 _ _ _.
      unfold crossed. apply xorb_nilpotent.
  - lia.
  - pose proof (crossings_le p0 p1 C HC). apply Z.div_le_lower_bound; lia.
  - assert (reverse p0 ≡ₚ seqZ 0 C) as Hrev by (by rewrite reverse_Permutation).
    rewrite (cnt_crosses_crossings p0 (reverse p0) C) by done. f_equal.
    assert (2 * Z.of_nat (crossings p0 (reverse p0) C) = C * (C - 1)) as Hall; [|].
    { apply crossings_all; [done|]. intros c0 c1 H0 H01 H1. unfold crossed.
      destruct (Hin c0 ltac:(lia)) as [Hc0 _]. destruct (Hin c1 ltac:(lia)) as [Hc1 _].
      rewrite !rank_reverse by done.
      assert (rank p0 c0 ≠ rank p0 c1).
      { intros Heq. apply (rank_inj p0 c0 c1 Hnodup0 Hc0 Hc1) in Heq. lia. }
      destruct (decide (rank p0 c0 < rank p0 c1)).
      - rewrite bool_decide_eq_true_2, bool_decide_eq_false_2 by lia. done.
      - rewrite bool_decide_eq_false_2, bool_decide_eq_true_2 by lia. done. }
    rewrite <- Hall. rewrite Z.mul_comm, Z.div_mul by lia. done.
Qed.

Example cnt_crosses_laws_example :
  ∃ n, cnt_crosses [0; 2; 1] [1; 0; 2] 3 = Ret n
       ∧ cnt_crosses [1; 0; 2] [0; 2; 1] 3 = Ret n
       ∧ (n = 0 ↔ [0; 2; 1] = [1; 0; 2])
       ∧ 0 ≤ n ≤ 3 * (3 - 1) / 2
       ∧ cnt_crosses [0; 2; 1] (reverse [0; 2; 1]) 3 = Ret (3 * (3 - 1) / 2).
Proof.
  apply (cnt_crosses_laws [0; 2; 1] [1; 0; 2] 3); [lia|by_evaluation|..];
    by_evaluation.
Defined.

(** ** The enumeration of permutations *)

Lemma swap_first_greater_None (x : Z) (s : list Z) :
  swap_first_greater x s = None → Forall (λ z, ¬ x < z) s.
Proof.
  induction s as [|y s IH]; simpl; [by constructor|].
  case_decide; [done|]. destruct (swap_first_greater x s) as [[z s'']|]; [done|].
  intros _. constructor; [done|by apply IH].
Qed.

Lemma swap_first_greater_Some (x : Z) (s : list Z) (y : Z) (s' : list Z) :
  swap_first_greater x s = Some (y, s') →
  ∃ l1 l2, s = l1 ++ y :: l2 ∧ s' = l1 ++ x :: l2 ∧ Forall (λ z, ¬ x < z) l1 ∧ x < y.
Proof.
  revert s'. induction s as [|z s IH]; intros s'; simpl; [done|].
  case_decide as Hz.
  - intros [= <- <-]. exists [], s. split_and!; (done || by constructor).
  - destruct (swap_first_greater x s) as [[y' s'']|]; [|done].
    intros [= -> <-]. destruct (IH s'' eq_refl) as (l1 & l2 & -> & -> & Hl1 & Hy).
    exists (z :: l1), l2. split_and!; try done. by constructor.
Qed.

(** Exchanging the head with the first greater element of an ascending
    tail: the tail stays ascending, the elements are the same, and one fewer
    element is greater than the new head. *)
Lemma swap_first_greater_sorted (x : Z) (t : list Z) (y : Z) (t' : list Z) :
  StronglySorted Z.lt t → x ∉ t → swap_first_greater x t = Some (y, t') →
  StronglySorted Z.lt t' ∧ (y ∉ t') ∧ (y :: t' ≡ₚ x :: t) ∧ x < y
  ∧ (∀ z, z ∈ t → x < z → y ≤ z)
  ∧ greater_count x t = S (greater_count y t').
Proof.
  intros Hsorted Hx (l1 & l2 & -> & -> & Hl1 & Hxy)%swap_first_greater_Some.
  apply StronglySorted_app in Hsorted as (H12 & Hs1 & Hs2).
  apply StronglySorted_cons in Hs2 as [Hyl2 Hs2].
  rewrite Forall_forall in Hl1, Hyl2.
  assert (∀ z, z ∈ l1 → z < x) as Hlt1.
  { intros z Hz. assert (z ≠ x); [|specialize (Hl1 z Hz); lia].
    intros ->. apply Hx. apply elem_of_app. by left. }
  assert (∀ z, z ∈ l2 → y < z) as Hlt2 by done.
  assert (∀ a (l : list Z), (∀ z, z ∈ l → z < a) → filter (λ z, a < z) l = []) as Hnone.
  { intros a l Ha. induction l as [|z l IH]; [done|].
    rewrite filter_cons, decide_False; [|specialize (Ha z ltac:(left)); lia].
    apply IH. intros w Hw. apply Ha. by right. }
  assert (∀ a (l : list Z), (∀ z, z ∈ l → a < z) → filter (λ z, a < z) l = l) as Hall.
  { intros a l Ha. induction l as [|z l IH]; [done|].
    rewrite filter_cons, decide_True by (apply Ha; left).
    f_equal. apply IH. intros w Hw. apply Ha. by right. }
  split_and!.
  - apply StronglySorted_app. split_and!; [|done|].
    + intros z1 z2 Hz1 [->|Hz2]%elem_of_cons; [by apply Hlt1|].
      specialize (Hlt1 z1 Hz1). specialize (Hlt2 z2 Hz2). lia.
    + apply StronglySorted_cons. split; [|done].
      apply Forall_forall. intros z Hz. specialize (Hlt2 z Hz). lia.
  - rewrite elem_of_app, elem_of_cons. intros [Hy|[->|Hy]]; [|lia|].
    + specialize (Hlt1 y Hy). lia.
    + specialize (Hlt2 y Hy). lia.
  - rewrite <- !Permutation_middle. apply perm_swap.
  - done.
  - intros z [Hz|[->|Hz]%elem_of_cons]%elem_of_app Hxz; [|lia|].
    + specialize (Hlt1 z Hz). lia.
    + specialize (Hlt2 z Hz). lia.
  - unfold greater_count. rewrite !filter_app, !filter_cons.
    rewrite decide_True by done. rewrite decide_False by lia.
    rewrite !length_app. simpl.
    rewrite (Hnone x l1) by done.
    rewrite (Hnone y l1) by (intros z Hz; specialize (Hlt1 z Hz); lia).
    rewrite (Hall y l2) by done.
    rewrite (Hall x l2) by (intros z Hz; specialize (Hlt2 z Hz); lia).
    done.
Qed.

Lemma enumerates_cons (x : Z) (q : list Z) (L : list (list Z)) (e : list Z) :
  enumerates q L e →
  ∀ L' e',
    match swap_first_greater x e with
    | Some (y, t) => enumerates (y :: t) L' e'
    | None => L' = [] ∧ e' = e ++ [x]
    end →
    enumerates (x :: q) (((x ::.) <$> L) ++ L') e'.
Proof.
  induction 1 as [p e Hlast|p p' L e Hnext _ IH]; intros L' e' Hrest; simpl.
  - destruct (swap_first_greater x e) as [[y t]|] eqn:Hswap.
    + apply enumerates_next with (y :: t); [|done].
      simpl. by rewrite Hlast, Hswap.
    + destruct Hrest as [-> ->]. apply enumerates_last.
      simpl. by rewrite Hlast, Hswap.
  - apply enumerates_next with (x :: p'); [|by apply IH].
    simpl. by rewrite Hnext.
Qed.

Lemma greater_count_0 (x : Z) (t : list Z) :
  Forall (λ z, ¬ x < z) t → greater_count x t = 0%nat.
Proof.
  unfold greater_count. induction 1 as [|z t Hz _ IH]; [done|].
  by rewrite filter_cons, decide_False.
Qed.

Lemma greater_count_all (x : Z) (t : list Z) :
  Forall (Z.lt x) t → greater_count x t = length t.
Proof.
  unfold greater_count. induction 1 as [|z t Hz _ IH]; [done|].
  rewrite filter_cons, decide_True by done. simpl. by rewrite IH.
Qed.

(** From [x :: t] with [t] ascending the enumerator visits exactly the
    arrangements of [x :: t] whose head is at least [x], provided it
    enumerates the arrangements of every ascending list as long as [t]. *)
Lemma enumerates_tail (n : nat) :
  (∀ t, StronglySorted Z.lt t → length t = n →
        ∃ Lt, enumerates t Lt t ∧ all_arrangements t Lt) →
  ∀ k x t,
    StronglySorted Z.lt t → length t = n → x ∉ t → greater_count x t = k →
    ∃ L e, enumerates (x :: t) L e
           ∧ StronglySorted Z.lt e ∧ e ≡ₚ x :: t
           ∧ NoDup L
           ∧ (∀ q, q ∈ L ↔ q ≡ₚ x :: t ∧ ∃ h q', q = h :: q' ∧ x ≤ h)
           ∧ length L = (S k * fact n)%nat.
Proof.
  intros IHn k. induction k as [|k IHk]; intros x t Hsorted Hlen Hx Hk;
    destruct (IHn t Hsorted Hlen) as (Lt & Henum & Hnodup & Hmem & HlenL);
    assert (Inj (=) (=) (cons x : list Z → list Z)) as Hinj by (by intros ?? [=]);
    assert (∀ q, q ∈ (x ::.) <$> Lt → q ≡ₚ x :: t ∧ ∃ h q', q = h :: q' ∧ x ≤ h) as Hhead
      by (intros q (q' & -> & Hq')%list_elem_of_fmap; split;
          [by apply Permutation_skip, Hmem|exists x, q'; split; [done|lia]]);
    assert (∀ q', x :: q' ≡ₚ x :: t → x :: q' ∈ (x ::.) <$> Lt) as Hback
      by (intros q' Hq'%Permutation_cons_inv; apply list_elem_of_fmap_2; by apply Hmem);
    destruct (swap_first_greater x t) as [[y t']|] eqn:Hswap.
  - apply swap_first_greater_sorted in Hswap as (_ & _ & _ & _ & _ & Hcount); [lia|done..].
  - pose proof (swap_first_greater_None x t Hswap) as Hnone.
    rewrite Forall_forall in Hnone.
    exists ((x ::.) <$> Lt), (t ++ [x]). split_and!.
    + rewrite <- (app_nil_r (_ <$> _)). apply enumerates_cons with t; [done|].
      by rewrite Hswap.
    + apply StronglySorted_app. split_and!; [|done|repeat constructor].
      intros z1 z2 Hz1 ->%list_elem_of_singleton.
      specialize (Hnone z1 Hz1). assert (z1 ≠ x) by (by intros ->). lia.
    + by rewrite Permutation_app_comm.
    + by apply NoDup_fmap_2.
    + intros q. split; [apply Hhead|].
      intros (Hperm & h & q' & -> & Hh).
      assert (h ∈ x :: t) as [->|Hin]%elem_of_cons by (rewrite <- Hperm; left).
      * by apply Hback.
      * specialize (Hnone h Hin). assert (h = x) as -> by lia. done.
    + rewrite length_fmap, HlenL, Hlen. lia.
  - pose proof (swap_first_greater_sorted x t y t' Hsorted Hx Hswap)
      as (Hsorted' & Hy & Hperm & Hxy & Hmin & Hcount).
    assert (length t' = n) as Hlen'.
    { apply Permutation_length in Hperm. simpl in Hperm. lia. }
    destruct (IHk y t' Hsorted' Hlen' Hy ltac:(lia))
      as (L' & e' & Henum' & Hsorted_e & Hperm_e & Hnodup' & Hmem' & HlenL').
    exists (((x ::.) <$> Lt) ++ L'), e'. split_and!.
    + apply enumerates_cons with t; [done|]. by rewrite Hswap.
    + done.
    + by rewrite Hperm_e.
    + apply NoDup_app. split_and!; [by apply NoDup_fmap_2| |done].
      intros q (q' & -> & _)%list_elem_of_fmap (_ & h & q'' & [= <- <-] & Hh)%Hmem'. lia.
    + intros q. rewrite elem_of_app. split.
      * intros [Hq|(Hq & h & q' & -> & Hh)%Hmem']; [by apply Hhead|].
        split; [by rewrite Hq|]. exists h, q'. split; [done|lia].
      * intros (Hperm' & h & q' & -> & Hh).
        assert (h ∈ x :: t) as [->|Hin]%elem_of_cons by (rewrite <- Hperm'; left).
        -- left. by apply Hback.
        -- right. apply Hmem'. split; [by rewrite Hperm|].
           exists h, q'. split; [done|].
           apply Hmin; [done|]. assert (h ≠ x) by (by intros ->). lia.
    + rewrite length_app, length_fmap, HlenL, HlenL', Hlen. lia.
  - apply swap_first_greater_None in Hswap. apply greater_count_0 in Hswap. lia.
Qed.

(** Started on an ascending list, the enumerator visits every arrangement
    of it exactly once and ends by restoring the ascending list. *)
Lemma enumerates_sorted (s : list Z) :
  StronglySorted Z.lt s → ∃ L, enumerates s L s ∧ all_arrangements s L.
Proof.
  remember (length s) as n eqn:Hn. revert s Hn.
  induction n as [|n IH]; intros s Hn Hsorted.
  - destruct s; [|done]. exists [[]]. split; [by apply enumerates_last|].
    split_and!.
    + apply NoDup_singleton.
    + intros q. rewrite list_elem_of_singleton. split; [by intros ->|].
      intros Hq. symmetry. by apply Permutation_nil_l.
    + done.
  - destruct s as [|x t]; [done|]. simpl in Hn. injection Hn as Hn.
    apply StronglySorted_cons in Hsorted as [Hxt Hsorted].
    assert (x ∉ t) as Hx.
    { intros Hin. rewrite Forall_forall in Hxt. specialize (Hxt x Hin). lia. }
    destruct (enumerates_tail n (λ t' Ht' Hlen, IH t' (eq_sym Hlen) Ht')
                (length t) x t Hsorted (eq_sym Hn) Hx (greater_count_all x t Hxt))
      as (L & e & Henum & Hsorted_e & Hperm_e & Hnodup & Hmem & Hlen).
    assert (e = x :: t) as ->.
    { apply (StronglySorted_unique_strong Z.lt e (x :: t)); [|done| |done].
      - intros a b _ _ Hab Hba. lia.
      - by apply StronglySorted_cons. }
    exists L. split; [done|]. split_and!; [done| |].
    + intros q. rewrite Hmem. split; [by intros [? _]|].
      intros Hq. split; [done|].
      destruct q as [|h q']; [by apply Permutation_nil_l in Hq|].
      exists h, q'. split; [done|].
      assert (h ∈ x :: t) as [->|Hin]%elem_of_cons by (rewrite <- Hq; left); [lia|].
      rewrite Forall_forall in Hxt. specialize (Hxt h Hin). lia.
    + rewrite Hlen. simpl. rewrite <- Hn. lia.
Qed.

Lemma seqZ_sorted (m n : Z) : StronglySorted Z.lt (seqZ m n).
Proof.
  destruct (decide (0 ≤ n)) as [Hn|Hn]; [|rewrite seqZ_nil by lia; constructor].
  rewrite <- (Z2Nat.id n Hn). generalize (Z.to_nat n). clear. intros k.
  revert m. induction k as [|k IH]; intros m; [constructor|].
  rewrite seqZ_cons by lia. apply StronglySorted_cons. split.
  - apply Forall_forall. intros z Hz%elem_of_seqZ. lia.
  - replace (Z.pred (Z.of_nat (S k))) with (Z.of_nat k) by lia. apply IH.
Qed.

(** The loop of [backtr] at a free cell starts from [iota] and therefore
    visits each of the [C!] permutations of [0..C-1] exactly once. *)
Lemma enumerates_iota (C : Z) :
  ∃ L, enumerates (seqZ 0 C) L (seqZ 0 C)
       ∧ NoDup L ∧ (∀ p, p ∈ L ↔ p ≡ₚ seqZ 0 C) ∧ length L = fact (Z.to_nat C).
Proof.
  destruct (enumerates_sorted (seqZ 0 C) (seqZ_sorted 0 C)) as (L & Henum & Hnodup & Hmem & Hlen).
  exists L. by rewrite length_seqZ in Hlen.
Qed.

Lemma swap_first_greater_Permutation (x : Z) (s : list Z) (y : Z) (s' : list Z) :
  swap_first_greater x s = Some (y, s') → y :: s' ≡ₚ x :: s.
Proof.
  intros (l1 & l2 & -> & -> & _)%swap_first_greater_Some.
  rewrite <- !Permutation_middle. apply perm_swap.
Qed.

Lemma next_permutation_Permutation (p : list Z) : (next_permutation p).2 ≡ₚ p.
Proof.
  induction p as [|x t IH]; simpl; [done|].
  destruct (next_permutation t) as [[] t']; simpl in *.
  - by rewrite IH.
  - destruct (swap_first_greater x t') as [[y t'']|] eqn:Hswap; simpl.
    + rewrite (swap_first_greater_Permutation _ _ _ _ Hswap). by rewrite IH.
    + rewrite <- Permutation_cons_append. by rewrite IH.
Qed.

(** ** The contract of [std::next_permutation] *)

Lemma sorted_lex_least (s r : list Z) :
  StronglySorted Z.le s → r ≡ₚ s → r = s ∨ lex_lt s r.
Proof.
  intros Hsorted. revert r. induction Hsorted as [|a s _ IH Ha]; intros r Hperm.
  - left. by apply Permutation_nil_r.
  - destruct r as [|h k]; [by apply Permutation_nil_l in Hperm|].
    assert (a ≤ h) as Hah.
    { assert (h ∈ a :: s) as [->|Hin]%elem_of_cons by (rewrite <- Hperm; left); [lia|].
      rewrite Forall_forall in Ha. by apply Ha. }
    destruct (decide (a = h)) as [->|Hne].
    + apply Permutation_cons_inv in Hperm.
      destruct (IH k Hperm) as [->|Hlt]; [by left|right; by constructor].
    + right. constructor. lia.
Qed.

Lemma swap_first_greater_le_sorted (x : Z) (t : list Z) (y : Z) (t' : list Z) :
  StronglySorted Z.le t → swap_first_greater x t = Some (y, t') →
  StronglySorted Z.le t' ∧ (∀ z, z ∈ t → x < z → y ≤ z).
Proof.
  intros Hsorted (l1 & l2 & -> & -> & Hl1 & Hxy)%swap_first_greater_Some.
  apply StronglySorted_app in Hsorted as (H12 & Hs1 & Hs2).
  apply StronglySorted_cons in Hs2 as [Hyl2 Hs2].
  rewrite Forall_forall in Hl1, Hyl2. split.
  - apply StronglySorted_app. split_and!; [|done|].
    + intros z1 z2 Hz1 [->|Hz2]%elem_of_cons; [specialize (Hl1 z1 Hz1); lia|].
      apply H12; [done|by right].
    + apply StronglySorted_cons. split; [|done].
      apply Forall_forall. intros z Hz. specialize (Hyl2 z Hz). lia.
  - intros z [Hz|[->|Hz]%elem_of_cons]%elem_of_app Hxz; [|lia|by apply Hyl2].
    specialize (Hl1 z Hz). lia.
Qed.

(** The model meets the contract of the library function: when it returns
    [true] the new arrangement is the least one above the old in the
    lexicographic order; when it returns [false] the old arrangement was
    the last and the new one is sorted. *)
Lemma next_permutation_successor (p : list Z) :
  (next_permutation p).2 ≡ₚ p
  ∧ if (next_permutation p).1
    then lex_lt p (next_permutation p).2
         ∧ ∀ r, r ≡ₚ p → lex_lt p r → r = (next_permutation p).2 ∨ lex_lt (next_permutation p).2 r
    else StronglySorted Z.le (next_permutation p).2
         ∧ p = reverse (next_permutation p).2
         ∧ ∀ r, r ≡ₚ p → ¬ lex_lt p r.
Proof.
  induction p as [|x t IH]; simpl.
  - split; [done|]. split_and!; [constructor|done|].
    intros r ->%Permutation_nil_r. inversion 1.
  - destruct (next_permutation t) as [[] t'] eqn:Ht; simpl in *;
      destruct IH as [Hperm IH].
    + destruct IH as [Hlt Hleast]. split; [by rewrite Hperm|]. split; [by constructor|].
      intros r Hr Hxr. inversion Hxr as [|? h ? k Hxh|? ? k Htk]; subst.
      * right. by constructor.
      * apply Permutation_cons_inv in Hr.
        destruct (Hleast k Hr Htk) as [->|Hlt']; [by left|right; by constructor].
    + destruct IH as (Hsorted & -> & Hlast). clear Hperm.
      destruct (swap_first_greater x t') as [[y t'']|] eqn:Hswap; simpl.
      * pose proof (swap_first_greater_Permutation _ _ _ _ Hswap) as Hperm'.
        destruct (swap_first_greater_le_sorted _ _ _ _ Hsorted Hswap) as [Hsorted' Hmin].
        apply swap_first_greater_Some in Hswap as (_ & _ & _ & _ & _ & Hxy).
        split; [by rewrite Hperm', reverse_Permutation|]. split; [by constructor|].
        intros r Hr Hxr. inversion Hxr as [|? h ? k Hxh|? ? k Htk]; subst;
          [|by destruct (Hlast k (Permutation_cons_inv Hr))].
        assert (h ∈ t') as Hin.
        { assert (h ∈ x :: reverse t') as [->|Hin]%elem_of_cons
            by (rewrite <- Hr; left); [lia|]. by rewrite elem_of_reverse in Hin. }
        specialize (Hmin h Hin Hxh).
        destruct (decide (y = h)) as [->|Hne]; [|right; constructor; lia].
        assert (k ≡ₚ t'') as Hk.
        { apply (Permutation_cons_inv (a := h)).
          by rewrite Hr, Hperm', reverse_Permutation. }
        destruct (sorted_lex_least t'' k Hsorted' Hk) as [->|Hlt'];
          [by left|right; by constructor].
      * pose proof (swap_first_greater_None x t' Hswap) as Hnone.
        rewrite Forall_forall in Hnone.
        split; [by rewrite <- Permutation_cons_append, reverse_Permutation|]. split_and!.
        -- apply StronglySorted_app. split_and!; [|done|repeat constructor].
           intros z1 z2 Hz1 ->%list_elem_of_singleton. specialize (Hnone z1 Hz1). lia.
        -- by rewrite reverse_snoc.
        -- intros r Hr Hxr. inversion Hxr as [|? h ? k Hxh|? ? k Htk]; subst;
             [|by destruct (Hlast k (Permutation_cons_inv Hr))].
           assert (h ∈ x :: reverse t') as [->|Hin]%elem_of_cons
             by (rewrite <- Hr; left); [lia|].
           rewrite elem_of_reverse in Hin. by destruct (Hnone h Hin).
Qed.

(** ** The driver, one step at a time *)

(** The two recursive functions of the driver, one step unfolded, with
    the trace and the result of each path spelled out. *)
Lemma perm_loop_unfold (fuel : nat) (body : Grid → run Grid) (r c : nat) (g : Grid) :
  perm_loop (S fuel) body r c g =
  let m := body g in
  match result m with
  | Done g1 =>
      if bool_decide (r = 0%nat ∧ c = 0%nat) then Run (trace m) (Done g1)
      else match cell g1 r c with
           | Raise e => Run (trace m) (Failed e)
           | Ret p =>
               match set_cell g1 r c (next_permutation p).2 with
               | Raise e => Run (trace m) (Failed e)
               | Ret g2 =>
                   if (next_permutation p).1
                   then let m' := perm_loop fuel body r c g2 in
                        Run (trace m ++ trace m') (result m')
                   else Run (trace m) (Done g2)
               end
           end
  | o => Run (trace m) (outcome_bind o Done)
  end.
Proof.
  simpl. unfold mbind, run_bind, lift, mret, run_ret.
  destruct (body g) as [t [g1|e|shown|]]; simpl; [|done..].
  case_bool_decide; simpl; [by rewrite app_nil_r|].
  destruct (cell g1 r c) as [p|e]; simpl; [|by rewrite app_nil_r].
  destruct (next_permutation p) as [more p']. simpl.
  destruct (set_cell g1 r c p') as [g2|e]; simpl; [|by rewrite !app_nil_r].
  destruct more; simpl; [|by rewrite !app_nil_r].
  by destruct (result (perm_loop fuel body r c g2)).
Qed.

Lemma backtr_unfold (fuel : nat) (g : Grid) (C : Z) (r c : nat) :
  backtr (S fuel) g C r c =
  match dims g with
  | Raise e => Run [Enter g r c] (Failed e)
  | Ret (N, M) =>
      match grid_valid g C with
      | Raise e => Run [Enter g r c] (Failed e)
      | Ret false => Run [Enter g r c] (Done g)
      | Ret true =>
          if bool_decide (r = N) then
            Run [Enter g r c; Leaf g]
              match admits_split_line g C with
              | Raise e => Failed e
              | Ret true => Done g
              | Ret false =>
                  match is_monodominated g with
                  | Raise e => Failed e
                  | Ret true => Done g
                  | Ret false => Exited g
                  end
              end
          else if bool_decide (c = M) then
            let m := backtr fuel g C (r + 1) 0 in
            Run (Enter g r c :: trace m) (result m)
          else
            match cell g r c with
            | Raise e => Run [Enter g r c] (Failed e)
            | Ret _ =>
                match iota C with
                | Raise e => Run [Enter g r c] (Failed e)
                | Ret p =>
                    match set_cell g r c p with
                    | Raise e => Run [Enter g r c] (Failed e)
                    | Ret g1 =>
                        let m := perm_loop fuel (λ g', backtr fuel g' C r (c + 1)) r c g1 in
                        Run (Enter g r c :: trace m)
                          (outcome_bind (result m) (λ g2, of_res (set_cell g2 r c EmptyProf)))
                    end
                end
            end
      end
  end.
Proof.
  simpl. unfold mbind, run_bind, lift, mret, run_ret, emit, stop. simpl.
  destruct (dims g) as [[N M]|e]; simpl; [|done].
  destruct (grid_valid g C) as [[]|e]; simpl; [|done..].
  case_bool_decide; simpl.
  { destruct (admits_split_line g C) as [[]|e]; simpl; [done| |done].
    by destruct (is_monodominated g) as [[]|e]. }
  case_bool_decide; simpl.
  { by destruct (result (backtr fuel g C (r + 1) 0)). }
  destruct (cell g r c) as [p0|e]; simpl; [|done].
  destruct (iota C) as [p|e]; simpl; [|done].
  destruct (set_cell g r c p) as [g1|e]; simpl; [|done].
  destruct (result (perm_loop fuel _ r c g1)) as [g2|e|shown|]; simpl;
    [|by rewrite ?app_nil_r..].
  destruct (set_cell g2 r c EmptyProf); by rewrite ?app_nil_r.
Qed.

(** ** Cells and cursors *)

Lemma set_cell_set_cell (g g1 g2 : Grid) (i j : nat) (p q : Pref) :
  set_cell g i j p = Ret g1 → set_cell g1 i j q = Ret g2 → set_cell g i j q = Ret g2.
Proof.
  intros (row & Hrow & Hj & ->)%set_cell_Ret (row' & Hrow' & Hj' & ->)%set_cell_Ret.
  rewrite list_lookup_insert_eq in Hrow' by (by eapply lookup_lt_Some).
  injection Hrow' as <-. apply set_cell_Ret. exists row. split_and!; [done..|].
  by rewrite list_insert_insert_eq, list_insert_insert_eq.
Qed.

Lemma set_cell_holds (g : Grid) (i j : nat) (p : Pref) :
  holds g i j p → set_cell g i j p = Ret g.
Proof.
  intros (row & Hrow & Hp)%cell_Ret. apply set_cell_Ret. exists row.
  split_and!; [done|by eapply lookup_lt_Some|].
  by rewrite (list_insert_id row j p), list_insert_id.
Qed.

Lemma set_cell_holds_eq (g g' : Grid) (i j : nat) (p : Pref) :
  set_cell g i j p = Ret g' → holds g' i j p.
Proof.
  intros Hset. unfold holds. rewrite (set_cell_cell _ _ _ _ _ i j Hset).
  by rewrite decide_True.
Qed.

Lemma set_cell_grid_shape (g g' : Grid) (N M i j : nat) (p : Pref) :
  grid_shape g N M → set_cell g i j p = Ret g' → grid_shape g' N M.
Proof.
  intros [HN Hrows] (row & Hrow & Hj & ->)%set_cell_Ret. split.
  - by rewrite length_insert.
  - apply Forall_insert; [done|]. rewrite length_insert.
    rewrite Forall_lookup in Hrows. by apply (Hrows i).
Qed.

Lemma dims_grid_shape (g : Grid) (N M N' M' : nat) :
  grid_shape g N M → dims g = Ret (N', M') → N' = N ∧ M' = M ∧ (0 < N)%nat ∧ (0 < M)%nat.
Proof.
  intros [HN Hrows]. destruct g as [|row0 g]; [done|].
  apply Forall_cons in Hrows as [Hrow0 _]. simpl in *.
  destruct row0; [done|]. intros [= <- <-]. simpl in *. lia.
Qed.

Lemma iota_Ret (C : Z) (p : Pref) : iota C = Ret p → p = seqZ 0 C.
Proof. unfold iota. case_decide; congruence. Qed.

Lemma unassigned_from_next_row (g : Grid) (r c : nat) :
  unassigned_from g r c → unassigned_from g (r + 1) 0.
Proof.
  intros Hg i j p Hp Hnot. apply (Hg i j p Hp). unfold before in *. lia.
Qed.

Lemma unassigned_from_set_cell (g g' : Grid) (r c : nat) (p : Pref) :
  unassigned_from g r (c + 1) → set_cell g r c p = Ret g' → unassigned_from g' r (c + 1).
Proof.
  intros Hg Hset i j q Hq Hnot. unfold holds in Hq.
  rewrite (set_cell_cell _ _ _ _ _ i j Hset) in Hq.
  case_decide as Hij; [unfold before in Hnot; lia|]. by apply (Hg i j q).
Qed.

Lemma unassigned_from_next_col (g : Grid) (r c : nat) :
  unassigned_from g r c → unassigned_from g r (c + 1).
Proof.
  intros Hg i j p Hp Hnot. apply (Hg i j p Hp). unfold before in *. lia.
Qed.

(** Assigning the cell under the cursor a permutation (the identity at
    [(0, 0)]) moves the search to the next column. *)
Lemma search_inv_assign (N M : nat) (C : Z) (g g' : Grid) (r c : nat) (p : Pref) :
  grid_shape g N M → (r < N)%nat → (c < M)%nat →
  (∀ i j q, holds g i j q → before i j r c → q ≡ₚ seqZ 0 C) →
  (∀ q, holds g 0 0 q → before 0 0 r c → q = seqZ 0 C) →
  unassigned_from g r (c + 1) →
  set_cell g r c p = Ret g' →
  p ≡ₚ seqZ 0 C → (r = 0%nat ∧ c = 0%nat → p = seqZ 0 C) →
  search_inv N M C g' r (c + 1).
Proof.
  intros Hshape Hr Hc Hperm Hid Hun Hset Hp Hp0.
  assert (∀ i j q, holds g' i j q →
            (i = r ∧ j = c) ∧ q = p ∨ ¬ (i = r ∧ j = c) ∧ holds g i j q) as Hcases.
  { intros i j q Hq. unfold holds in *.
    rewrite (set_cell_cell _ _ _ _ _ i j Hset) in Hq.
    case_decide; [left; split; [done|congruence]|by right]. }
  split_and!.
  - by eapply set_cell_grid_shape.
  - left. lia.
  - intros i j q [[[-> ->] ->]|[Hne Hq]]%Hcases Hbefore; [done|].
    apply (Hperm i j q Hq). unfold before in *. lia.
  - intros q [[[Hr0 Hc0] ->]|[Hne Hq]]%Hcases Hbefore; [by apply Hp0|].
    apply (Hid q Hq). unfold before in *. lia.
  - by eapply unassigned_from_set_cell.
Qed.

Lemma search_inv_next_row (N M : nat) (C : Z) (g : Grid) (r : nat) :
  (r < N)%nat → search_inv N M C g r M → search_inv N M C g (r + 1) 0.
Proof.
  intros Hr (Hshape & Hpos & Hperm & Hid & Hun).
  assert (∀ i j q, holds g i j q → before i j (r + 1) 0 → before i j r M) as Hbefore.
  { intros i j q Hq Hb. destruct (grid_shape_holds_lt g N M i j q Hshape Hq).
    unfold before in *. lia. }
  split_and!; [done|lia| | |by apply (unassigned_from_next_row g r M)].
  - intros i j q Hq Hb. apply (Hperm i j q Hq). by apply (Hbefore i j q).
  - intros q Hq Hb. apply (Hid q Hq). by apply (Hbefore 0%nat 0%nat q).
Qed.

Lemma search_inv_leaf (N M : nat) (C : Z) (g : Grid) (c : nat) :
  search_inv N M C g N c → complete_profile g N M C.
Proof.
  intros (Hshape & _ & Hperm & _). split; [done|].
  intros i j p Hp. apply (Hperm i j p Hp).
  destruct (grid_shape_holds_lt g N M i j p Hshape Hp). unfold before. lia.
Qed.

Lemma search_inv_initial (N M : nat) (C : Z) :
  search_inv N M C (replicate N (replicate M EmptyProf)) 0 0.
Proof.
  assert (∀ i j p, holds (replicate N (replicate M EmptyProf)) i j p → p = EmptyProf) as Hempty.
  { intros i j p (row & [-> _]%lookup_replicate & [-> _]%lookup_replicate)%cell_Ret. done. }
  split_and!.
  - split; [apply length_replicate|]. apply Forall_replicate. apply length_replicate.
  - destruct N; [by right|left; lia].
  - intros i j p _ Hb. unfold before in Hb. lia.
  - intros p _ Hb. unfold before in Hb. lia.
  - intros i j p Hp _. by apply (Hempty i j).
Qed.

Lemma after_trans (r c r' c' : nat) (e : event) :
  before r c r' c' → after r' c' e → after r c e.
Proof. destruct e as [g r'' c''|g]; [|done]. unfold after, before. lia. Qed.

Lemma tried_app (t1 t2 : list event) (r c : nat) :
  tried (t1 ++ t2) r c = tried t1 r c ++ tried t2 r c.
Proof. apply omap_app. Qed.

Lemma tried_after (tr : list event) (r c : nat) :
  Forall (after r (S c)) tr → tried tr r c = [].
Proof.
  induction 1 as [|e tr He _ IH]; [done|].
  change (e :: tr) with ([e] ++ tr). rewrite tried_app, IH, app_nil_r.
  destruct e as [g r' c'|g]; [|done]. unfold tried. simpl in *.
  rewrite decide_False; [done|]. unfold before in He. lia.
Qed.

(** ** The loop at a cell

    The loop depends on the recursive call only through the grid that the
    call hands back and the events it leaves: around a call that restores
    the grid, the loop is in control of the one cell it iterates on. *)
Section perm_loop.
Context (body : Grid → run Grid) (r c : nat).
Hypothesis body_restores :
  ∀ g g', unassigned_from g r (c + 1) → result (body g) = Done g' → g' = g.

Lemma perm_loop_trace_Forall (Q : event → Prop) :
  (∀ g, Forall Q (trace (body g))) →
  ∀ fuel g, Forall Q (trace (perm_loop fuel body r c g)).
Proof.
  intros Hbody fuel. induction fuel as [|fuel IH]; intros g; [by constructor|].
  rewrite perm_loop_unfold. cbv zeta. pose proof (Hbody g) as Hg.
  destruct (result (body g)) as [g1|e|shown|]; [|done..].
  case_bool_decide; [done|].
  destruct (cell g1 r c) as [p|e]; [|done].
  destruct (set_cell g1 r c (next_permutation p).2) as [g2|e]; [|done].
  destruct (next_permutation p).1; [|done]. simpl.
  apply Forall_app. by split.
Qed.

(** The loop changes nothing but the cell it iterates on. *)
Lemma perm_loop_restores (fuel : nat) (g g' : Grid) (p : Pref) :
  unassigned_from g r (c + 1) → holds g r c p →
  result (perm_loop fuel body r c g) = Done g' →
  ∃ q, set_cell g r c q = Ret g'.
Proof.
  revert g g' p. induction fuel as [|fuel IH]; intros g g' p Hg Hp; [done|].
  rewrite perm_loop_unfold. cbv zeta.
  destruct (result (body g)) as [g1|e|shown|] eqn:Hg1; [|done..].
  apply (body_restores g g1 Hg) in Hg1 as ->.
  case_bool_decide as Hbreak.
  - intros [= <-]. exists p. by apply set_cell_holds.
  - unfold holds in Hp. rewrite Hp.
    destruct (set_cell g r c (next_permutation p).2) as [g2|e] eqn:Hg2; [|done].
    destruct (next_permutation p).1; simpl.
    + intros Hrest.
      destruct (IH g2 g' (next_permutation p).2) as [q Hq];
        [by eapply unassigned_from_set_cell|by eapply set_cell_holds_eq|done|].
      exists q. by eapply set_cell_set_cell.
    + intros [= <-]. by eexists.
Qed.

(** Every round of the loop enters the recursive call in a state of the
    search. *)
Lemma perm_loop_trace_inv (N M : nat) (C : Z) :
  (r < N)%nat → (c < M)%nat →
  (∀ g, search_inv N M C g r (c + 1) → Forall (event_inv N M C) (trace (body g))) →
  ∀ fuel g, search_inv N M C g r (c + 1) →
    Forall (event_inv N M C) (trace (perm_loop fuel body r c g)).
Proof.
  intros Hr Hc Htrace fuel.
  induction fuel as [|fuel IH]; intros g Hg; [by constructor|].
  rewrite perm_loop_unfold. cbv zeta.
  pose proof (Htrace g Hg) as Hbody.
  pose proof Hg as (Hshape & _ & Hperm & Hid & Hun).
  destruct (result (body g)) as [g1|e|shown|] eqn:Hg1; [|done..].
  apply (body_restores g g1 Hun) in Hg1 as ->.
  case_bool_decide as Hbreak; [done|].
  destruct (cell g r c) as [p|e] eqn:Hp; [|done].
  destruct (set_cell g r c (next_permutation p).2) as [g2|e] eqn:Hg2; [|done].
  destruct (next_permutation p).1; [|done]. simpl.
  apply Forall_app. split; [done|]. apply IH.
  apply (search_inv_assign N M C g g2 r c (next_permutation p).2); try done.
  - intros i j q Hq Hb. apply (Hperm i j q Hq). unfold before in *. lia.
  - intros q Hq Hb. apply (Hid q Hq). unfold before in *. lia.
  - rewrite next_permutation_Permutation. apply (Hperm r c p Hp). unfold before. lia.
Qed.

(** At a cell other than [(0, 0)] the loop tries what the enumerator
    visits. *)
Lemma perm_loop_tried :
  ¬ (r = 0%nat ∧ c = 0%nat) →
  (∀ g g' p, holds g r c p → result (body g) = Done g' → tried (trace (body g)) r c = [p]) →
  ∀ p L e, enumerates p L e →
  ∀ fuel g g', unassigned_from g r (c + 1) → holds g r c p →
    result (perm_loop fuel body r c g) = Done g' →
    tried (trace (perm_loop fuel body r c g)) r c = L.
Proof.
  intros Hfree Htried p L e Henum.
  induction Henum as [p e Hlast|p p' L e Hnext _ IH]; intros fuel g g' Hg Hp;
    (destruct fuel as [|fuel]; [done|]);
    rewrite perm_loop_unfold; cbv zeta;
    pose proof (Htried g) as Hbody;
    destruct (result (body g)) as [g1|?|?|] eqn:Hg1; try done;
    specialize (Hbody g1 p Hp eq_refl);
    apply (body_restores g g1 Hg) in Hg1 as ->;
    rewrite bool_decide_eq_false_2 by done;
    pose proof Hp as Hp'; unfold holds in Hp'; rewrite Hp';
    destruct (set_cell g r c (next_permutation p).2) as [g2|] eqn:Hg2; try done.
  - rewrite Hlast. simpl. done.
  - rewrite Hnext in *. simpl in *. intros Hdone.
    rewrite tried_app, Hbody. simpl. f_equal.
    apply (IH fuel g2 g'); [by eapply unassigned_from_set_cell|by eapply set_cell_holds_eq|done].
Qed.

(** The loop ends when the recursive call does and the fuel covers the
    rounds of the enumerator. *)
Lemma perm_loop_terminates (N M : nat) (C : Z) :
  (r < N)%nat → (c < M)%nat →
  (∀ g, search_inv N M C g r (c + 1) → result (body g) ≠ OutOfFuel) →
  ∀ p L e, enumerates p L e →
  ∀ fuel g, (length L ≤ fuel)%nat → search_inv N M C g r (c + 1) → holds g r c p →
    result (perm_loop fuel body r c g) ≠ OutOfFuel.
Proof.
  intros Hr Hc Hbody p L e Henum.
  induction Henum as [p e Hlast|p p' L e Hnext _ IH]; intros fuel g Hfuel Hg Hp;
    (destruct fuel as [|fuel]; [simpl in Hfuel; lia|]);
    rewrite perm_loop_unfold; cbv zeta;
    pose proof (Hbody g Hg) as Hnot;
    pose proof Hg as (Hshape & _ & Hperm & Hid & Hun);
    destruct (result (body g)) as [g1|?|?|] eqn:Hg1; try done;
    apply (body_restores g g1 Hun) in Hg1 as ->;
    (case_bool_decide as Hbreak; [done|]);
    pose proof Hp as Hp'; unfold holds in Hp'; rewrite Hp';
    destruct (set_cell g r c (next_permutation p).2) as [g2|] eqn:Hg2; try done.
  - by rewrite Hlast.
  - rewrite Hnext in *. simpl in *. apply IH; [lia| |by eapply set_cell_holds_eq].
    apply (search_inv_assign N M C g g2 r c p'); try done.
    + intros i j q Hq Hb. apply (Hperm i j q Hq). unfold before in *. lia.
    + intros q Hq Hb. apply (Hid q Hq). unfold before in *. lia.
    + pose proof (next_permutation_Permutation p) as Hp''. rewrite Hnext in Hp''.
      simpl in Hp''. rewrite Hp''. apply (Hperm r c p Hp). unfold before. lia.
Qed.

End perm_loop.

(** At cell [(0, 0)] the loop leaves after its first round. *)
Lemma perm_loop_tried_pinned (body : Grid → run Grid) (fuel : nat) (g g' : Grid) (p : Pref) :
  (∀ g g' p, holds g 0 0 p → result (body g) = Done g' → tried (trace (body g)) 0 0 = [p]) →
  holds g 0 0 p →
  result (perm_loop fuel body 0 0 g) = Done g' →
  tried (trace (perm_loop fuel body 0 0 g)) 0 0 = [p].
Proof.
  intros Htried Hp. destruct fuel as [|fuel]; [done|].
  rewrite perm_loop_unfold. cbv zeta.
  pose proof (Htried g) as Hbody.
  destruct (result (body g)) as [g1|?|?|] eqn:Hg1; try done.
  rewrite bool_decide_eq_true_2 by done. simpl. intros _. by apply (Hbody g1).
Qed.

(** ** The driver restores the grid, keeps the invariant, and ends *)

(** Called on a grid whose cells from the cursor on are unassigned, the
    driver, when it returns, has put every cell back. *)
Lemma backtr_restores (fuel : nat) (g : Grid) (C : Z) (r c : nat) (g' : Grid) :
  unassigned_from g r c → result (backtr fuel g C r c) = Done g' → g' = g.
Proof.
  revert g r c g'. induction fuel as [|fuel IH]; intros g r c g' Hg; [done|].
  rewrite backtr_unfold.
  destruct (dims g) as [[N M]|]; [|done].
  destruct (grid_valid g C) as [[]|]; [|by intros [= <-]|done].
  case_bool_decide as Hleaf.
  { simpl. destruct (admits_split_line g C) as [[]|]; [by intros [= <-]| |done].
    destruct (is_monodominated g) as [[]|]; [by intros [= <-]|done|done]. }
  case_bool_decide as Hrow.
  { simpl. apply IH. by apply (unassigned_from_next_row g r c). }
  destruct (cell g r c) as [p0|] eqn:Hp0; [|done].
  destruct (iota C) as [p|]; [|done].
  destruct (set_cell g r c p) as [g1|] eqn:Hg1; [|done]. simpl.
  destruct (result (perm_loop fuel _ r c g1)) as [g2|e|shown|] eqn:Hg2; [|done..].
  simpl. intros Hclear.
  destruct (set_cell g2 r c EmptyProf) as [g''|] eqn:Hclear'; [|done].
  injection Hclear as ->. rename Hclear' into Hclear.
  assert (unassigned_from g1 r (c + 1)) as Hg1'.
  { eapply unassigned_from_set_cell; [|done]. by apply unassigned_from_next_col. }
  destruct (perm_loop_restores (λ g', backtr fuel g' C r (c + 1)) r c
              (λ a a' Ha, IH a r (c + 1)%nat a' Ha) fuel g1 g2 p Hg1'
              (set_cell_holds_eq _ _ _ _ _ Hg1) Hg2) as [q Hq].
  assert (p0 = EmptyProf) as ->.
  { apply (Hg r c p0 Hp0). unfold before. lia. }
  pose proof (set_cell_set_cell _ _ _ _ _ _ _ Hg1 Hq) as Hq'.
  pose proof (set_cell_set_cell _ _ _ _ _ _ _ Hq' Hclear) as Hfinal.
  rewrite (set_cell_holds g r c EmptyProf Hp0) in Hfinal. by injection Hfinal.
Qed.

(** Every invocation below one entered in a state of the search is entered
    in a state of the search. *)
Lemma backtr_trace_inv (N M : nat) (C : Z) (fuel : nat) (g : Grid) (r c : nat) :
  search_inv N M C g r c → Forall (event_inv N M C) (trace (backtr fuel g C r c)).
Proof.
  revert g r c. induction fuel as [|fuel IH]; intros g r c Hg; [by constructor|].
  rewrite backtr_unfold.
  assert (Forall (event_inv N M C) [Enter g r c]) as Henter
    by (constructor; [exact Hg|constructor]).
  pose proof Hg as (Hshape & Hpos & Hperm & Hid & Hun).
  destruct (dims g) as [[N' M']|] eqn:Hdims; [|done].
  destruct (dims_grid_shape g N M N' M' Hshape Hdims) as (-> & -> & HN0 & HM0).
  destruct (grid_valid g C) as [[]|] eqn:Hvalid; [|done..].
  case_bool_decide as Hleaf.
  { subst r. simpl. constructor; [exact Hg|]. constructor; [|constructor].
    split_and!; [by eapply search_inv_leaf|done..]. }
  case_bool_decide as Hrow.
  { subst c. simpl. constructor; [exact Hg|]. apply IH. apply search_inv_next_row; [lia|done]. }
  destruct (cell g r c) as [p0|] eqn:Hp0; [|done].
  destruct (iota C) as [p|] eqn:Hiota; [|done]. apply iota_Ret in Hiota as ->.
  destruct (set_cell g r c (seqZ 0 C)) as [g1|] eqn:Hg1; [|done]. simpl.
  constructor; [exact Hg|].
  apply (perm_loop_trace_inv _ r c (λ a a' Ha, backtr_restores fuel a C r (c + 1) a' Ha) N M C);
    [lia|lia|by intros; apply IH|].
  apply (search_inv_assign N M C g g1 r c (seqZ 0 C)); try done; try lia.
  by apply unassigned_from_next_col.
Qed.

(** A run of [backtr g C r c] starts by entering [(r, c)], and enters only
    later cursors after that. *)
Lemma backtr_trace_shape (C : Z) (fuel : nat) (g : Grid) (r c : nat) :
  trace (backtr fuel g C r c) = []
  ∨ ∃ rest, trace (backtr fuel g C r c) = Enter g r c :: rest ∧ Forall (after r c) rest.
Proof.
  revert g r c. induction fuel as [|fuel IH]; intros g r c; [by left|]. right.
  assert (∀ g' r' c', before r c r' c' → Forall (after r c) (trace (backtr fuel g' C r' c')))
    as Hsub.
  { intros g' r' c' Hb. destruct (IH g' r' c') as [->|(rest & -> & Hrest)]; [by constructor|].
    constructor; [done|]. eapply Forall_impl; [exact Hrest|].
    intros e. by apply after_trans. }
  rewrite backtr_unfold.
  destruct (dims g) as [[N M]|]; [|by eexists].
  destruct (grid_valid g C) as [[]|]; [|by eexists..].
  case_bool_decide; [eexists; split; [done|by repeat constructor]|].
  case_bool_decide; [eexists; split; [done|]; apply Hsub; unfold before; lia|].
  destruct (cell g r c); [|by eexists].
  destruct (iota C); [|by eexists].
  destruct (set_cell g r c _); [|by eexists].
  eexists. split; [done|]. simpl. apply perm_loop_trace_Forall.
  intros g'. apply Hsub. unfold before. lia.
Qed.

(** A call at the next cursor that returns has tried what the cell holds,
    and nothing else at that cell. *)
Lemma backtr_tried_next (C : Z) (fuel : nat) (g g' : Grid) (r c : nat) (p : Pref) :
  holds g r c p → result (backtr fuel g C r (c + 1)) = Done g' →
  tried (trace (backtr fuel g C r (c + 1))) r c = [p].
Proof.
  intros Hp Hdone. destruct fuel as [|fuel]; [done|].
  destruct (backtr_trace_shape C (S fuel) g r (c + 1)) as [Hnil|(rest & -> & Hrest)].
  { rewrite backtr_unfold in Hnil.
    destruct (dims g) as [[N M]|]; [|done].
    destruct (grid_valid g C) as [[]|]; [|done..].
    repeat case_bool_decide; try done.
    destruct (cell g r (c + 1)); [|done]. destruct (iota C); [|done].
    by destruct (set_cell g r (c + 1) _). }
  change (Enter g r (c + 1) :: rest) with ([Enter g r (c + 1)] ++ rest).
  rewrite tried_app, (tried_after rest) by (by rewrite <- Nat.add_1_r).
  unfold tried. simpl. rewrite decide_True by lia.
  unfold holds in Hp. by rewrite Hp.
Qed.

(** Entered in a state of the search with the budget of its cursor, the
    driver ends: it returns, exits, or fails, and does not exhaust the
    budget. *)
Lemma backtr_terminates (N M : nat) (C : Z) (fuel : nat) (g : Grid) (r c : nat) :
  search_inv N M C g r c → (budget N M C r c ≤ fuel)%nat →
  result (backtr fuel g C r c) ≠ OutOfFuel.
Proof.
  revert g r c. induction fuel as [|fuel IH]; intros g r c Hg Hfuel.
  { unfold budget in Hfuel. lia. }
  rewrite backtr_unfold.
  pose proof Hg as (Hshape & Hpos & Hperm & Hid & Hun).
  destruct (dims g) as [[N' M']|] eqn:Hdims; [|done].
  destruct (dims_grid_shape g N M N' M' Hshape Hdims) as (-> & -> & HN0 & HM0).
  destruct (grid_valid g C) as [[]|]; [|done..].
  case_bool_decide as Hleaf.
  { simpl. destruct (admits_split_line g C) as [[]|]; [done| |done].
    by destruct (is_monodominated g) as [[]|]. }
  assert (r < N)%nat as Hr by lia.
  assert (N - r = S (N - (r + 1)))%nat as HNr by lia.
  case_bool_decide as Hrow.
  { subst c. simpl. apply IH; [by apply search_inv_next_row|].
    unfold budget in *. rewrite HNr, Nat.mul_succ_l in Hfuel.
    revert Hfuel. generalize ((N - (r + 1)) * (M + 1))%nat (fact (Z.to_nat C)). lia. }
  assert (c < M)%nat as Hc by lia.
  destruct (cell g r c) as [p0|] eqn:Hp0; [|done].
  destruct (iota C) as [p|] eqn:Hiota; [|done]. apply iota_Ret in Hiota as ->.
  destruct (set_cell g r c (seqZ 0 C)) as [g1|] eqn:Hg1; [|done]. simpl.
  destruct (enumerates_iota C) as (L & Henum & _ & _ & HlenL).
  assert (result (perm_loop fuel (λ g', backtr fuel g' C r (c + 1)) r c g1) ≠ OutOfFuel) as Hloop.
  { apply (perm_loop_terminates _ r c (λ a a' Ha, backtr_restores fuel a C r (c + 1) a' Ha)
             N M C Hr Hc) with (p := seqZ 0 C) (L := L) (e := seqZ 0 C); try done.
    - intros a Ha. apply IH; [done|]. unfold budget in *.
      rewrite HNr, Nat.mul_succ_l in *.
      revert Hfuel. generalize ((N - (r + 1)) * (M + 1))%nat (fact (Z.to_nat C)). lia.
    - unfold budget in Hfuel. rewrite HNr, Nat.mul_succ_l in Hfuel.
      revert Hfuel. rewrite HlenL.
      generalize ((N - (r + 1)) * (M + 1))%nat (fact (Z.to_nat C)). lia.
    - apply (search_inv_assign N M C g g1 r c (seqZ 0 C)); try done.
      by apply unassigned_from_next_col.
    - by eapply set_cell_holds_eq. }
  destruct (result (perm_loop fuel _ r c g1)) as [g2|e|shown|]; simpl; try done.
  by destruct (set_cell g2 r c EmptyProf).
Qed.

(** The search from the all-unassigned grid ends within the budget of the
    first cursor. *)
Lemma main_with_terminates (N M : nat) (C : Z) (fuel : nat) :
  (budget N M C 0 0 ≤ fuel)%nat → result (main_with fuel N M C) ≠ OutOfFuel.
Proof. apply backtr_terminates, search_inv_initial. Qed.

(** ** The run does not depend on the fuel

    Fuel beyond what a run needs changes nothing: a run that ends is the
    run of every larger budget. *)

Lemma perm_loop_fuel_S (body body' : Grid → run Grid) (r c : nat) :
  (∀ g, result (body g) ≠ OutOfFuel → body' g = body g) →
  ∀ fuel g, result (perm_loop fuel body r c g) ≠ OutOfFuel →
    perm_loop (S fuel) body' r c g = perm_loop fuel body r c g.
Proof.
  intros Hbody fuel. induction fuel as [|fuel IH]; intros g; [done|].
  rewrite (perm_loop_unfold (S fuel)), (perm_loop_unfold fuel). cbv zeta.
  intros Hends. rewrite Hbody; [|by destruct (result (body g))].
  destruct (result (body g)) as [g1|e|shown|]; [|done..].
  case_bool_decide; [done|].
  destruct (cell g1 r c) as [p|e]; [|done].
  destruct (set_cell g1 r c (next_permutation p).2) as [g2|e]; [|done].
  destruct (next_permutation p).1; [|done]. simpl in *. by rewrite IH.
Qed.

Lemma backtr_fuel_S (C : Z) (fuel : nat) (g : Grid) (r c : nat) :
  result (backtr fuel g C r c) ≠ OutOfFuel →
  backtr (S fuel) g C r c = backtr fuel g C r c.
Proof.
  revert g r c. induction fuel as [|fuel IH]; intros g r c; [done|].
  rewrite (backtr_unfold (S fuel)), (backtr_unfold fuel).
  destruct (dims g) as [[N M]|]; [|done].
  destruct (grid_valid g C) as [[]|]; [|done..].
  case_bool_decide; [done|].
  case_bool_decide.
  { cbv zeta. intros Hends. by rewrite IH. }
  destruct (cell g r c); [|done]. destruct (iota C); [|done].
  destruct (set_cell g r c _) as [g1|]; [|done]. cbv zeta. intros Hends.
  rewrite (perm_loop_fuel_S (λ g', backtr fuel g' C r (c + 1))); [done| |].
  - intros g' Hg'. by apply IH.
  - revert Hends. by destruct (result (perm_loop fuel _ r c g1)).
Qed.

Lemma backtr_fuel_le (C : Z) (fuel fuel' : nat) (g : Grid) (r c : nat) :
  (fuel ≤ fuel')%nat → result (backtr fuel g C r c) ≠ OutOfFuel →
  backtr fuel' g C r c = backtr fuel g C r c.
Proof.
  intros Hle Hends. induction Hle as [|fuel' _ IH]; [done|].
  rewrite backtr_fuel_S; [done|]. by rewrite IH.
Qed.

(** The search on an [N] by [M] grid is the run of the budget of its first
    cursor, whatever larger budget it is given. *)
Lemma main_with_budget (N M : nat) (C : Z) (fuel : nat) :
  (budget N M C 0 0 ≤ fuel)%nat →
  main_with fuel N M C = main_with (budget N M C 0 0) N M C.
Proof.
  intros Hfuel. apply backtr_fuel_le; [done|]. by apply main_with_terminates.
Qed.

(** ** The row-major prefix invariant *)

Lemma any_of_total {A} (l : list A) (test : A → res bool) :
  (∀ x, x ∈ l → ∃ b, test x = Ret b) → ∃ b, any_of l test = Ret b.
Proof.
  induction l as [|x l IH]; intros Htotal; simpl; [by eexists|].
  destruct (Htotal x ltac:(left)) as [[] ->]; simpl; [by eexists|].
  apply IH. intros y Hy. apply Htotal. by right.
Qed.

(** On a complete profile over at least one candidate the checks made at a
    leaf read no unassigned cell: every dominance box is computed, and
    both checks return. *)
Lemma leaf_checks_return (g : Grid) (N M : nat) (C : Z) :
  complete_profile g N M C → dims g = Ret (N, M) →
  0 < C → Z.of_nat N ≤ INF → Z.of_nat M ≤ INF →
  (∀ i j p, holds g i j p → p ≠ EmptyProf)
  ∧ (∀ c, ∃ b, get_dominance_box g c = Ret b ∧ is_bounding_box (top_is g c) b)
  ∧ (∃ b, admits_split_line g C = Ret b)
  ∧ (∃ b, is_monodominated g = Ret b).
Proof.
  intros Hcomplete Hdims HC HN HM. pose proof Hcomplete as [Hshape _].
  destruct (dims_grid_shape g N M N M Hshape Hdims) as (_ & _ & HN0 & HM0).
  assert (∀ i j p, holds g i j p → p ≠ EmptyProf) as Hfull.
  { intros i j p. by apply (complete_profile_nonempty g N M C). }
  assert (∀ c, ∃ b, get_dominance_box g c = Ret b ∧ is_bounding_box (top_is g c) b) as Hbox.
  { intros c. by apply (get_dominance_box_is_bounding_box g N M). }
  split_and!; [done..| |].
  - unfold admits_split_line. rewrite Hdims. simpl.
    assert (∀ (line : Rect.t → bool), ∃ b,
      any_of (seqZ 0 C) (λ c, r ← get_dominance_box g c; Ret (line r)) ≫=
        (λ crossed, Ret (negb crossed)) = Ret b) as Hline.
    { intros line.
      destruct (any_of_total (seqZ 0 C) (λ c, r ← get_dominance_box g c; Ret (line r)))
        as [b ->]; [|by eexists].
      intros c _. destruct (Hbox c) as (b & -> & _). by eexists. }
    destruct (any_of_total (seq 0 (N - 1)) (λ i,
      crossed ← any_of (seqZ 0 C) (λ c,
        r ← get_dominance_box g c;
        Ret (Rect.intersects_with_horizontal r (Z.of_nat i)));
      Ret (negb crossed))) as [[] ->]; [by intros i _; apply Hline|by eexists|].
    simpl. apply any_of_total. intros j _. apply Hline.
  - unfold is_monodominated. rewrite Hdims. simpl.
    destruct (Hbox 0) as (b & -> & _). by eexists.
Qed.

(** C10: in every invocation [backtr g C r c] reached from the initial
    call on the all-unassigned [N] by [M] grid, the cells before [(r, c)]
    in row-major order hold permutations of [0..C-1] (the identity at
    [(0, 0)]) and the cells from [(r, c)] on are unassigned; a leaf is
    therefore a complete profile, and (there being a candidate, and the
    dimensions fitting an [int]) the checks made on it read no unassigned
    cell: no cell is the placeholder, every dominance box is computed, and
    both checks return. *)
Theorem backtr_prefix_invariant (N M : nat) (C : Z) (fuel : nat) :
  Forall (event_inv N M C) (trace (main_with fuel N M C))
  ∧ ∀ g, Leaf g ∈ trace (main_with fuel N M C) →
      0 < C → Z.of_nat N ≤ INF → Z.of_nat M ≤ INF →
      (∀ i j p, holds g i j p → p ≠ EmptyProf)
      ∧ (∀ c, ∃ b, get_dominance_box g c = Ret b ∧ is_bounding_box (top_is g c) b)
      ∧ (∃ b, admits_split_line g C = Ret b)
      ∧ (∃ b, is_monodominated g = Ret b).
Proof.
  assert (Forall (event_inv N M C) (trace (main_with fuel N M C))) as Hinv.
  { apply backtr_trace_inv, search_inv_initial. }
  split; [done|].
  intros g Hleaf HC HN HM. rewrite Forall_forall in Hinv.
  destruct (Hinv (Leaf g) Hleaf) as (Hcomplete & Hdims & _).
  by apply (leaf_checks_return g N M C).
Qed.

Example backtr_prefix_invariant_example :
  search_inv 1 2 3 [[[0; 1; 2]; [2; 1; 0]]] 1 0
  ∧ event_inv 1 2 3 (Leaf [[[0; 1; 2]; [2; 1; 0]]]).
Proof.
  pose proof (proj1 (backtr_prefix_invariant 1 2 3 30)) as Hinv.
  rewrite Forall_lookup in Hinv. split.
  - apply (Hinv 18%nat (Enter [[[0; 1; 2]; [2; 1; 0]]] 1 0)). vm_compute. reflexivity.
  - apply (Hinv 19%nat). vm_compute. reflexivity.
Defined.

(** ** Permutation completeness and the frame property *)

(** C4: when [backtr] reaches its assignment branch at a free cell
    [(r, c)] (the profile passed [grid_valid] and the cursor is inside the
    grid), the budget suffices for it to end, and if it returns (no
    counterexample stopped the search) it has tried at that cell exactly
    the [C!] permutations of [0..C-1], each once - at cell [(0, 0)] exactly
    the identity - and the cell is unassigned again. *)
Theorem backtr_tries_every_permutation (N M : nat) (C : Z) (fuel : nat) (g : Grid) (r c : nat) :
  search_inv N M C g r c → (r < N)%nat → (c < M)%nat → grid_valid g C = Ret true →
  let m := backtr fuel g C r c in
  ((budget N M C r c ≤ fuel)%nat → result m ≠ OutOfFuel)
  ∧ ∀ g', result m = Done g' →
      g' = g ∧ holds g' r c EmptyProf
      ∧ if decide (r = 0%nat ∧ c = 0%nat)
        then tried (trace m) r c = [seqZ 0 C]
        else NoDup (tried (trace m) r c)
             ∧ (∀ p, p ∈ tried (trace m) r c ↔ p ≡ₚ seqZ 0 C)
             ∧ length (tried (trace m) r c) = fact (Z.to_nat C).
Proof.
  intros Hg Hr Hc Hvalid m. subst m. split; [by apply backtr_terminates|].
  intros g' Hdone.
  pose proof Hg as (Hshape & Hpos & Hperm & Hid & Hun).
  assert (g' = g) as -> by (by eapply backtr_restores).
  destruct (grid_shape_holds g N M r c Hshape Hr Hc) as [p0 Hp0].
  assert (p0 = EmptyProf) as -> by (apply (Hun r c p0 Hp0); unfold before; lia).
  split; [done|]. split; [done|].
  destruct fuel as [|fuel]; [done|]. revert Hdone. rewrite backtr_unfold.
  rewrite (grid_shape_dims g N M Hshape) by lia. rewrite Hvalid.
  rewrite !bool_decide_eq_false_2 by lia.
  unfold holds in Hp0. rewrite Hp0.
  destruct (iota C) as [p|] eqn:Hiota; [|done]. apply iota_Ret in Hiota as ->.
  destruct (set_cell g r c (seqZ 0 C)) as [g1|] eqn:Hg1; [|done]. simpl.
  destruct (result (perm_loop fuel _ r c g1)) as [g2|e|shown|] eqn:Hg2; [|done..].
  intros _.
  rewrite (decide_False (P := r = r ∧ c = S c)) by lia.
  assert (unassigned_from g1 r (c + 1)) as Hg1'.
  { eapply unassigned_from_set_cell; [|done]. by apply unassigned_from_next_col. }
  pose proof (set_cell_holds_eq _ _ _ _ _ Hg1) as Hcell.
  case_decide as Hpin.
  - destruct Hpin as [-> ->].
    apply (perm_loop_tried_pinned _ fuel g1 g2); [|done..].
    intros a a' p. apply backtr_tried_next.
  - destruct (enumerates_iota C) as (L & Henum & Hnodup & Hmem & HlenL).
    rewrite (perm_loop_tried _ r c (λ a a' Ha, backtr_restores fuel a C r (c + 1) a' Ha) Hpin)
      with (p := seqZ 0 C) (L := L) (e := seqZ 0 C) (g' := g2); try done.
    intros a a' p. apply backtr_tried_next.
Qed.

Example backtr_tries_every_permutation_example :
  result (backtr 20 [[[0; 1; 2]; []]] 3 0 1) ≠ OutOfFuel
  ∧ NoDup (tried (trace (backtr 20 [[[0; 1; 2]; []]] 3 0 1)) 0 1)
  ∧ (∀ p, p ∈ tried (trace (backtr 20 [[[0; 1; 2]; []]] 3 0 1)) 0 1 ↔ p ≡ₚ seqZ 0 3)
  ∧ length (tried (trace (backtr 20 [[[0; 1; 2]; []]] 3 0 1)) 0 1) = fact 3.
Proof.
  assert (search_inv 1 2 3 [[[0; 1; 2]; []]] 0 1) as Hinv.
  { pose proof (backtr_trace_inv 1 2 3 30 _ 0 0 (search_inv_initial 1 2 3)) as Hall.
    rewrite Forall_lookup in Hall.
    apply (Hall 1%nat (Enter [[[0; 1; 2]; []]] 0 1)). vm_compute. reflexivity. }
  destruct (backtr_tries_every_permutation 1 2 3 20 [[[0; 1; 2]; []]] 0 1 Hinv)
    as [Hends Hall]; [lia|lia|vm_compute; reflexivity|].
  split.
  - apply Hends. vm_compute. lia.
  - apply (Hall [[[0; 1; 2]; []]]). vm_compute. reflexivity.
Defined.

(** C9: a call [backtr g C r c] that returns leaves the grid as it found
    it, every cell it assigned being unassigned again.  This holds of
    every call made as documented, with [(r, c)] the first voter whose
    preferences are not yet decided (the cells from the cursor on are
    unassigned), and so of every call the program makes; and such a call,
    given the budget of its cursor, does end. *)
Theorem backtr_frame (fuel : nat) (g : Grid) (C : Z) (r c : nat) :
  (∀ g', unassigned_from g r c → result (backtr fuel g C r c) = Done g' →
         g' = g ∧ unassigned_from g' r c)
  ∧ (∀ N M fuel0 g', Enter g r c ∈ trace (main_with fuel0 N M C) →
         result (backtr fuel g C r c) = Done g' →
         g' = g ∧ unassigned_from g' r c)
  ∧ (∀ N M, search_inv N M C g r c → (budget N M C r c ≤ fuel)%nat →
         result (backtr fuel g C r c) ≠ OutOfFuel).
Proof.
  split_and!.
  - intros g' Hg Hdone. apply (backtr_restores fuel g C r c g' Hg) in Hdone as ->. done.
  - intros N M fuel0 g' Henter Hdone.
    pose proof (backtr_trace_inv N M C fuel0 _ 0 0 (search_inv_initial N M C)) as Hinv.
    rewrite Forall_forall in Hinv.
    destruct (Hinv (Enter g r c) Henter) as (_ & _ & _ & _ & Hg).
    apply (backtr_restores fuel g C r c g' Hg) in Hdone as ->. done.
  - intros N M. apply backtr_terminates.
Qed.

Example backtr_frame_example :
  result (backtr 20 [[[0; 1; 2]; []]] 3 0 1) = Done [[[0; 1; 2]; []]]
  ∧ [[[0; 1; 2]; []]] = [[[0; 1; 2]; []]]
  ∧ unassigned_from [[[0; 1; 2]; []]] 0 1.
Proof.
  assert (result (backtr 20 [[[0; 1; 2]; []]] 3 0 1) = Done [[[0; 1; 2]; []]]) as Hdone
    by (vm_compute; reflexivity).
  split; [exact Hdone|].
  apply (proj1 (proj2 (backtr_frame 20 [[[0; 1; 2]; []]] 3 0 1)) 1%nat 2%nat 30%nat);
    [|exact Hdone].
  apply (list_elem_of_lookup_2 _ 1%nat). vm_compute. reflexivity.
Defined.

(** ** Two small searches *)

(** One voter and three candidates: the only cell is pinned to the
    identity, the leaf is monodominated, and the search returns. *)
Example search_1_1_3 :
  result (main_with 10 1 1 3) = Done [[EmptyProf]]
  ∧ trace (main_with 10 1 1 3)
    = [Enter [[EmptyProf]] 0 0; Enter [[[0; 1; 2]]] 0 1; Enter [[[0; 1; 2]]] 1 0;
       Leaf [[[0; 1; 2]]]].
Proof. split; vm_compute; reflexivity. Qed.

(** Four voters and two candidates: the search ends, after 22 invocations
    and leaves, without a counterexample to hypothesis 1. *)
Example search_2_2_2 :
  result (main_with 20 2 2 2) = Done [[EmptyProf; EmptyProf]; [EmptyProf; EmptyProf]]
  ∧ length (trace (main_with 20 2 2 2)) = 22%nat.
Proof. split; vm_compute; reflexivity. Qed.

(** ** Preference comparison: [prefers] *)

Lemma prefers_Ret (p : Pref) (c0 c1 : Z) (b : bool) :
  prefers p c0 c1 = Ret b ↔
  ∃ i0 i1, pos p c0 = Ret i0 ∧ pos p c1 = Ret i1 ∧ b = bool_decide (i0 < i1)%nat.
Proof.
  unfold prefers. destruct (pos p c0) as [i0|e0]; simpl.
  - destruct (pos p c1) as [i1|e1]; simpl.
    + split; [intros [= <-]; by exists i0, i1|].
      by intros (? & ? & [= <-] & [= <-] & ->).
    + split; [done|]. by intros (? & ? & _ & [=] & _).
  - split; [done|]. by intros (? & ? & [=] & _).
Qed.

Lemma pos_Raise (p : Pref) (c : Z) (e : exn) : pos p c = Raise e ↔ (c ∉ p) ∧ e = LogicError.
Proof. apply pos_from_Raise. Qed.

Lemma pos_Ret_elem_of (p : Pref) (c : Z) (i : nat) : pos p c = Ret i → c ∈ p.
Proof. intros [Hi _]%pos_Ret. by eapply list_elem_of_lookup_2. Qed.

Lemma prefers_Raise (p : Pref) (c0 c1 : Z) (e : exn) :
  prefers p c0 c1 = Raise e ↔ (c0 ∉ p ∨ c1 ∉ p) ∧ e = LogicError.
Proof.
  unfold prefers. destruct (pos p c0) as [i0|e0] eqn:H0; simpl.
  - destruct (pos p c1) as [i1|e1] eqn:H1; simpl.
    + split; [done|]. apply pos_Ret_elem_of in H0, H1. by intros [[?|?] _].
    + apply pos_Raise in H1 as [Hc ->].
      split; [intros [= <-]; split; [by right|done]|by intros [_ ->]].
  - apply pos_Raise in H0 as [Hc ->].
    split; [intros [= <-]; split; [by left|done]|by intros [_ ->]].
Qed.

(** X1: on every list [prefers] is a strict order of the candidates that occur
    in it, total on them, and it throws [logic_error], and nothing else,
    exactly when one of the two candidates does not occur. *)
Theorem prefers_strict_order (p : Pref) :
  (∀ c0 c1, prefers p c0 c1 = Raise LogicError ↔ c0 ∉ p ∨ c1 ∉ p)
  ∧ (∀ c0 c1 e, prefers p c0 c1 = Raise e → e = LogicError)
  ∧ (∀ c, c ∈ p → prefers p c c = Ret false)
  ∧ (∀ c0 c1, c0 ∈ p → c1 ∈ p → c0 ≠ c1 →
       ∃ b, prefers p c0 c1 = Ret b ∧ prefers p c1 c0 = Ret (negb b))
  ∧ (∀ a b c, prefers p a b = Ret true → prefers p b c = Ret true →
       prefers p a c = Ret true).
Proof.
  split_and!.
  - intros c0 c1. rewrite prefers_Raise. tauto.
  - intros c0 c1 e. rewrite prefers_Raise. tauto.
  - intros c [i Hi]%pos_elem_of. apply prefers_Ret. exists i, i.
    split_and!; [done..|]. by rewrite bool_decide_eq_false_2 by lia.
  - intros c0 c1 [i0 H0]%pos_elem_of [i1 H1]%pos_elem_of Hne.
    assert (i0 ≠ i1) as Hi.
    { intros ->. apply pos_Ret in H0 as [H0 _]. apply pos_Ret in H1 as [H1 _]. congruence. }
    exists (bool_decide (i0 < i1)%nat). split.
    + apply prefers_Ret. by exists i0, i1.
    + apply prefers_Ret. exists i1, i0. split_and!; [done..|].
      case_bool_decide; [rewrite bool_decide_eq_false_2 by lia|rewrite bool_decide_eq_true_2 by lia];
        done.
  - intros a b c (ia & ib & Ha & Hb & Hab)%prefers_Ret (ib' & ic & Hb' & Hc & Hbc)%prefers_Ret.
    assert (ib' = ib) as -> by congruence.
    symmetry in Hab, Hbc. apply bool_decide_eq_true in Hab, Hbc.
    apply prefers_Ret. exists ia, ic. split_and!; [done..|].
    by rewrite bool_decide_eq_true_2 by lia.
Qed.

Example prefers_strict_order_example :
  prefers [2; 0; 1] 2 1 = Ret true ∧ prefers [2; 0; 1] 0 3 = Raise LogicError.
Proof.
  split.
  - apply (proj2 (proj2 (proj2 (proj2 (prefers_strict_order [2; 0; 1])))) 2 0 1); reflexivity.
  - apply (proj1 (prefers_strict_order [2; 0; 1])). right.
    rewrite !elem_of_cons, elem_of_nil. lia.
Defined.

(** ** Bounding boxes: [do_intersect] *)

(** X2: [do_intersect] does not depend on the order of its arguments; on two
    boxes that are not empty it tells whether they have a point in common;
    a common point always makes it [true]; and the default box meets no box
    that ends before [INF]. *)
Theorem do_intersect_common_point (a b : Rect.t) :
  do_intersect a b = do_intersect b a
  ∧ ((∃ r c, Rect.contains a r c ∧ Rect.contains b r c) → do_intersect a b = true)
  ∧ (Rect.r0 a ≤ Rect.r1 a → Rect.c0 a ≤ Rect.c1 a →
     Rect.r0 b ≤ Rect.r1 b → Rect.c0 b ≤ Rect.c1 b →
     do_intersect a b = true → ∃ r c, Rect.contains a r c ∧ Rect.contains b r c)
  ∧ (Rect.r1 b < INF → do_intersect Rect.empty b = false).
Proof.
  split_and!.
  - destruct (do_intersect a b) eqn:E; symmetry.
    + apply do_intersect_true in E. apply do_intersect_true. lia.
    + apply not_true_iff_false in E. apply not_true_iff_false.
      rewrite do_intersect_true in *. lia.
  - intros (r & c & Ha & Hb). apply do_intersect_true. unfold Rect.contains in *. lia.
  - intros Ha0 Ha1 Hb0 Hb1 Hmeet%do_intersect_true.
    exists (Z.max (Rect.r0 a) (Rect.r0 b)), (Z.max (Rect.c0 a) (Rect.c0 b)).
    unfold Rect.contains. lia.
  - intros Hb. apply not_true_iff_false. rewrite do_intersect_true. simpl. lia.
Qed.

Example do_intersect_common_point_example :
  (∃ r c, Rect.contains (Rect.mk 0 2 0 2) r c ∧ Rect.contains (Rect.mk 2 3 1 1) r c)
  ∧ do_intersect Rect.empty (Rect.mk 0 3 0 3) = false.
Proof.
  split.
  - apply (proj1 (proj2 (proj2 (do_intersect_common_point (Rect.mk 0 2 0 2) (Rect.mk 2 3 1 1)))));
      simpl; try lia. reflexivity.
  - apply (proj2 (proj2 (proj2 (do_intersect_common_point Rect.empty (Rect.mk 0 3 0 3))))).
    unfold INF. simpl. lia.
Defined.

(** ** Preference boxes on partial profiles *)

Lemma cell_shape_Ret (g : Grid) (N M i j : nat) :
  grid_shape g N M → (i < N)%nat → (j < M)%nat → ∃ p, cell g i j = Ret p.
Proof. apply grid_shape_holds. Qed.

(** A profile with an assigned list that lacks one of the two candidates
    makes the scan throw. *)
Lemma get_preference_bounding_box_missing (g : Grid) (N M : nat) (c0 c1 : Z) (i j : nat) (p : Pref) :
  (0 < N)%nat → (0 < M)%nat → grid_shape g N M →
  holds g i j p → p ≠ EmptyProf → c0 ∉ p ∨ c1 ∉ p →
  get_preference_bounding_box g c0 c1 = Raise LogicError.
Proof.
  intros HN0 HM0 Hshape Hij Hne Hmiss. unfold get_preference_bounding_box.
  rewrite (grid_shape_dims g N M) by done. simpl.
  destruct (grid_shape_holds_lt g N M i j _ Hshape Hij) as [Hi Hj].
  assert (∀ i' j' a e, (i' < N)%nat → (j' < M)%nat →
    (q ← cell g i' j';
     if decide (q = EmptyProf) then Ret a
     else b ← prefers q c0 c1;
          Ret (if b : bool then Rect.add a (Z.of_nat i') (Z.of_nat j') else a)) = Raise e →
    e = LogicError) as Honly.
  { intros i' j' a e Hi' Hj'.
    destruct (cell_shape_Ret g N M i' j' Hshape Hi' Hj') as [q ->]. simpl.
    case_decide; [done|].
    destruct (prefers q c0 c1) as [t|e'] eqn:E; simpl; [done|].
    intros [= <-]. by apply prefers_Raise in E as [_ ->]. }
  apply (for_each_Raise_at _ _ _ i).
  - intros i' a e Hi'%elem_of_seq. apply for_each_Raise_only.
    intros j' a' e' Hj'%elem_of_seq. apply Honly; lia.
  - apply elem_of_seq. lia.
  - intros a. exists LogicError. apply (for_each_Raise_at _ _ _ j).
    + intros j' a' e' Hj'%elem_of_seq. apply Honly; lia.
    + apply elem_of_seq. lia.
    + intros a'. unfold holds in Hij. rewrite Hij. simpl.
      rewrite decide_False by done.
      destruct (prefers p c0 c1) as [t|e] eqn:E; simpl; [|by eexists].
      apply prefers_Ret in E as (i0 & i1 & H0%pos_Ret_elem_of & H1%pos_Ret_elem_of & _).
      by destruct Hmiss.
Qed.

(** X3: [get_preference_bounding_box] works on partial profiles: unassigned
    voters are skipped, and the result is the bounding box of the assigned
    voters who prefer [c0] to [c1].  Every assigned list has to rank both
    candidates: one that does not makes the function throw [logic_error].
    A profile without rows, or whose first row is empty, fails the
    [assert]s. *)
Theorem get_preference_bounding_box_partial (g : Grid) (N M : nat) (c0 c1 : Z) :
  (dims g = Raise AssertionFailed → get_preference_bounding_box g c0 c1 = Raise AssertionFailed)
  ∧ ((0 < N)%nat → (0 < M)%nat → Z.of_nat N ≤ INF → Z.of_nat M ≤ INF → grid_shape g N M →
     ((∀ i j p, holds g i j p → p = EmptyProf ∨ (c0 ∈ p ∧ c1 ∈ p)) →
      ∃ b, get_preference_bounding_box g c0 c1 = Ret b
           ∧ is_bounding_box (prefers_at g c0 c1) b)
     ∧ ((∃ i j p, holds g i j p ∧ p ≠ EmptyProf ∧ (c0 ∉ p ∨ c1 ∉ p)) →
        get_preference_bounding_box g c0 c1 = Raise LogicError)).
Proof.
  split.
  - intros Hdims. unfold get_preference_bounding_box. by rewrite Hdims.
  - intros HN0 HM0 HN HM Hshape. split.
    + intros Hcells. by apply (get_preference_bounding_box_spec g N M).
    + intros (i & j & p & Hp & Hne & Hmiss).
      by apply (get_preference_bounding_box_missing g N M c0 c1 i j p).
Qed.

Example get_preference_bounding_box_partial_example :
  (∃ b, get_preference_bounding_box [[[0; 1]; []]; [[]; [1; 0]]] 0 1 = Ret b
        ∧ is_bounding_box (prefers_at [[[0; 1]; []]; [[]; [1; 0]]] 0 1) b)
  ∧ get_preference_bounding_box [[[0; 1]; [2]]] 0 1 = Raise LogicError
  ∧ get_preference_bounding_box [[]; [[0; 1]]] 0 1 = Raise AssertionFailed.
Proof.
  split_and!.
  - apply (proj2 (get_preference_bounding_box_partial [[[0; 1]; []]; [[]; [1; 0]]] 2 2 0 1));
      try (unfold INF; lia).
    + split; [reflexivity|]. repeat constructor.
    + intros i j p Hp. unfold holds in Hp.
      destruct i as [|[|i]]; [| |discriminate Hp];
        (destruct j as [|[|j]]; [| |discriminate Hp]); injection Hp as <-;
        (by left) || (right; rewrite !elem_of_cons; lia).
  - apply (proj2 (get_preference_bounding_box_partial [[[0; 1]; [2]]] 1 2 0 1));
      try (unfold INF; lia).
    + split; [reflexivity|]. repeat constructor.
    + exists 0%nat, 1%nat, [2]. split_and!; [reflexivity|done|].
      left. rewrite elem_of_cons, elem_of_nil. lia.
  - by apply (proj1 (get_preference_bounding_box_partial [[]; [[0; 1]]] 0 0 0 1)).
Defined.

(** ** What [grid_valid] decides *)

Lemma any_of_spec {A} (l : list A) (test : A → res bool) (P : A → Prop) :
  (∀ x, x ∈ l → ∃ b, test x = Ret b ∧ (b = true ↔ P x)) →
  ∃ b, any_of l test = Ret b ∧ (b = true ↔ ∃ x, x ∈ l ∧ P x).
Proof.
  induction l as [|x l IH]; intros Htest; simpl.
  - exists false. split; [done|]. split; [done|]. by intros (x & Hx%elem_of_nil & _).
  - destruct (Htest x ltac:(left)) as (b & -> & Hb). simpl. destruct b.
    + exists true. split; [done|]. split; [|done]. intros _. exists x. split; [left|by apply Hb].
    + destruct IH as (b' & -> & Hb'); [intros y Hy; apply Htest; by right|].
      exists b'. split; [done|]. rewrite Hb'. split.
      * intros (y & Hy & HP). exists y. split; [by right|done].
      * intros (y & [->|Hy]%elem_of_cons & HP); [by apply Hb in HP|by exists y].
Qed.

(** The boxes of two sets of voters do not meet exactly when a line
    between two rows or two columns separates the sets. *)
Lemma do_intersect_separated (A B : nat → nat → Prop) (a b : Rect.t) :
  is_bounding_box A a → is_bounding_box B b →
  (∀ i j, A i j ∨ B i j → Z.of_nat i < INF ∧ Z.of_nat j < INF) →
  do_intersect a b = false ↔ separated A B.
Proof.
  intros Ha Hb Hfit. rewrite <- not_true_iff_false, do_intersect_true.
  destruct Ha as [[-> HA]|(HA & A0 & A1 & A2 & A3)].
  { split; [|simpl; destruct Hb as [[-> _]|(_ & _ & (i & j & HB & ->) & _)]; simpl;
             [unfold INF; lia|destruct (Hfit i j (or_intror HB)); lia]].
    intros _. left. intros i j i' j' Hij. by destruct (HA i j). }
  destruct Hb as [[-> HB]|(HB & B0 & B1 & B2 & B3)].
  { split; [|simpl; destruct A0 as (i & j & _ & ->); unfold INF; lia].
    intros _. left. intros i j i' j' _ Hij. by destruct (HB i' j'). }
  unfold Rect.contains in *. split.
  - intros Hnot.
    destruct (decide (Rect.r1 a < Rect.r0 b)) as [H1|H1];
      [left; intros i j i' j' Hij Hij'; specialize (HA i j Hij); specialize (HB i' j' Hij'); lia|].
    destruct (decide (Rect.r1 b < Rect.r0 a)) as [H2|H2];
      [right; left; intros i j i' j' Hij Hij';
       specialize (HA i j Hij); specialize (HB i' j' Hij'); lia|].
    destruct (decide (Rect.c1 a < Rect.c0 b)) as [H3|H3];
      [right; right; left; intros i j i' j' Hij Hij';
       specialize (HA i j Hij); specialize (HB i' j' Hij'); lia|].
    right; right; right. intros i j i' j' Hij Hij'.
    specialize (HA i j Hij). specialize (HB i' j' Hij'). lia.
  - destruct A0 as (a0 & a0' & Ha0 & E0). destruct A1 as (a1 & a1' & Ha1 & E1).
    destruct A2 as (a2' & a2 & Ha2 & E2). destruct A3 as (a3' & a3 & Ha3 & E3).
    destruct B0 as (b0 & b0' & Hb0 & F0). destruct B1 as (b1 & b1' & Hb1 & F1).
    destruct B2 as (b2' & b2 & Hb2 & F2). destruct B3 as (b3' & b3 & Hb3 & F3).
    intros [Hsep|[Hsep|[Hsep|Hsep]]].
    + specialize (Hsep _ _ _ _ Ha1 Hb0). lia.
    + specialize (Hsep _ _ _ _ Ha0 Hb1). lia.
    + specialize (Hsep _ _ _ _ Ha3 Hb2). lia.
    + specialize (Hsep _ _ _ _ Ha2 Hb3). lia.
Qed.

Lemma prefers_at_lt (g : Grid) (N M : nat) (c0 c1 : Z) (i j : nat) :
  grid_shape g N M → prefers_at g c0 c1 i j → (i < N)%nat ∧ (j < M)%nat.
Proof. intros Hshape (p & Hp & _). by apply (grid_shape_holds_lt g N M i j p). Qed.

(** X4: on a profile whose assigned voters rank all of [0..C-1], [grid_valid]
    returns, and it returns [true] exactly when, for every two candidates,
    a line between two rows or two columns has the assigned voters who
    prefer the one on one side and those who prefer the other on the other
    side. *)
Theorem grid_valid_separated (g : Grid) (N M : nat) (C : Z) :
  (0 < N)%nat → (0 < M)%nat → Z.of_nat N ≤ INF → Z.of_nat M ≤ INF →
  grid_shape g N M →
  (∀ i j p, holds g i j p → p = EmptyProf ∨ p ≡ₚ seqZ 0 C) →
  ∃ b, grid_valid g C = Ret b
       ∧ (b = true ↔ ∀ c0 c1, 0 ≤ c0 → c0 < c1 → c1 < C →
                       separated (prefers_at g c0 c1) (prefers_at g c1 c0)).
Proof.
  intros HN0 HM0 HN HM Hshape Hcells.
  assert (∀ c0 c1, 0 ≤ c0 → c0 < c1 → c1 < C →
    ∃ t, (b0 ← get_preference_bounding_box g c0 c1;
          b1 ← get_preference_bounding_box g c1 c0;
          Ret (do_intersect b0 b1)) = Ret t
         ∧ (t = false ↔ separated (prefers_at g c0 c1) (prefers_at g c1 c0))) as Hpair.
  { intros c0 c1 H0 H01 H1.
    assert (∀ i j p, holds g i j p → p = EmptyProf ∨ (c0 ∈ p ∧ c1 ∈ p)) as Hin.
    { intros i j p Hp. destruct (Hcells i j p Hp) as [->|Hperm]; [by left|right].
      rewrite Hperm, !elem_of_seqZ. lia. }
    destruct (get_preference_bounding_box_spec g N M c0 c1 HN0 HM0 HN HM Hshape Hin)
      as (b0 & -> & Hbox0).
    destruct (get_preference_bounding_box_spec g N M c1 c0 HN0 HM0 HN HM Hshape)
      as (b1 & -> & Hbox1); [intros i j p Hp; specialize (Hin i j p Hp); tauto|].
    simpl. eexists. split; [done|].
    apply (do_intersect_separated (prefers_at g c0 c1) (prefers_at g c1 c0)); [done..|].
    intros i j [Hij|Hij]; apply (prefers_at_lt g N M) in Hij as [? ?]; (done || lia). }
  destruct (any_of_total (seqZ 0 C) (λ c0,
    any_of (seqZ (c0 + 1) (C - (c0 + 1))) (λ c1,
      b0 ← get_preference_bounding_box g c0 c1;
      b1 ← get_preference_bounding_box g c1 c0;
      Ret (do_intersect b0 b1)))) as [found Hfound].
  { intros c0 Hc0%elem_of_seqZ. apply any_of_total. intros c1 Hc1%elem_of_seqZ.
    destruct (Hpair c0 c1) as (t & -> & _); [lia..|]. by eexists. }
  unfold grid_valid. rewrite Hfound. simpl. eexists. split; [done|].
  rewrite negb_true_iff. split.
  - intros ->. rewrite any_of_Ret_false in Hfound. intros c0 c1 H0 H01 H1.
    specialize (Hfound c0 ltac:(apply elem_of_seqZ; lia)). simpl in Hfound.
    rewrite any_of_Ret_false in Hfound.
    specialize (Hfound c1 ltac:(apply elem_of_seqZ; lia)). simpl in Hfound.
    destruct (Hpair c0 c1 H0 H01 H1) as (t & Ht & Hsep).
    apply Hsep. congruence.
  - intros Hsep. destruct found; [|done].
    assert (any_of (seqZ 0 C) (λ c0,
      any_of (seqZ (c0 + 1) (C - (c0 + 1))) (λ c1,
        b0 ← get_preference_bounding_box g c0 c1;
        b1 ← get_preference_bounding_box g c1 c0;
        Ret (do_intersect b0 b1))) = Ret false) as Hnone; [|congruence].
    apply any_of_Ret_false. intros c0 Hc0%elem_of_seqZ.
    apply any_of_Ret_false. intros c1 Hc1%elem_of_seqZ.
    destruct (Hpair c0 c1) as (t & -> & Ht); [lia..|].
    f_equal. apply Ht. apply Hsep; lia.
Qed.

Example grid_valid_separated_example :
  ∃ b, grid_valid [[[0; 1]; []]; [[1; 0]; [1; 0]]] 2 = Ret b
       ∧ (b = true ↔ ∀ c0 c1, 0 ≤ c0 → c0 < c1 → c1 < 2 →
            separated (prefers_at [[[0; 1]; []]; [[1; 0]; [1; 0]]] c0 c1)
                      (prefers_at [[[0; 1]; []]; [[1; 0]; [1; 0]]] c1 c0)).
Proof.
  apply (grid_valid_separated _ 2 2 2); try (unfold INF; lia).
  - split; [reflexivity|]. repeat constructor.
  - intros i j p Hp. unfold holds in Hp.
    destruct i as [|[|i]]; [| |discriminate Hp];
      (destruct j as [|[|j]]; [| |discriminate Hp]); injection Hp as <-;
      (by left) || (right; by_evaluation).
Defined.

(** ** Unassigning cells keeps a profile valid *)

Lemma get_preference_bounding_box_restricts (g h : Grid) (c0 c1 : Z) (b : Rect.t) :
  restricts g h → get_preference_bounding_box h c0 c1 = Ret b →
  ∃ b', get_preference_bounding_box g c0 c1 = Ret b' ∧ Rect.incl b' b.
Proof.
  intros [Hdims Hcells]. unfold get_preference_bounding_box. rewrite Hdims.
  destruct (dims h) as [[N M]|e]; simpl; [|done].
  apply (for_each_rel (λ s s', Rect.incl s' s)); [|apply Rect_incl_refl].
  intros i s s' t _ HR. apply (for_each_rel (λ s s', Rect.incl s' s)); [|done].
  clear s s' t HR. intros j s s' t _ HR.
  destruct (cell h i j) as [q|e] eqn:Hq; simpl; [|done].
  destruct (Hcells i j q Hq) as [Hg|Hg]; unfold holds in Hg; rewrite Hg; simpl.
  - case_decide; [intros [= <-]; by exists s'|].
    destruct (prefers q c0 c1) as [[]|e]; simpl; intros [= <-].
    + eexists. split; [done|]. by apply Rect_add_incl.
    + by exists s'.
  - case_decide; [intros [= <-]; by exists s'|].
    destruct (prefers q c0 c1) as [[]|e]; simpl; intros [= <-].
    + exists s'. split; [done|]. by apply Rect_add_incl.
    + by exists s'.
Qed.

Lemma grid_valid_restricts (g h : Grid) (C : Z) :
  restricts g h → grid_valid h C = Ret true → grid_valid g C = Ret true.
Proof.
  intros Hr Hvalid. unfold grid_valid in *.
  apply bind_Ret in Hvalid as (found & Hfound & [= Hneg]).
  destruct found; [done|]. clear Hneg. rewrite any_of_Ret_false in Hfound.
  assert (any_of (seqZ 0 C) (λ c0,
    any_of (seqZ (c0 + 1) (C - (c0 + 1))) (λ c1,
      b0 ← get_preference_bounding_box g c0 c1;
      b1 ← get_preference_bounding_box g c1 c0;
      Ret (do_intersect b0 b1))) = Ret false) as ->; [|done].
  apply any_of_Ret_false. intros c0 Hc0. specialize (Hfound c0 Hc0). simpl in Hfound.
  rewrite any_of_Ret_false in Hfound. apply any_of_Ret_false. intros c1 Hc1.
  specialize (Hfound c1 Hc1). simpl in Hfound.
  apply bind_Ret in Hfound as (b0 & Hb0 & (b1 & Hb1 & [= Hmeet])%bind_Ret).
  destruct (get_preference_bounding_box_restricts g h c0 c1 b0 Hr Hb0) as (b0' & -> & Hi0).
  destruct (get_preference_bounding_box_restricts g h c1 c0 b1 Hr Hb1) as (b1' & -> & Hi1).
  simpl. f_equal. destruct (do_intersect b0' b1') eqn:E; [|done].
  by rewrite (do_intersect_incl b0' b0 b1' b1) in Hmeet.
Qed.

(** X5: pruning is sound over any number of assignments.  When [g] is [h]
    with some cells unassigned, every preference box of [g] lies inside the
    box of [h]; so if [h] passes [grid_valid] then [g] passes, and a [g]
    that fails has no completion that passes: every partial profile on the
    way to a valid profile is searched. *)
Theorem grid_valid_unassign (g h : Grid) (C : Z) :
  restricts g h →
  (∀ c0 c1 b, get_preference_bounding_box h c0 c1 = Ret b →
     ∃ b', get_preference_bounding_box g c0 c1 = Ret b' ∧ Rect.incl b' b)
  ∧ (grid_valid h C = Ret true → grid_valid g C = Ret true)
  ∧ (grid_valid g C = Ret false → grid_valid h C ≠ Ret true).
Proof.
  intros Hr. split_and!.
  - intros c0 c1 b. by apply get_preference_bounding_box_restricts.
  - by apply grid_valid_restricts.
  - intros Hg Hh. apply (grid_valid_restricts g h C Hr) in Hh. congruence.
Qed.

Example grid_valid_unassign_example :
  grid_valid [[[0; 1; 2]; []]; [[]; [1; 0; 2]]] 3 = Ret true.
Proof.
  apply (grid_valid_unassign _ [[[0; 1; 2]; [0; 1; 2]]; [[1; 0; 2]; [1; 0; 2]]]).
  - split; [reflexivity|]. intros i j q Hq. unfold holds in *.
    destruct i as [|[|i]]; [| |discriminate Hq];
      (destruct j as [|[|j]]; [| |discriminate Hq]); injection Hq as <-;
      (by left) || (by right).
  - vm_compute. reflexivity.
Defined.

(** ** Edge cases of [grid_valid] *)

(** X6: with fewer than two candidates there is no pair to test, and
    [grid_valid] returns [true] without looking at the profile, whatever
    its shape; with two or more, a profile without rows, or with an empty
    first row, fails the [assert] of the first box; and a profile of
    unassigned voters passes. *)
Theorem grid_valid_edge_cases (g : Grid) (N M : nat) (C : Z) :
  (C ≤ 1 → grid_valid g C = Ret true)
  ∧ (2 ≤ C → dims g = Raise AssertionFailed → grid_valid g C = Raise AssertionFailed)
  ∧ ((0 < N)%nat → (0 < M)%nat →
     grid_valid (replicate N (replicate M EmptyProf)) C = Ret true).
Proof.
  split_and!.
  - intros HC. unfold grid_valid.
    assert (any_of (seqZ 0 C) (λ c0,
      any_of (seqZ (c0 + 1) (C - (c0 + 1))) (λ c1,
        b0 ← get_preference_bounding_box g c0 c1;
        b1 ← get_preference_bounding_box g c1 c0;
        Ret (do_intersect b0 b1))) = Ret false) as ->; [|done].
    apply any_of_Ret_false. intros c0 Hc0%elem_of_seqZ.
    rewrite seqZ_nil by lia. done.
  - intros HC Hdims. unfold grid_valid.
    rewrite (seqZ_cons 0 C) by lia. simpl.
    rewrite (seqZ_cons (0 + 1) (C - (0 + 1))) by lia. simpl.
    unfold get_preference_bounding_box. by rewrite Hdims.
  - intros HN0 HM0.
    pose proof (search_inv_initial N M C) as (Hshape & _ & _ & _ & Hun).
    assert (∀ c0 c1, get_preference_bounding_box (replicate N (replicate M EmptyProf)) c0 c1
                     = Ret Rect.empty) as Hbox.
    { intros c0 c1. unfold get_preference_bounding_box.
      rewrite (grid_shape_dims _ N M Hshape) by done. simpl.
      destruct (for_each_seq_inv (λ _ b, b = Rect.empty) N
        (λ i ans, for_each (seq 0 M) (λ j ans,
           p ← cell (replicate N (replicate M EmptyProf)) i j;
           if decide (p = EmptyProf) then Ret ans
           else b ← prefers p c0 c1;
                Ret (if b : bool then Rect.add ans (Z.of_nat i) (Z.of_nat j) else ans)) ans)
        Rect.empty eq_refl) as (b & -> & ->); [|done].
      intros i a Hi ->.
      apply (for_each_seq_inv (λ _ b, b = Rect.empty)); [done|].
      intros j a Hj ->.
      destruct (cell_shape_Ret _ N M i j Hshape Hi Hj) as [p Hp]. rewrite Hp. simpl.
      rewrite decide_True; [by eexists|].
      apply (Hun i j p Hp). unfold before. lia. }
    unfold grid_valid.
    assert (any_of (seqZ 0 C) (λ c0,
      any_of (seqZ (c0 + 1) (C - (c0 + 1))) (λ c1,
        b0 ← get_preference_bounding_box (replicate N (replicate M EmptyProf)) c0 c1;
        b1 ← get_preference_bounding_box (replicate N (replicate M EmptyProf)) c1 c0;
        Ret (do_intersect b0 b1))) = Ret false) as ->; [|done].
    apply any_of_Ret_false. intros c0 _. apply any_of_Ret_false. intros c1 _.
    by rewrite !Hbox.
Qed.

Example grid_valid_edge_cases_example :
  grid_valid [[[7]]; []] 1 = Ret true
  ∧ grid_valid [] 2 = Raise AssertionFailed
  ∧ grid_valid (replicate 2 (replicate 3 EmptyProf)) 4 = Ret true.
Proof.
  split_and!.
  - by apply (proj1 (grid_valid_edge_cases [[[7]]; []] 0 0 1)).
  - by apply (proj1 (proj2 (grid_valid_edge_cases [] 0 0 2))).
  - apply (proj2 (proj2 (grid_valid_edge_cases [] 2 3 4))); lia.
Defined.

(** ** Isolated dominance regions: [has_isolated] *)

Lemma top_is_lt (g : Grid) (N M : nat) (c : Z) (i j : nat) :
  grid_shape g N M → top_is g c i j → (i < N)%nat ∧ (j < M)%nat.
Proof. intros Hshape (p & Hp & _). by apply (grid_shape_holds_lt g N M i j p). Qed.

(** X7: on a complete profile [has_isolated] returns, and it returns [true]
    exactly when some candidate below [C] leads somewhere and only at
    voters off the four sides of the grid; the candidates that lead nowhere
    are passed over.  On a grid with fewer than three rows or three columns
    it returns [false]. *)
Theorem has_isolated_spec (g : Grid) (N M : nat) (C : Z) :
  (0 < N)%nat → (0 < M)%nat → Z.of_nat N ≤ INF → Z.of_nat M ≤ INF → 0 < C →
  complete_profile g N M C →
  ∃ b, has_isolated g C = Ret b
       ∧ (b = true ↔
          ∃ c, 0 ≤ c < C ∧ (∃ i j, top_is g c i j)
               ∧ ∀ i j, top_is g c i j → (0 < i < N - 1)%nat ∧ (0 < j < M - 1)%nat)
       ∧ ((N ≤ 2)%nat ∨ (M ≤ 2)%nat → b = false).
Proof.
  intros HN0 HM0 HN HM HC Hcomplete. pose proof Hcomplete as [Hshape _].
  unfold has_isolated. rewrite (grid_shape_dims g N M) by done. simpl.
  destruct (any_of_spec (seqZ 0 C) (λ c,
    r ← get_dominance_box g c;
    if decide (Rect.r0 r = INF) then Ret false
    else Ret (bool_decide (Rect.r0 r > 0) && bool_decide (Rect.r1 r < Z.of_nat N - 1) &&
              bool_decide (Rect.c0 r > 0) && bool_decide (Rect.c1 r < Z.of_nat M - 1)))
    (λ c, (∃ i j, top_is g c i j)
          ∧ ∀ i j, top_is g c i j → (0 < i < N - 1)%nat ∧ (0 < j < M - 1)%nat))
    as (b & Hb & Hiff).
  { intros c _.
    destruct (get_dominance_box_is_bounding_box g N M c HN0 HM0 HN HM Hshape) as (r & -> & Hbox).
    { intros i j p. by apply (complete_profile_nonempty g N M C). }
    simpl. destruct Hbox as [[-> Hnone]|(Hall & H0 & H1 & H2 & H3)].
    - exists false. split; [done|].
      split; [done|]. intros [(i & j & Hij) _]. by destruct (Hnone i j).
    - destruct H0 as (i0 & j0 & Ht0 & E0). destruct H1 as (i1 & j1 & Ht1 & E1).
      destruct H2 as (i2 & j2 & Ht2 & E2). destruct H3 as (i3 & j3 & Ht3 & E3).
      pose proof (top_is_lt g N M c _ _ Hshape Ht0) as [? ?].
      rewrite decide_False by lia. eexists. split; [done|].
      rewrite !andb_true_iff, !bool_decide_eq_true. split.
      + intros [[[? ?] ?] ?]. split; [by exists i0, j0|].
        intros i j Hij. specialize (Hall i j Hij). unfold Rect.contains in Hall. lia.
      + intros [_ Hin].
        pose proof (Hin _ _ Ht0). pose proof (Hin _ _ Ht1).
        pose proof (Hin _ _ Ht2). pose proof (Hin _ _ Ht3). lia. }
  exists b. split; [done|]. split.
  - rewrite Hiff. split.
    + intros (c & Hc%elem_of_seqZ & Hlead). exists c. split; [lia|done].
    + intros (c & Hc & Hlead). exists c. split; [apply elem_of_seqZ; lia|done].
  - intros Hsmall. destruct b; [|done].
    destruct (proj1 Hiff eq_refl) as (c & _ & (i & j & Hij) & Hin).
    specialize (Hin i j Hij). lia.
Qed.

Example has_isolated_spec_example :
  ∃ b, has_isolated [[[0; 1]; [1; 0]]] 2 = Ret b
       ∧ (b = true ↔
          ∃ c, 0 ≤ c < 2 ∧ (∃ i j, top_is [[[0; 1]; [1; 0]]] c i j)
               ∧ ∀ i j, top_is [[[0; 1]; [1; 0]]] c i j →
                        (0 < i < 1 - 1)%nat ∧ (0 < j < 2 - 1)%nat)
       ∧ ((1 ≤ 2)%nat ∨ (2 ≤ 2)%nat → b = false).
Proof.
  apply (has_isolated_spec [[[0; 1]; [1; 0]]] 1 2 2); try (unfold INF; lia).
  apply complete_profile_intro; [done|by_evaluation].
Defined.

(** ** Split lines: [admits_split_line] *)

(** The box of the voters led by [c] crosses the line below row [i]
    exactly when [c] leads on both sides of the line. *)
Lemma intersects_with_horizontal_straddles (g : Grid) (c : Z) (b : Rect.t) (i : nat) :
  is_bounding_box (top_is g c) b →
  Rect.intersects_with_horizontal b (Z.of_nat i) = true ↔ straddles_row g c i.
Proof.
  intros Hbox. unfold Rect.intersects_with_horizontal.
  rewrite andb_true_iff, !bool_decide_eq_true.
  destruct Hbox as [[-> Hnone]|(Hall & H0 & H1 & _)].
  - simpl. split; [unfold INF; lia|]. intros (i0 & j0 & _ & _ & Ht & _). by destruct (Hnone i0 j0).
  - split.
    + intros [Hlo Hhi]. destruct H0 as (i0 & j0 & Ht0 & E0). destruct H1 as (i1 & j1 & Ht1 & E1).
      exists i0, j0, i1, j1. split_and!; [done..|lia|lia].
    + intros (i0 & j0 & i1 & j1 & Ht0 & Ht1 & Hlo & Hhi).
      pose proof (Hall _ _ Ht0) as [? _]. pose proof (Hall _ _ Ht1) as [? _]. lia.
Qed.

Lemma intersects_with_vertical_straddles (g : Grid) (c : Z) (b : Rect.t) (j : nat) :
  is_bounding_box (top_is g c) b →
  Rect.intersects_with_vertical b (Z.of_nat j) = true ↔ straddles_col g c j.
Proof.
  intros Hbox. unfold Rect.intersects_with_vertical.
  rewrite andb_true_iff, !bool_decide_eq_true.
  destruct Hbox as [[-> Hnone]|(Hall & _ & _ & H2 & H3)].
  - simpl. split; [unfold INF; lia|]. intros (i0 & j0 & _ & _ & Ht & _). by destruct (Hnone i0 j0).
  - split.
    + intros [Hlo Hhi]. destruct H2 as (i0 & j0 & Ht0 & E0). destruct H3 as (i1 & j1 & Ht1 & E1).
      exists i0, j0, i1, j1. split_and!; [done..|lia|lia].
    + intros (i0 & j0 & i1 & j1 & Ht0 & Ht1 & Hlo & Hhi).
      pose proof (Hall _ _ Ht0) as [_ ?]. pose proof (Hall _ _ Ht1) as [_ ?]. lia.
Qed.

(** The scan of one family of lines: a line is free when no candidate
    leads on both of its sides. *)
Lemma split_line_scan (g : Grid) (C : Z) (n : nat)
    (line : Rect.t → nat → bool) (straddles : Z → nat → Prop) :
  (∀ c, ∃ b, get_dominance_box g c = Ret b ∧ ∀ k, line b k = true ↔ straddles c k) →
  ∃ found,
    any_of (seq 0 n) (λ k,
      crossed ← any_of (seqZ 0 C) (λ c, r ← get_dominance_box g c; Ret (line r k));
      Ret (negb crossed)) = Ret found
    ∧ (found = true ↔ ∃ k, (k < n)%nat ∧ ∀ c, 0 ≤ c < C → ¬ straddles c k).
Proof.
  intros Hbox.
  destruct (any_of_spec (seq 0 n) (λ k,
    crossed ← any_of (seqZ 0 C) (λ c, r ← get_dominance_box g c; Ret (line r k));
    Ret (negb crossed)) (λ k, ∀ c, 0 ≤ c < C → ¬ straddles c k)) as (found & Hfound & Hiff).
  { intros k _.
    destruct (any_of_spec (seqZ 0 C) (λ c, r ← get_dominance_box g c; Ret (line r k))
                (λ c, straddles c k)) as (crossed & -> & Hcrossed).
    { intros c _. destruct (Hbox c) as (b & -> & Hline). simpl. eexists. split; [done|].
      apply Hline. }
    simpl. eexists. split; [done|]. rewrite negb_true_iff. split.
    - intros -> c Hc Hs. assert (false = true) as [=]. apply Hcrossed.
      exists c. split; [apply elem_of_seqZ; lia|done].
    - intros Hnone. destruct crossed; [|done].
      destruct (proj1 Hcrossed eq_refl) as (c & Hc%elem_of_seqZ & Hs).
      destruct (Hnone c); [lia|done]. }
  exists found. split; [done|]. rewrite Hiff. split.
  - intros (k & Hk%elem_of_seq & Hfree). exists k. split; [lia|done].
  - intros (k & Hk & Hfree). exists k. split; [apply elem_of_seq; lia|done].
Qed.

(** X8: on a complete profile [admits_split_line] returns, and it returns
    [true] exactly when there is a line between two rows, or between two
    columns, such that no candidate below [C] leads at voters on both sides
    of it. *)
Theorem admits_split_line_spec (g : Grid) (N M : nat) (C : Z) :
  (0 < N)%nat → (0 < M)%nat → Z.of_nat N ≤ INF → Z.of_nat M ≤ INF → 0 < C →
  complete_profile g N M C →
  ∃ b, admits_split_line g C = Ret b
       ∧ (b = true ↔
          (∃ i, (i + 1 < N)%nat ∧ ∀ c, 0 ≤ c < C → ¬ straddles_row g c i)
          ∨ (∃ j, (j + 1 < M)%nat ∧ ∀ c, 0 ≤ c < C → ¬ straddles_col g c j)).
Proof.
  intros HN0 HM0 HN HM HC Hcomplete. pose proof Hcomplete as [Hshape _].
  assert (∀ c, ∃ b, get_dominance_box g c = Ret b ∧ is_bounding_box (top_is g c) b) as Hbox.
  { intros c. apply (get_dominance_box_is_bounding_box g N M c HN0 HM0 HN HM Hshape).
    intros i j p. by apply (complete_profile_nonempty g N M C). }
  unfold admits_split_line. rewrite (grid_shape_dims g N M) by done. simpl.
  destruct (split_line_scan g C (N - 1)
    (λ r k, Rect.intersects_with_horizontal r (Z.of_nat k)) (straddles_row g))
    as (horizontal & -> & Hh).
  { intros c. destruct (Hbox c) as (b & Hb & Hbb). exists b. split; [done|].
    intros k. by apply intersects_with_horizontal_straddles. }
  destruct (split_line_scan g C (M - 1)
    (λ r k, Rect.intersects_with_vertical r (Z.of_nat k)) (straddles_col g))
    as (vertical & Hvertical & Hv).
  { intros c. destruct (Hbox c) as (b & Hb & Hbb). exists b. split; [done|].
    intros k. by apply intersects_with_vertical_straddles. }
  simpl. destruct horizontal.
  - exists true. split; [done|]. split; [|done]. intros _. left.
    destruct (proj1 Hh eq_refl) as (i & Hi & Hfree). exists i. split; [lia|done].
  - exists vertical. split; [done|]. rewrite Hv. split.
    + intros (j & Hj & Hfree). right. exists j. split; [lia|done].
    + intros [(i & Hi & Hfree)|(j & Hj & Hfree)].
      * assert (false = true) as [=]. apply Hh. exists i. split; [lia|done].
      * exists j. split; [lia|done].
Qed.

Example admits_split_line_spec_example :
  ∃ b, admits_split_line [[[0; 1]; [1; 0]]] 2 = Ret b
       ∧ (b = true ↔
          (∃ i, (i + 1 < 1)%nat ∧ ∀ c, 0 ≤ c < 2 → ¬ straddles_row [[[0; 1]; [1; 0]]] c i)
          ∨ (∃ j, (j + 1 < 2)%nat ∧ ∀ c, 0 ≤ c < 2 → ¬ straddles_col [[[0; 1]; [1; 0]]] c j)).
Proof.
  apply (admits_split_line_spec [[[0; 1]; [1; 0]]] 1 2 2); try (unfold INF; lia).
  apply complete_profile_intro; [done|by_evaluation].
Defined.

(** ** The two tests of hypothesis 1 exclude each other *)

(** X9: a profile on which [is_monodominated] returns [true] admits no split
    line (there being a candidate): the dominance box of candidate 0 is the
    whole grid and crosses every line, and no other box is looked at. *)
Theorem is_monodominated_no_split_line (g : Grid) (C : Z) :
  0 < C → is_monodominated g = Ret true → admits_split_line g C = Ret false.
Proof.
  intros HC. unfold is_monodominated, admits_split_line.
  destruct (dims g) as [[N M]|e]; simpl; [|done].
  destruct (get_dominance_box g 0) as [[x0 x1 y0 y1]|e] eqn:Hbox; simpl; [|done].
  intros [= Hmono]. rewrite !andb_true_iff, !bool_decide_eq_true in Hmono.
  destruct Hmono as [[[-> ->] ->] ->].
  assert (∀ (n : nat) (line : Rect.t → nat → bool),
    (∀ k, (k < n)%nat → line (Rect.mk 0 (Z.of_nat N - 1) 0 (Z.of_nat M - 1)) k = true) →
    any_of (seq 0 n) (λ k,
      crossed ← any_of (seqZ 0 C) (λ c, r ← get_dominance_box g c; Ret (line r k));
      Ret (negb crossed)) = Ret false) as Hscan.
  { intros n line Hline. apply any_of_Ret_false. intros k Hk%elem_of_seq.
    rewrite (seqZ_cons 0 C) by lia. simpl. rewrite Hbox. simpl.
    by rewrite Hline by lia. }
  rewrite (Hscan (N - 1)%nat (λ r k, Rect.intersects_with_horizontal r (Z.of_nat k))).
  - simpl. apply (Hscan (M - 1)%nat (λ r k, Rect.intersects_with_vertical r (Z.of_nat k))).
    intros k Hk. unfold Rect.intersects_with_vertical. simpl.
    rewrite !bool_decide_eq_true_2 by lia. done.
  - intros k Hk. unfold Rect.intersects_with_horizontal. simpl.
    rewrite !bool_decide_eq_true_2 by lia. done.
Qed.

Example is_monodominated_no_split_line_example :
  admits_split_line [[[0; 1]; [0; 1]]; [[0; 1]; [0; 1]]] 2 = Ret false.
Proof.
  apply is_monodominated_no_split_line; [lia|reflexivity].
Defined.

(** ** The crossing count is a distance *)

Lemma sum_list_with_add {A} (f g : A → nat) (l : list A) :
  sum_list_with (λ x, f x + g x)%nat l = (sum_list_with f l + sum_list_with g l)%nat.
Proof. induction l as [|x l IH]; simpl; lia. Qed.

Lemma sum_list_with_mul {A} (k : nat) (f : A → nat) (l : list A) :
  sum_list_with (λ x, k * f x)%nat l = (k * sum_list_with f l)%nat.
Proof. induction l as [|x l IH]; simpl; lia. Qed.

Lemma crossed_xorb (p0 p1 p2 : Pref) (a b : Z) :
  crossed p0 p2 a b = xorb (crossed p0 p1 a b) (crossed p1 p2 a b).
Proof.
  unfold crossed.
  by destruct (bool_decide (rank p0 a < rank p0 b)), (bool_decide (rank p1 a < rank p1 b)),
    (bool_decide (rank p2 a < rank p2 b)).
Qed.

(** Going from [p0] to [p2] by way of [p1] crosses every pair that [p0] and
    [p2] order differently once, and the pairs that [p1] orders against
    both twice. *)
Lemma crossings_detours (p0 p1 p2 : Pref) (C : Z) :
  (crossings p0 p1 C + crossings p1 p2 C = crossings p0 p2 C + 2 * detours p0 p1 p2 C)%nat.
Proof.
  unfold crossings, detours.
  rewrite <- sum_list_with_mul, <- !sum_list_with_add.
  apply sum_list_with_ext. intros c0 _.
  rewrite <- sum_list_with_mul, <- !sum_list_with_add.
  apply sum_list_with_ext. intros c1 _.
  rewrite (crossed_xorb p0 p1 p2).
  by destruct (crossed p0 p1 c0 c1), (crossed p1 p2 c0 c1).
Qed.

(** X10: on permutations of [0..C-1] the count of [cnt_crosses] obeys the
    triangle inequality, and the two sides differ by an even number: twice
    the number of pairs that the list in the middle orders against both
    ends. *)
Theorem cnt_crosses_triangle (p0 p1 p2 : Pref) (C : Z) :
  0 ≤ C → C * (C - 1) / 2 ≤ INF →
  p0 ≡ₚ seqZ 0 C → p1 ≡ₚ seqZ 0 C → p2 ≡ₚ seqZ 0 C →
  ∃ a b c,
    cnt_crosses p0 p1 C = Ret a ∧ cnt_crosses p1 p2 C = Ret b ∧ cnt_crosses p0 p2 C = Ret c
    ∧ c ≤ a + b
    ∧ a + b - c = 2 * Z.of_nat (detours p0 p1 p2 C).
Proof.
  intros HC Hmax Hp0 Hp1 Hp2.
  assert (∀ q0 q1, Z.of_nat (crossings q0 q1 C) ≤ INF) as Hfits.
  { intros q0 q1. pose proof (crossings_le q0 q1 C HC).
    etrans; [|exact Hmax]. apply Z.div_le_lower_bound; lia. }
  exists (Z.of_nat (crossings p0 p1 C)), (Z.of_nat (crossings p1 p2 C)),
    (Z.of_nat (crossings p0 p2 C)).
  pose proof (crossings_detours p0 p1 p2 C).
  split_and!; [by apply cnt_crosses_crossings..|lia|lia].
Qed.

Example cnt_crosses_triangle_example :
  ∃ a b c,
    cnt_crosses [0; 1; 2] [1; 0; 2] 3 = Ret a ∧ cnt_crosses [1; 0; 2] [0; 2; 1] 3 = Ret b
    ∧ cnt_crosses [0; 1; 2] [0; 2; 1] 3 = Ret c
    ∧ c ≤ a + b
    ∧ a + b - c = 2 * Z.of_nat (detours [0; 1; 2] [1; 0; 2] [0; 2; 1] 3).
Proof.
  apply (cnt_crosses_triangle [0; 1; 2] [1; 0; 2] [0; 2; 1] 3); [lia|by_evaluation|..];
    by_evaluation.
Defined.

(** ** What [cnt_crosses] requires of its arguments *)

(** A loop that returns has kept its invariant, and its body has returned
    at every element. *)
Lemma for_each_Ret_inv {A St} (I : St → Prop) (Q : A → Prop) (l : list A) (body : A → St → res St) :
  (∀ x a a', x ∈ l → I a → body x a = Ret a' → I a' ∧ Q x) →
  ∀ s t, I s → for_each l body s = Ret t → I t ∧ ∀ x, x ∈ l → Q x.
Proof.
  induction l as [|x l IH]; intros Hbody s t Hs; simpl.
  - intros [= <-]. split; [done|]. by intros x Hx%elem_of_nil.
  - intros (a & Ha & Hrest)%bind_Ret.
    destruct (Hbody x s a ltac:(left) Hs Ha) as [Ia Qx].
    destruct (IH (λ y b b' Hy, Hbody y b b' (list_elem_of_further _ _ _ Hy)) a t Ia Hrest)
      as [It Hall].
    split; [done|]. intros y [->|Hy]%elem_of_cons; [done|by apply Hall].
Qed.

(** A loop that adds at most [w x] for each [x] returns, as long as the
    sum of the bounds stays in the range of [int]. *)
Lemma for_each_bounded {A} (w : A → nat) (l : list A) (body : A → Z → res Z) (s : Z) :
  (∀ x a, x ∈ l → 0 ≤ a → a + Z.of_nat (w x) ≤ INF →
          ∃ a', body x a = Ret a' ∧ a ≤ a' ≤ a + Z.of_nat (w x)) →
  0 ≤ s → s + Z.of_nat (sum_list_with w l) ≤ INF →
  ∃ t, for_each l body s = Ret t ∧ s ≤ t ≤ s + Z.of_nat (sum_list_with w l).
Proof.
  revert s. induction l as [|x l IH]; intros s Hbody Hs Hsum; simpl in *.
  - exists s. split; [done|]. lia.
  - destruct (Hbody x s ltac:(left) Hs ltac:(lia)) as (a & -> & Ha). simpl.
    destruct (IH a) as (t & -> & Ht); [|lia|lia|].
    + intros y b Hy. apply Hbody. by right.
    + exists t. split; [done|]. lia.
Qed.

Lemma store_int_Ret {A} (v v' : list A) (k : Z) (x : A) :
  store_int v k x = Ret v' ↔ 0 ≤ k ∧ (Z.to_nat k < length v)%nat ∧ v' = <[Z.to_nat k := x]> v.
Proof.
  unfold store_int. case_decide; [rewrite store_Ret; tauto|].
  split; [done|]. by intros [? _].
Qed.

Lemma at_int_Ret_lt {A} (v : list A) (k : Z) :
  0 ≤ k → (Z.to_nat k < length v)%nat → ∃ x, at_int v k = Ret x.
Proof.
  intros Hk Hlt. unfold at_int. rewrite decide_True by done.
  destruct (lookup_lt_is_Some_2 v (Z.to_nat k) Hlt) as [x Hx]. exists x. by apply at_Ret.
Qed.

Lemma sum_list_with_1 {A} (l : list A) : sum_list_with (λ _, 1%nat) l = length l.
Proof. induction l; simpl; lia. Qed.

Lemma sum_pairs_below (C : Z) :
  0 ≤ C →
  2 * Z.of_nat (sum_list_with (λ c0, Z.to_nat (C - (c0 + 1))) (seqZ 0 C)) = C * (C - 1).
Proof.
  intros HC. pose proof (sum_pairs (Z.to_nat C) 0) as Hsum.
  rewrite !Z2Nat.id in Hsum by done. by rewrite <- Hsum.
Qed.

(** X11: [cnt_crosses] does not look at its arguments beyond their first [C]
    entries and does not test that they are permutations: (with
    [C (C - 1) / 2] in the range of [int]) it returns a count exactly when
    [C] is not negative and the first [C] entries of both lists exist and
    are candidates below [C].  Otherwise it sizes a vector by a negative
    number or indexes one out of range. *)
Theorem cnt_crosses_returns (p0 p1 : Pref) (C : Z) :
  C * (C - 1) / 2 ≤ INF →
  (∃ n, cnt_crosses p0 p1 C = Ret n) ↔ 0 ≤ C ∧ indexable p0 C ∧ indexable p1 C.
Proof.
  intros Hmax. unfold cnt_crosses. case_decide as HC.
  { split; [by intros [n [=]]|]. intros [? _]. lia. }
  split.
  - intros (n & ([inv0 inv1] & Hinv & _)%bind_Ret). split; [lia|].
    apply (for_each_Ret_inv
      (λ s : list Z * list Z, length s.1 = Z.to_nat C ∧ length s.2 = Z.to_nat C)
      (λ i, ∃ x0 x1, p0 !! i = Some x0 ∧ p1 !! i = Some x1 ∧ 0 ≤ x0 < C ∧ 0 ≤ x1 < C))
      in Hinv as [_ Hall].
    + split; intros i Hi; destruct (Hall i) as (x0 & x1 & ? & ? & ? & ?);
        [apply elem_of_seq; lia|by exists x0|apply elem_of_seq; lia|by exists x1].
    + intros i [a0 a1] [a0' a1'] _ [Hl0 Hl1].
      intros (x0 & Hx0%at_Ret & (x1 & Hx1%at_Ret & Hrest)%bind_Ret)%bind_Ret.
      apply bind_Ret in Hrest as (b1 & (? & Hk1 & ->)%store_int_Ret & Hrest).
      apply bind_Ret in Hrest as (b0 & (? & Hk0 & ->)%store_int_Ret & [= <- <-]).
      simpl in *. rewrite !length_insert. split; [done|].
      exists x0, x1. split_and!; (done || lia).
    + simpl. by rewrite length_replicate.
  - intros (_ & Hp0 & Hp1).
    destruct (for_each_seq_inv
      (λ _ (s : list Z * list Z), length s.1 = Z.to_nat C ∧ length s.2 = Z.to_nat C)
      (Z.to_nat C)
      (λ i '(inv_p0, inv_p1),
         x0 ← at_ p0 i; x1 ← at_ p1 i;
         inv_p1' ← store_int inv_p1 x1 (Z.of_nat i);
         inv_p0' ← store_int inv_p0 x0 (Z.of_nat i);
         Ret (inv_p0', inv_p1'))
      (replicate (Z.to_nat C) 0, replicate (Z.to_nat C) 0))
      as ([inv0 inv1] & -> & Hl0 & Hl1).
    + simpl. by rewrite length_replicate.
    + intros i [a0 a1] Hi [Ha0 Ha1]. simpl in *.
      destruct (Hp0 i Hi) as (x0 & Hx0 & ?). destruct (Hp1 i Hi) as (x1 & Hx1 & ?).
      rewrite (proj2 (at_Ret p0 i x0) Hx0), (proj2 (at_Ret p1 i x1) Hx1). simpl.
      rewrite (proj2 (store_int_Ret a1 _ x1 (Z.of_nat i))) by (split_and!; (done || lia)).
      simpl.
      rewrite (proj2 (store_int_Ret a0 _ x0 (Z.of_nat i))) by (split_and!; (done || lia)).
      simpl. eexists. split; [done|]. simpl. by rewrite !length_insert.
    + simpl in *. pose proof (sum_pairs_below C ltac:(lia)) as Hsum.
      destruct (for_each_bounded (λ c0, Z.to_nat (C - (c0 + 1))) (seqZ 0 C)
        (λ c0 ans, for_each (seqZ (c0 + 1) (C - (c0 + 1))) (λ c1 ans,
           a0 ← at_int inv0 c0; a1 ← at_int inv0 c1;
           b0 ← at_int inv1 c0; b1 ← at_int inv1 c1;
           int_add ans (if xorb (bool_decide (a0 < a1)) (bool_decide (b0 < b1)) then 1 else 0))
           ans) 0) as (n & -> & _); [|done| |by eexists].
      * intros c0 a Hc0%elem_of_seqZ Ha Hrow.
        rewrite <- (length_seqZ (c0 + 1)), <- sum_list_with_1 in Hrow |- *.
        apply for_each_bounded; [|done..].
        intros c1 a' Hc1%elem_of_seqZ Ha' Hadd.
        destruct (at_int_Ret_lt inv0 c0) as [a0 ->]; [lia..|].
        destruct (at_int_Ret_lt inv0 c1) as [a1 ->]; [lia..|].
        destruct (at_int_Ret_lt inv1 c0) as [b0 ->]; [lia..|].
        destruct (at_int_Ret_lt inv1 c1) as [b1 ->]; [lia..|].
        simpl. destruct (xorb _ _); rewrite int_add_Ret by lia;
          (eexists; split; [done|lia]).
      * assert (Z.of_nat (sum_list_with (λ c0, Z.to_nat (C - (c0 + 1))) (seqZ 0 C))
                ≤ C * (C - 1) / 2); [|lia].
        apply Z.div_le_lower_bound; lia.
Qed.

Example cnt_crosses_returns_example :
  (∃ n, cnt_crosses [0; 0; 7] [1; 1] 2 = Ret n)
  ∧ 0 ≤ 2 ∧ indexable [0; 1] 2 ∧ indexable [1; 0] 2.
Proof.
  split.
  - apply (cnt_crosses_returns [0; 0; 7] [1; 1] 2); [by_evaluation|].
    split; [lia|].
    split; intros [|[|i]] Hi; try (simpl in Hi; lia); (eexists; split; [reflexivity|lia]).
  - apply (cnt_crosses_returns [0; 1] [1; 0] 2); [by_evaluation|]. by eexists.
Defined.

(** ** Fast crossings: [grid_has_fast_cross] *)

(** The test made on two voters of the grid. *)
Lemma fast_cross_spec (g : Grid) (N M : nat) (C : Z) (i j i' j' : nat) :
  0 ≤ C → C * (C - 1) / 2 ≤ INF → grid_shape g N M →
  (∀ i j p, holds g i j p → p = EmptyProf ∨ p ≡ₚ seqZ 0 C) →
  (i < N)%nat → (j < M)%nat → (i' < N)%nat → (j' < M)%nat →
  ∃ t, fast_cross g C i j i' j' = Ret t ∧ (t = true ↔ fast_pair g C i j i' j').
Proof.
  intros HC Hmax Hshape Hcells Hi Hj Hi' Hj'.
  destruct (grid_shape_holds g N M i j Hshape Hi Hj) as [p Hp].
  destruct (grid_shape_holds g N M i' j' Hshape Hi' Hj') as [q Hq].
  assert (∀ p' q', holds g i j p' → holds g i' j' q' → p' = p ∧ q' = q) as Hsame.
  { unfold holds in *. intros p' q' ? ?. split; congruence. }
  unfold fast_cross. rewrite Hp. simpl. case_decide as Hpe.
  { exists false. split; [done|]. split; [done|].
    intros (p' & q' & Hp' & Hq' & Hne & _). by destruct (Hsame p' q' Hp' Hq') as [-> _]. }
  rewrite Hq. simpl. case_decide as Hqe.
  { exists false. split; [done|]. split; [done|].
    intros (p' & q' & Hp' & Hq' & _ & Hne & _). by destruct (Hsame p' q' Hp' Hq') as [_ ->]. }
  destruct (Hcells i j p Hp) as [?|Hperm0]; [done|].
  destruct (Hcells i' j' q Hq) as [?|Hperm1]; [done|].
  rewrite (cnt_crosses_crossings p q C); [|done..|].
  - simpl. eexists. split; [done|]. rewrite bool_decide_eq_true. split.
    + intros Hgt. exists p, q. split_and!; [done..|lia].
    + intros (p' & q' & Hp' & Hq' & _ & _ & Hgt).
      destruct (Hsame p' q' Hp' Hq') as [-> ->]. lia.
  - pose proof (crossings_le p q C HC).
    etrans; [|exact Hmax]. apply Z.div_le_lower_bound; lia.
Qed.

(** X12: on a profile whose assigned voters hold permutations of [0..C-1] (with
    [C (C - 1) / 2] in the range of [int]) [grid_has_fast_cross] returns,
    and it returns [true] exactly when two neighbours in the grid, one
    below or to the right of the other, are both assigned and order more
    than one pair of candidates differently. *)
Theorem grid_has_fast_cross_spec (g : Grid) (N M : nat) (C : Z) :
  (0 < N)%nat → (0 < M)%nat → 0 ≤ C → C * (C - 1) / 2 ≤ INF →
  grid_shape g N M →
  (∀ i j p, holds g i j p → p = EmptyProf ∨ p ≡ₚ seqZ 0 C) →
  ∃ b, grid_has_fast_cross g C = Ret b
       ∧ (b = true ↔ ∃ i j i' j', adjacent i j i' j' ∧ fast_pair g C i j i' j').
Proof.
  intros HN0 HM0 HC Hmax Hshape Hcells.
  unfold grid_has_fast_cross. rewrite (grid_shape_dims g N M) by done. simpl.
  destruct (any_of_spec (seq 0 (N - 1))
    (λ i, any_of (seq 0 M) (λ j, fast_cross g C i j (i + 1) j))
    (λ i, ∃ j, (j < M)%nat ∧ fast_pair g C i j (i + 1) j)) as (vertical & -> & Hv).
  { intros i Hi%elem_of_seq.
    destruct (any_of_spec (seq 0 M) (λ j, fast_cross g C i j (i + 1) j)
                (λ j, fast_pair g C i j (i + 1) j)) as (t & -> & Ht).
    { intros j Hj%elem_of_seq. apply (fast_cross_spec g N M); (done || lia). }
    exists t. split; [done|]. rewrite Ht.
    split; intros (j & Hj & Hfast); exists j; (split; [|done]);
      [by apply elem_of_seq in Hj as [_ ?]|apply elem_of_seq; lia]. }
  destruct (any_of_spec (seq 0 N)
    (λ i, any_of (seq 0 (M - 1)) (λ j, fast_cross g C i j i (j + 1)))
    (λ i, ∃ j, (j + 1 < M)%nat ∧ fast_pair g C i j i (j + 1))) as (horizontal & Hh & Hh').
  { intros i Hi%elem_of_seq.
    destruct (any_of_spec (seq 0 (M - 1)) (λ j, fast_cross g C i j i (j + 1))
                (λ j, fast_pair g C i j i (j + 1))) as (t & -> & Ht).
    { intros j Hj%elem_of_seq. apply (fast_cross_spec g N M); (done || lia). }
    exists t. split; [done|]. rewrite Ht.
    split; intros (j & Hj & Hfast); exists j; (split; [|done]);
      [apply elem_of_seq in Hj; lia|apply elem_of_seq; lia]. }
  assert (∀ i j i' j', fast_pair g C i j i' j' → (i' < N)%nat ∧ (j' < M)%nat) as Hin.
  { intros i j i' j' (p & q & _ & Hq & _). by apply (grid_shape_holds_lt g N M i' j' q). }
  simpl. destruct vertical.
  - exists true. split; [done|]. split; [|done]. intros _.
    destruct (proj1 Hv eq_refl) as (i & _ & j & _ & Hfast).
    exists i, j, (i + 1)%nat, j. split; [left; lia|done].
  - exists horizontal. split; [done|]. rewrite Hh'. split.
    + intros (i & _ & j & _ & Hfast). exists i, j, i, (j + 1)%nat. split; [right; lia|done].
    + intros (i & j & i' & j' & [[-> ->]|[-> ->]] & Hfast);
        destruct (Hin _ _ _ _ Hfast) as [? ?]; rewrite <- Nat.add_1_r in Hfast.
      * assert (false = true) as [=]. apply Hv. exists i. split; [apply elem_of_seq; lia|].
        exists j. by split.
      * exists i. split; [apply elem_of_seq; lia|]. exists j. split; [lia|done].
Qed.

Example grid_has_fast_cross_spec_example :
  ∃ b, grid_has_fast_cross [[[0; 1; 2]; []]; [[2; 1; 0]; [2; 1; 0]]] 3 = Ret b
       ∧ (b = true ↔ ∃ i j i' j', adjacent i j i' j'
            ∧ fast_pair [[[0; 1; 2]; []]; [[2; 1; 0]; [2; 1; 0]]] 3 i j i' j').
Proof.
  apply (grid_has_fast_cross_spec _ 2 2 3); try lia.
  - by_evaluation.
  - split; [reflexivity|]. repeat constructor.
  - intros i j p Hp. unfold holds in Hp.
    destruct i as [|[|i]]; [| |discriminate Hp];
      (destruct j as [|[|j]]; [| |discriminate Hp]); injection Hp as <-;
      (by left) || (right; by_evaluation).
Defined.

(** ** What the loop at a cell hands on *)

Section perm_loop_outcomes.
Context (body : Grid → run Grid) (r c : nat).
Hypothesis body_restores :
  ∀ g g', unassigned_from g r (c + 1) → result (body g) = Done g' → g' = g.

(** A loop that returns has run the recursive call, to its return, on
    every arrangement that the enumerator visits. *)
Lemma perm_loop_rounds :
  ¬ (r = 0%nat ∧ c = 0%nat) →
  ∀ p L e, enumerates p L e →
  ∀ fuel g g', unassigned_from g r (c + 1) → holds g r c p →
    result (perm_loop fuel body r c g) = Done g' →
    ∀ q, q ∈ L →
      ∃ gq gq', set_cell g r c q = Ret gq ∧ result (body gq) = Done gq'
                ∧ ∀ ev, ev ∈ trace (body gq) → ev ∈ trace (perm_loop fuel body r c g).
Proof.
  intros Hfree p L e Henum.
  induction Henum as [p e Hlast|p p' L e Hnext _ IH]; intros fuel g g' Hg Hp;
    (destruct fuel as [|fuel]; [done|]);
    rewrite perm_loop_unfold; cbv zeta;
    destruct (result (body g)) as [g1|?|?|] eqn:Hg1; try done;
    pose proof Hg1 as Hbody;
    apply (body_restores g g1 Hg) in Hg1 as ->;
    rewrite bool_decide_eq_false_2 by done;
    pose proof Hp as Hp'; unfold holds in Hp'; rewrite Hp';
    destruct (set_cell g r c (next_permutation p).2) as [g2|] eqn:Hg2; try done.
  - rewrite Hlast. simpl. intros _ q ->%list_elem_of_singleton.
    exists g, g. split_and!; [by apply set_cell_holds|done|done].
  - rewrite Hnext in *. simpl in *. intros Hdone q [->|Hq]%elem_of_cons.
    + exists g, g. split_and!; [by apply set_cell_holds|done|].
      intros ev Hev. apply elem_of_app. by left.
    + destruct (IH fuel g2 g' (unassigned_from_set_cell _ _ _ _ _ Hg Hg2)
                  (set_cell_holds_eq _ _ _ _ _ Hg2) Hdone q Hq)
        as (gq & gq' & Hset & Hres & Hsub).
      exists gq, gq'. split_and!; [by eapply set_cell_set_cell|done|].
      intros ev Hev. apply elem_of_app. right. by apply Hsub.
Qed.


End perm_loop_outcomes.

(** An exit comes from a recursive call and ends the loop at once. *)
Lemma perm_loop_exited (body : Grid → run Grid) (r c : nat) (Q : Grid → Prop) :
  (∀ g s, result (body g) = Exited s → Q s ∧ last (trace (body g)) = Some (Leaf s)) →
  ∀ fuel g s, result (perm_loop fuel body r c g) = Exited s →
    Q s ∧ last (trace (perm_loop fuel body r c g)) = Some (Leaf s).
Proof.
  intros Hbody fuel. induction fuel as [|fuel IH]; intros g s; [done|].
  rewrite perm_loop_unfold. cbv zeta. pose proof (Hbody g) as Hg.
  destruct (result (body g)) as [g1|e|shown|]; [|done|by intros [= <-]; apply Hg|done].
  case_bool_decide; [done|].
  destruct (cell g1 r c) as [p|e]; [|done].
  destruct (set_cell g1 r c (next_permutation p).2) as [g2|e]; [|done].
  destruct (next_permutation p).1; [|done]. simpl.
  intros [HQ Hlast]%IH. split; [done|]. by rewrite last_app, Hlast.
Qed.

(** ** A shown profile is a counterexample *)

Lemma backtr_exited (C : Z) (fuel : nat) (g : Grid) (r c : nat) (s : Grid) :
  result (backtr fuel g C r c) = Exited s →
  (grid_valid s C = Ret true ∧ admits_split_line s C = Ret false
   ∧ is_monodominated s = Ret false)
  ∧ last (trace (backtr fuel g C r c)) = Some (Leaf s).
Proof.
  revert g r c s. induction fuel as [|fuel IH]; intros g r c s; [done|].
  rewrite backtr_unfold.
  destruct (dims g) as [[N M]|]; [|done].
  destruct (grid_valid g C) as [[]|] eqn:Hvalid; [|done..].
  case_bool_decide as Hleaf.
  { simpl. destruct (admits_split_line g C) as [[]|] eqn:Hsplit; [done| |done].
    destruct (is_monodominated g) as [[]|] eqn:Hmono; [done| |done]. by intros [= <-]. }
  case_bool_decide as Hrow.
  { simpl. intros [HQ Hlast]%IH. split; [done|]. by rewrite last_cons, Hlast. }
  destruct (cell g r c); [|done]. destruct (iota C); [|done].
  destruct (set_cell g r c _) as [g1|]; [|done]. simpl.
  destruct (result (perm_loop fuel _ r c g1)) as [g2|e|shown|] eqn:Hloop; simpl;
    [by destruct (set_cell g2 r c EmptyProf)|done| |done].
  intros [= ->].
  apply (perm_loop_exited _ r c
    (λ s, grid_valid s C = Ret true ∧ admits_split_line s C = Ret false
          ∧ is_monodominated s = Ret false)) in Hloop as [HQ Hlast];
    [|intros g' s'; apply IH].
  split; [done|]. by rewrite last_cons, Hlast.
Qed.

(** X13: whatever grid and cursor [backtr] is called with, it ends the program
    by [exit(1)] only with a profile that passed [grid_valid] and failed
    both tests of hypothesis 1, and the leaf of that profile is the last
    thing the run did. *)
Theorem backtr_exit_sound (C : Z) (fuel : nat) (g : Grid) (r c : nat) (s : Grid) :
  result (backtr fuel g C r c) = Exited s →
  grid_valid s C = Ret true
  ∧ admits_split_line s C = Ret false
  ∧ is_monodominated s = Ret false
  ∧ last (trace (backtr fuel g C r c)) = Some (Leaf s).
Proof. intros [(? & ? & ?) ?]%backtr_exited. done. Qed.

Example backtr_exit_sound_example :
  grid_valid [[[1; 0]; [1; 0]]] 2 = Ret true
  ∧ admits_split_line [[[1; 0]; [1; 0]]] 2 = Ret false
  ∧ is_monodominated [[[1; 0]; [1; 0]]] = Ret false
  ∧ last (trace (backtr 9 [[[1; 0]; []]] 2 0 1)) = Some (Leaf [[[1; 0]; [1; 0]]]).
Proof.
  apply (backtr_exit_sound 2 9 [[[1; 0]; []]] 0 1). vm_compute. reflexivity.
Defined.

(** ** The search raises nothing *)






(** ** A search that returns has tested every valid profile *)

Lemma grid_eq_of_cells (g h : Grid) (N M : nat) :
  grid_shape g N M → grid_shape h N M →
  (∀ i j p, holds g i j p → holds h i j p) → g = h.
Proof.
  intros [HgN Hg] [HhN Hh] Hcells. apply list_eq. intros i.
  destruct (g !! i) as [row|] eqn:Hrow.
  - assert (i < length h)%nat as Hi by (apply lookup_lt_Some in Hrow; lia).
    destruct (lookup_lt_is_Some_2 h i Hi) as [row' Hrow']. rewrite Hrow'. f_equal.
    rewrite Forall_lookup in Hg, Hh.
    pose proof (Hg i row Hrow) as Hlen. pose proof (Hh i row' Hrow') as Hlen'. simpl in *.
    apply list_eq. intros j.
    destruct (row !! j) as [p|] eqn:Hp.
    + assert (holds h i j p) as (row'' & Hr & Hp')%cell_Ret.
      { apply Hcells. apply cell_Ret. by exists row. }
      congruence.
    + apply lookup_ge_None in Hp. symmetry. apply lookup_ge_None. lia.
  - apply lookup_ge_None in Hrow. symmetry. apply lookup_ge_None. lia.
Qed.

(** A state of the search on the way to [h] is [h] with the cells from the
    cursor on unassigned. *)
Lemma search_inv_restricts (N M : nat) (C : Z) (g h : Grid) (r c : nat) :
  (0 < N)%nat → (0 < M)%nat → search_inv N M C g r c → grid_shape h N M →
  agrees_before g h r c → restricts g h.
Proof.
  intros HN0 HM0 (Hshape & _ & _ & _ & Hun) Hshape' Hagree. split.
  - by rewrite (grid_shape_dims g N M), (grid_shape_dims h N M).
  - intros i j q Hq.
    destruct (grid_shape_holds_lt h N M i j q Hshape' Hq) as [Hi Hj].
    destruct (grid_shape_holds g N M i j Hshape Hi Hj) as [p Hp].
    destruct (decide (before i j r c)) as [Hb|Hb].
    + left. pose proof (Hagree i j p Hp Hb) as Hq'. unfold holds in *. congruence.
    + right. by rewrite <- (Hun i j p Hp Hb).
Qed.

Lemma agrees_before_assign (g g' h : Grid) (r c : nat) (q : Pref) :
  agrees_before g h r c → set_cell g r c q = Ret g' → holds h r c q →
  agrees_before g' h r (c + 1).
Proof.
  intros Hagree Hset Hq i j p Hp Hb. unfold holds in Hp.
  rewrite (set_cell_cell _ _ _ _ _ i j Hset) in Hp.
  case_decide as Hij; [destruct Hij as [-> ->]; by injection Hp as <-|].
  apply (Hagree i j p Hp). unfold before in *. lia.
Qed.

(** A call that returns, entered on the way to a valid complete profile
    [h] whose first voter holds the identity, has reached [h] as a leaf and
    found it to pass one of the two tests. *)
Lemma backtr_visits (N M : nat) (C : Z) (h : Grid) :
  complete_profile h N M C → holds h 0 0 (seqZ 0 C) → grid_valid h C = Ret true →
  ∀ fuel g r c g', search_inv N M C g r c → agrees_before g h r c →
    result (backtr fuel g C r c) = Done g' →
    Leaf h ∈ trace (backtr fuel g C r c)
    ∧ (admits_split_line h C = Ret true ∨ is_monodominated h = Ret true).
Proof.
  intros Hcomplete Hfirst Hvalid. pose proof Hcomplete as [Hshape' Hperm'].
  induction fuel as [|fuel IH]; intros g r c g' Hg Hagree; [done|].
  rewrite backtr_unfold.
  pose proof Hg as (Hshape & Hpos & Hperm & Hid & Hun).
  destruct (dims g) as [[N' M']|] eqn:Hdims; [|done].
  destruct (dims_grid_shape g N M N' M' Hshape Hdims) as (-> & -> & HN0 & HM0).
  rewrite (grid_valid_restricts g h C (search_inv_restricts N M C g h r c HN0 HM0 Hg Hshape' Hagree)
             Hvalid).
  case_bool_decide as Hleaf.
  { subst r. assert (g = h) as ->.
    { apply (grid_eq_of_cells g h N M); [done..|]. intros i j p Hp. apply (Hagree i j p Hp).
      destruct (grid_shape_holds_lt g N M i j p Hshape Hp). unfold before. lia. }
    simpl. split; [apply elem_of_cons; right; apply elem_of_cons; by left|].
    destruct (admits_split_line h C) as [[]|]; [by left| |done].
    destruct (is_monodominated h) as [[]|]; [by right|done..]. }
  case_bool_decide as Hrow.
  { subst c. simpl. intros Hdone.
    destruct (IH g (r + 1)%nat 0%nat g') as [Hin Hpass]; [|  |done|].
    - apply search_inv_next_row; [lia|done].
    - intros i j p Hp Hb. apply (Hagree i j p Hp).
      destruct (grid_shape_holds_lt g N M i j p Hshape Hp). unfold before in *. lia.
    - split; [by apply elem_of_cons; right|done]. }
  assert (r < N)%nat as Hr by lia. assert (c < M)%nat as Hc by lia.
  destruct (cell g r c) as [p0|] eqn:Hp0; [|done].
  destruct (iota C) as [p|] eqn:Hiota; [|done]. apply iota_Ret in Hiota as ->.
  destruct (set_cell g r c (seqZ 0 C)) as [g1|] eqn:Hg1; [|done]. simpl.
  destruct (result (perm_loop fuel _ r c g1)) as [g2|?|?|] eqn:Hg2; [|done..].
  intros _.
  assert (unassigned_from g1 r (c + 1)) as Hun1.
  { eapply unassigned_from_set_cell; [|done]. by apply unassigned_from_next_col. }
  destruct (grid_shape_holds h N M r c Hshape' Hr Hc) as [q Hq].
  (* the round of the loop in which the cell holds what [h] holds *)
  assert (∃ gq gq', set_cell g1 r c q = Ret gq
            ∧ result (backtr fuel gq C r (c + 1)) = Done gq'
            ∧ ∀ ev, ev ∈ trace (backtr fuel gq C r (c + 1)) →
                    ev ∈ trace (perm_loop fuel (λ g', backtr fuel g' C r (c + 1)) r c g1))
    as (gq & gq' & Hset & Hres & Hsub).
  { destruct (decide (r = 0%nat ∧ c = 0%nat)) as [[-> ->]|Hfree].
    - assert (q = seqZ 0 C) as -> by (unfold holds in *; congruence).
      destruct fuel as [|fuel']; [done|].
      rewrite perm_loop_unfold in Hg2 |- *. cbv zeta in *.
      destruct (result (backtr (S fuel') g1 C 0 (0 + 1))) as [g1'|?|?|] eqn:Hbody; [|done..].
      rewrite bool_decide_eq_true_2 in Hg2 |- * by done.
      exists g1, g1'. split_and!; [|done|done].
      apply set_cell_holds. by eapply set_cell_holds_eq.
    - destruct (enumerates_iota C) as (L & Henum & _ & Hmem & _).
      apply (perm_loop_rounds (λ g', backtr fuel g' C r (c + 1)) r c
               (λ a a' Ha, backtr_restores fuel a C r (c + 1) a' Ha) Hfree
               (seqZ 0 C) L (seqZ 0 C) Henum fuel g1 g2 Hun1
               (set_cell_holds_eq _ _ _ _ _ Hg1) Hg2).
      apply Hmem. by apply (Hperm' r c). }
  pose proof (set_cell_set_cell _ _ _ _ _ _ _ Hg1 Hset) as Hset'.
  destruct (IH gq r (c + 1)%nat gq') as [Hin Hpass]; [| |done|].
  - apply (search_inv_assign N M C g gq r c q); try done.
    + by apply unassigned_from_next_col.
    + by apply (Hperm' r c).
    + intros [-> ->]. unfold holds in *. congruence.
  - by apply (agrees_before_assign g gq h r c q).
  - split; [|done]. apply elem_of_cons. right. by apply Hsub.
Qed.

(** X15: a search of [main] that returns has tested every profile in its scope:
    every complete [N] by [M] profile over [0..C-1] that passes
    [grid_valid] and whose first voter holds the identity is a leaf of the
    run, and admits a split line or is monodominated.  When the program
    returns 0, hypothesis 1 holds of them all. *)
Theorem search_exhaustive (N M : nat) (C : Z) (fuel : nat) (g0 h : Grid) :
  result (main_with fuel N M C) = Done g0 →
  complete_profile h N M C → holds h 0 0 (seqZ 0 C) → grid_valid h C = Ret true →
  Leaf h ∈ trace (main_with fuel N M C)
  ∧ (admits_split_line h C = Ret true ∨ is_monodominated h = Ret true).
Proof.
  intros Hdone Hcomplete Hfirst Hvalid.
  apply (backtr_visits N M C h Hcomplete Hfirst Hvalid fuel _ 0 0 g0); [|  |done].
  - apply search_inv_initial.
  - intros i j p _ Hb. unfold before in Hb. lia.
Qed.

Example search_exhaustive_example :
  Leaf [[[0; 1]; [0; 1]]; [[1; 0]; [1; 0]]] ∈ trace (main_with 20 2 2 2)
  ∧ (admits_split_line [[[0; 1]; [0; 1]]; [[1; 0]; [1; 0]]] 2 = Ret true
     ∨ is_monodominated [[[0; 1]; [0; 1]]; [[1; 0]; [1; 0]]] = Ret true).
Proof.
  apply (search_exhaustive 2 2 2 20 [[EmptyProf; EmptyProf]; [EmptyProf; EmptyProf]]).
  - vm_compute. reflexivity.
  - apply complete_profile_intro; [done|by_evaluation].
  - reflexivity.
  - vm_compute. reflexivity.
Defined.

(** * lp_proof *)

(** ** The test for single-crossing profiles *)

(** Element 0 of the arrays is not read. *)
Lemma single_crossing_head (x y : Z) (s1 s2 : list Z) :
  lp_proof.single_crossing (x :: s1) (y :: s2) = lp_proof.single_crossing (0 :: s1) (0 :: s2).
Proof. reflexivity. Qed.

Lemma assertions_head (x y : Z) (s1 s2 : list Z) (c2 : Z) :
  lp_proof.assertions (x :: s1) (y :: s2) c2 = lp_proof.assertions (0 :: s1) (0 :: s2) c2.
Proof. reflexivity. Qed.

Lemma crossing_free_pairs (s1 s2 : list Z) :
  crossing_free s1 s2 ↔
  Forall (λ ac, rank s1 ac.2 < rank s1 ac.1 → rank s2 ac.2 < rank s2 ac.1) candidate_pairs.
Proof.
  unfold crossing_free, candidate_pairs. rewrite !Forall_cons, Forall_nil. simpl. split.
  - intros H. split_and!; try done; apply H; lia.
  - intros (H12 & H13 & H14 & H23 & H24 & H34 & _) a c Ha Hac Hc.
    assert (a = 1 ∧ c = 2 ∨ a = 1 ∧ c = 3 ∨ a = 1 ∧ c = 4
            ∨ a = 2 ∧ c = 3 ∨ a = 2 ∧ c = 4 ∨ a = 3 ∧ c = 4)
      as [[-> ->]|[[-> ->]|[[-> ->]|[[-> ->]|[[-> ->]|[-> ->]]]]]] by lia; done.
Qed.

(** The 24 by 24 pairs of arrangements, each evaluated. *)
Lemma single_crossing_permutations :
  Forall (λ s1, Forall (λ s2,
    lp_proof.single_crossing (0 :: s1) (0 :: s2)
    = Some (bool_decide (Forall (λ ac, rank s1 ac.2 < rank s1 ac.1 → rank s2 ac.2 < rank s2 ac.1)
                           candidate_pairs)))
    (permutations [1; 2; 3; 4])) (permutations [1; 2; 3; 4]).
Proof. by_evaluation. Qed.

Lemma elem_of_arrangements (s : list Z) : s ∈ permutations [1; 2; 3; 4] ↔ s ≡ₚ seqZ 1 4.
Proof. rewrite permutations_Permutation. change (seqZ 1 4) with [1; 2; 3; 4]. by split. Qed.

Lemma single_crossing_crossing_free (x y : Z) (s1 s2 : list Z) :
  s1 ≡ₚ seqZ 1 4 → s2 ≡ₚ seqZ 1 4 →
  ∃ b, lp_proof.single_crossing (x :: s1) (y :: s2) = Some b ∧ (b = true ↔ crossing_free s1 s2).
Proof.
  intros H1%elem_of_arrangements H2%elem_of_arrangements.
  pose proof single_crossing_permutations as Hall.
  rewrite Forall_forall in Hall. specialize (Hall s1 H1).
  rewrite Forall_forall in Hall. specialize (Hall s2 H2).
  rewrite single_crossing_head, Hall. eexists. split; [done|].
  by rewrite bool_decide_eq_true, crossing_free_pairs.
Qed.

(** X16: given two arrays whose elements [1..4] are arrangements of the
    candidates [1..4], [single_crossing] returns, and it returns [true]
    exactly when the profile [(id, sigma1, sigma2)] is single-crossing:
    every pair of candidates that [sigma1] orders against the identity is
    ordered against it by [sigma2] too.  Element 0 of the arrays is not
    read, and no element of [where1], [where2] is read before it is
    written. *)
Theorem single_crossing_spec (x y : Z) (s1 s2 : list Z) :
  s1 ≡ₚ seqZ 1 4 → s2 ≡ₚ seqZ 1 4 →
  ∃ b, lp_proof.single_crossing (x :: s1) (y :: s2) = Some b
       ∧ (b = true ↔
          ∀ a c, 1 ≤ a → a < c → c ≤ 4 → rank s1 c < rank s1 a → rank s2 c < rank s2 a).
Proof. apply single_crossing_crossing_free. Qed.

Example single_crossing_spec_example :
  ∃ b, lp_proof.single_crossing [0; 2; 1; 3; 4] [0; 2; 3; 1; 4] = Some b
       ∧ (b = true ↔
          ∀ a c, 1 ≤ a → a < c → c ≤ 4 →
                 rank [2; 1; 3; 4] c < rank [2; 1; 3; 4] a →
                 rank [2; 3; 1; 4] c < rank [2; 3; 1; 4] a).
Proof. apply (single_crossing_spec 0 0 [2; 1; 3; 4] [2; 3; 1; 4]); by_evaluation. Defined.

(** ** The linear programs have no solution *)

Lemma satisfies_all_Forall (ρ : Z → Z → R) (s : list lp_proof.assertion) :
  Forall (satisfies ρ) s → satisfies_all ρ s.
Proof. induction 1; simpl; auto. Qed.

(** One system: the assertions are computed, and linear arithmetic
    refutes their conjunction. *)
Ltac refute :=
  intros x y; eexists; split; [vm_compute; reflexivity|]; split; [reflexivity|];
  intros ρ H%satisfies_all_Forall; cbn [satisfies_all satisfies eval] in H; lra.

Lemma accepted_triples_refutable : Forall refutable accepted_triples.
Proof.
  let l := eval vm_compute in accepted_triples in change accepted_triples with l.
  repeat (apply Forall_cons; split; [refute|]). constructor.
Qed.

Lemma elem_of_accepted_triples (s1 s2 : list Z) (c2 : Z) :
  (s1, s2, c2) ∈ accepted_triples ↔
  s1 ≡ₚ seqZ 1 4 ∧ s2 ≡ₚ seqZ 1 4 ∧ crossing_free s1 s2 ∧ 1 ≤ c2 ≤ 4.
Proof.
  unfold accepted_triples. rewrite list_elem_of_bind. split.
  - intros (s1' & (s2' & Hin & H2)%list_elem_of_bind & H1).
    apply elem_of_arrangements in H1, H2.
    destruct (single_crossing_crossing_free 0 0 s1' s2') as (b & Hb & Hfree); [done..|].
    rewrite Hb in Hin. destruct b; [|by apply elem_of_nil in Hin].
    apply list_elem_of_bind in Hin as (c & [= -> -> ->]%list_elem_of_singleton & Hc).
    split_and!; [done..|by apply Hfree| |];
      rewrite !elem_of_cons, elem_of_nil in Hc; lia.
  - intros (H1 & H2 & Hfree & Hc).
    destruct (single_crossing_crossing_free 0 0 s1 s2) as (b & Hb & Hb'); [done..|].
    apply Hb' in Hfree as ->.
    exists s1. split; [|by apply elem_of_arrangements].
    apply list_elem_of_bind. exists s2. split; [|by apply elem_of_arrangements].
    rewrite Hb. apply list_elem_of_bind. exists c2. split; [apply list_elem_of_singleton; done|].
    rewrite !elem_of_cons. lia.
Qed.

(** X17: for every profile that [main] hands to [check] - two arrangements of
    [1..4] that [single_crossing] accepts - and every candidate [c2],
    [check] reads no array and no map out of range, and the 28 assertions
    it gives the solver have no solution over the reals: [unsat] is the
    right answer. *)
Theorem check_unsatisfiable (x y : Z) (s1 s2 : list Z) (c2 : Z) :
  s1 ≡ₚ seqZ 1 4 → s2 ≡ₚ seqZ 1 4 → 1 ≤ c2 ≤ 4 →
  lp_proof.single_crossing (x :: s1) (y :: s2) = Some true →
  ∃ s, lp_proof.assertions (x :: s1) (y :: s2) c2 = Some s
       ∧ length s = 28%nat
       ∧ unsatisfiable s
       ∧ ∀ solve, lp_proof.check solve (x :: s1) (y :: s2) c2
                  = Some (bool_decide (solve s = lp_proof.unsat)).
Proof.
  intros H1 H2 Hc Hsc.
  destruct (single_crossing_crossing_free x y s1 s2 H1 H2) as (b & Hb & Hfree).
  assert (b = true) as -> by congruence.
  pose proof accepted_triples_refutable as Hall. rewrite Forall_forall in Hall.
  destruct (Hall (s1, s2, c2)) with (x := x) (y := y) as (s & Hs & Hlen & Hunsat).
  { apply elem_of_accepted_triples. split_and!; [done..|by apply Hfree|lia|lia]. }
  simpl in Hs. exists s. split_and!; [done..|].
  intros solve. unfold lp_proof.check. by rewrite Hs.
Qed.

Example check_unsatisfiable_example :
  ∃ s, lp_proof.assertions [0; 2; 1; 3; 4] [0; 2; 3; 1; 4] 3 = Some s
       ∧ length s = 28%nat
       ∧ unsatisfiable s
       ∧ ∀ solve, lp_proof.check solve [0; 2; 1; 3; 4] [0; 2; 3; 1; 4] 3
                  = Some (bool_decide (solve s = lp_proof.unsat)).
Proof.
  apply (check_unsatisfiable 0 0 [2; 1; 3; 4] [2; 3; 1; 4] 3); [by_evaluation..|lia|reflexivity].
Defined.

(** ** The enumeration, one round at a time *)

Lemma inner_unfold (fuel : nat) (solve : list lp_proof.assertion → lp_proof.check_result)
    (sigma1 sigma2 : list Z) (cnt : Z) :
  lp_proof.inner (S fuel) solve sigma1 sigma2 cnt =
  match lp_proof.single_crossing sigma1 sigma2 with
  | None => ([], lp_proof.Undefined, cnt)
  | Some false =>
      if (lp_proof.next_tail sigma2).1
      then lp_proof.inner fuel solve sigma1 (lp_proof.next_tail sigma2).2 cnt
      else ([], lp_proof.Returns, cnt)
  | Some true =>
      let c := lp_proof.check_all solve sigma1 sigma2 (seqZ 1 4) in
      match c.2 with
      | lp_proof.Returns =>
          if (lp_proof.next_tail sigma2).1
          then let m := lp_proof.inner fuel solve sigma1 (lp_proof.next_tail sigma2).2 (cnt + 1) in
               (lp_proof.Processing (cnt + 1) :: c.1 ++ m.1.1, m.1.2, m.2)
          else (lp_proof.Processing (cnt + 1) :: c.1, lp_proof.Returns, cnt + 1)
      | e => (lp_proof.Processing (cnt + 1) :: c.1, e, cnt + 1)
      end
  end.
Proof.
  cbn [lp_proof.inner]. destruct (lp_proof.single_crossing sigma1 sigma2) as [[]|]; [| |done].
  - destruct (lp_proof.check_all solve sigma1 sigma2 (seqZ 1 4)) as [t e]. cbn [fst snd app cut_short].
    destruct e; try done.
    destruct (lp_proof.next_tail sigma2) as [[] sigma2']; cbn [fst snd app cut_short]; [|done].
    by destruct (lp_proof.inner fuel solve sigma1 sigma2' (cnt + 1)) as [[t' e'] n'].
  - destruct (lp_proof.next_tail sigma2) as [[] sigma2']; cbn [fst snd app cut_short]; [|done].
    by destruct (lp_proof.inner fuel solve sigma1 sigma2' cnt) as [[t' e'] n'].
Qed.

Lemma outer_unfold (fuel : nat) (solve : list lp_proof.assertion → lp_proof.check_result)
    (sigma1 : list Z) (cnt : Z) :
  lp_proof.outer (S fuel) solve sigma1 cnt =
  let m := lp_proof.inner fuel solve sigma1 [0; 1; 2; 3; 4] cnt in
  match m.1.2 with
  | lp_proof.Returns =>
      if (lp_proof.next_tail sigma1).1
      then let m' := lp_proof.outer fuel solve (lp_proof.next_tail sigma1).2 m.2 in
           (m.1.1 ++ m'.1.1, m'.1.2, m'.2)
      else (m.1.1, lp_proof.Returns, m.2)
  | _ => m
  end.
Proof.
  cbn [lp_proof.outer]. destruct (lp_proof.inner fuel solve sigma1 [0; 1; 2; 3; 4] cnt) as [[t e] n]. cbn [fst snd app cut_short].
  destruct e; try done.
  destruct (lp_proof.next_tail sigma1) as [[] sigma1']; cbn [fst snd app cut_short]; [|done].
  by destruct (lp_proof.outer fuel solve sigma1' n) as [[t' e'] n'].
Qed.

(** ** Fuel beyond what a run needs changes nothing *)

Lemma inner_fuel_S (solve : list lp_proof.assertion → lp_proof.check_result) (sigma1 : list Z)
    (fuel : nat) (sigma2 : list Z) (cnt : Z) :
  (lp_proof.inner fuel solve sigma1 sigma2 cnt).1.2 ≠ lp_proof.OutOfFuel →
  lp_proof.inner (S fuel) solve sigma1 sigma2 cnt = lp_proof.inner fuel solve sigma1 sigma2 cnt.
Proof.
  revert sigma2 cnt. induction fuel as [|fuel IH]; intros sigma2 cnt; [done|].
  rewrite (inner_unfold (S fuel)), (inner_unfold fuel).
  destruct (lp_proof.single_crossing sigma1 sigma2) as [[]|]; [| |done]; cbv zeta.
  - destruct (lp_proof.check_all solve sigma1 sigma2 (seqZ 1 4)).2; try done.
    destruct (lp_proof.next_tail sigma2).1; [|done]. cbn [fst snd app cut_short]. intros Hends. by rewrite IH.
  - destruct (lp_proof.next_tail sigma2).1; [|done]. apply IH.
Qed.

Lemma outer_fuel_S (solve : list lp_proof.assertion → lp_proof.check_result)
    (fuel : nat) (sigma1 : list Z) (cnt : Z) :
  (lp_proof.outer fuel solve sigma1 cnt).1.2 ≠ lp_proof.OutOfFuel →
  lp_proof.outer (S fuel) solve sigma1 cnt = lp_proof.outer fuel solve sigma1 cnt.
Proof.
  revert sigma1 cnt. induction fuel as [|fuel IH]; intros sigma1 cnt; [done|].
  rewrite (outer_unfold (S fuel)), (outer_unfold fuel). cbv zeta.
  intros Hends.
  assert ((lp_proof.inner fuel solve sigma1 [0; 1; 2; 3; 4] cnt).1.2 ≠ lp_proof.OutOfFuel) as Hinner.
  { intros Hout. by rewrite Hout in Hends. }
  rewrite (inner_fuel_S solve sigma1 fuel) by done.
  destruct (lp_proof.inner fuel solve sigma1 [0; 1; 2; 3; 4] cnt).1.2; try done.
  destruct (lp_proof.next_tail sigma1).1; [|done]. cbn [fst snd] in *. by rewrite IH.
Qed.

Lemma main_fuel_le (solve : list lp_proof.assertion → lp_proof.check_result) (fuel fuel' : nat) :
  (fuel ≤ fuel')%nat → (lp_proof.main fuel solve).1.2 ≠ lp_proof.OutOfFuel →
  lp_proof.main fuel' solve = lp_proof.main fuel solve.
Proof.
  intros Hle Hends. induction Hle as [|fuel' _ IH]; [done|].
  unfold lp_proof.main in *. rewrite outer_fuel_S; [done|]. by rewrite IH.
Qed.

(** ** A run is the reference run cut short *)

Lemma cut_short_ending (solve : list lp_proof.assertion → lp_proof.check_result)
    (t : list lp_proof.event) (e : lp_proof.ending) :
  (cut_short solve t e).2 = e
  ∨ (cut_short solve t e).2 = lp_proof.Exits ∨ (cut_short solve t e).2 = lp_proof.Undefined.
Proof.
  induction t as [|[cnt|sigma1 sigma2 c2] t IH]; cbn [fst snd app cut_short]; [by left| |].
  - by destruct (cut_short solve t e).
  - destruct (lp_proof.check solve sigma1 sigma2 c2) as [[]|]; cbn [fst snd app cut_short]; [|tauto..].
    by destruct (cut_short solve t e).
Qed.

Lemma cut_short_app (solve : list lp_proof.assertion → lp_proof.check_result)
    (t1 t2 : list lp_proof.event) (e : lp_proof.ending) :
  cut_short solve (t1 ++ t2) e =
  match (cut_short solve t1 lp_proof.Returns).2 with
  | lp_proof.Returns =>
      ((cut_short solve t1 lp_proof.Returns).1 ++ (cut_short solve t2 e).1,
       (cut_short solve t2 e).2)
  | _ => cut_short solve t1 lp_proof.Returns
  end.
Proof.
  induction t1 as [|[cnt|sigma1 sigma2 c2] t1 IH]; cbn [fst snd app cut_short].
  - by destruct (cut_short solve t2 e).
  - rewrite IH. destruct (cut_short solve t1 lp_proof.Returns) as [u1 []]; cbn [fst snd app cut_short]; done.
  - destruct (lp_proof.check solve sigma1 sigma2 c2) as [[]|]; cbn [fst snd app cut_short]; [|done..].
    rewrite IH. destruct (cut_short solve t1 lp_proof.Returns) as [u1 []]; cbn [fst snd app cut_short]; done.
Qed.

Lemma check_all_cut (solve : list lp_proof.assertion → lp_proof.check_result)
    (sigma1 sigma2 : list Z) (l : list Z) :
  lp_proof.check_all solve sigma1 sigma2 l
  = cut_short solve (lp_proof.check_all (λ _, lp_proof.unsat) sigma1 sigma2 l).1
                    (lp_proof.check_all (λ _, lp_proof.unsat) sigma1 sigma2 l).2.
Proof.
  induction l as [|c2 l IH]; cbn [lp_proof.check_all]; [done|].
  assert (lp_proof.check (λ _, lp_proof.unsat) sigma1 sigma2 c2
          = match lp_proof.assertions sigma1 sigma2 c2 with
            | Some _ => Some true
            | None => None
            end) as ->.
  { unfold lp_proof.check. by destruct (lp_proof.assertions sigma1 sigma2 c2). }
  destruct (lp_proof.assertions sigma1 sigma2 c2) as [s|] eqn:Hs.
  - destruct (lp_proof.check_all (λ _, lp_proof.unsat) sigma1 sigma2 l) as [t0 e0].
    cbn [fst snd cut_short] in *.
    destruct (lp_proof.check solve sigma1 sigma2 c2) as [[]|]; [|done..]. by rewrite IH.
  - cbn [fst snd cut_short]. unfold lp_proof.check. by rewrite Hs.
Qed.

Lemma inner_cut (solve : list lp_proof.assertion → lp_proof.check_result) (sigma1 : list Z)
    (fuel : nat) (sigma2 : list Z) (cnt : Z) :
  (lp_proof.inner fuel solve sigma1 sigma2 cnt).1
  = cut_short solve (lp_proof.inner fuel (λ _, lp_proof.unsat) sigma1 sigma2 cnt).1.1
                    (lp_proof.inner fuel (λ _, lp_proof.unsat) sigma1 sigma2 cnt).1.2
  ∧ ((lp_proof.inner fuel solve sigma1 sigma2 cnt).1.2 = lp_proof.Returns →
     (lp_proof.inner fuel solve sigma1 sigma2 cnt).2
     = (lp_proof.inner fuel (λ _, lp_proof.unsat) sigma1 sigma2 cnt).2).
Proof.
  revert sigma2 cnt. induction fuel as [|fuel IH]; intros sigma2 cnt; [done|].
  rewrite !inner_unfold.
  destruct (lp_proof.single_crossing sigma1 sigma2) as [[]|]; [| |done]; cbv zeta.
  - rewrite (check_all_cut solve).
    pose proof (cut_short_ending solve
      (lp_proof.check_all (λ _, lp_proof.unsat) sigma1 sigma2 (seqZ 1 4)).1
      (lp_proof.check_all (λ _, lp_proof.unsat) sigma1 sigma2 (seqZ 1 4)).2) as Hend.
    destruct (lp_proof.check_all (λ _, lp_proof.unsat) sigma1 sigma2 (seqZ 1 4)) as [t0 e0].
    cbn [fst snd] in *.
    specialize (IH (lp_proof.next_tail sigma2).2 (cnt + 1)) as [IHt IHn].
    destruct e0; cbn [fst snd app cut_short].
    + (* the reference run goes on after its calls of [check] *)
      destruct (lp_proof.next_tail sigma2).1; cbn [fst snd app cut_short].
      * rewrite cut_short_app.
        destruct (cut_short solve t0 lp_proof.Returns) as [u []]; cbn [fst snd app cut_short]; [|done..].
        rewrite <- IHt. split; [by destruct (lp_proof.inner fuel solve _ _ _) as [[] ?]|done].
      * destruct (cut_short solve t0 lp_proof.Returns) as [u []]; cbn [fst snd app cut_short]; done.
    + destruct (cut_short solve t0 lp_proof.Exits) as [u []]; cbn [fst snd] in *;
        (done || (destruct Hend as [|[|]]; done)).
    + destruct (cut_short solve t0 lp_proof.Undefined) as [u []]; cbn [fst snd] in *;
        (done || (destruct Hend as [|[|]]; done)).
    + destruct (cut_short solve t0 lp_proof.OutOfFuel) as [u []]; cbn [fst snd] in *;
        (done || (destruct Hend as [|[|]]; done)).
  - destruct (lp_proof.next_tail sigma2).1; [apply IH|done].
Qed.

Lemma outer_cut (solve : list lp_proof.assertion → lp_proof.check_result)
    (fuel : nat) (sigma1 : list Z) (cnt : Z) :
  (lp_proof.outer fuel solve sigma1 cnt).1
  = cut_short solve (lp_proof.outer fuel (λ _, lp_proof.unsat) sigma1 cnt).1.1
                    (lp_proof.outer fuel (λ _, lp_proof.unsat) sigma1 cnt).1.2
  ∧ ((lp_proof.outer fuel solve sigma1 cnt).1.2 = lp_proof.Returns →
     (lp_proof.outer fuel solve sigma1 cnt).2
     = (lp_proof.outer fuel (λ _, lp_proof.unsat) sigma1 cnt).2).
Proof.
  revert sigma1 cnt. induction fuel as [|fuel IH]; intros sigma1 cnt; [done|].
  rewrite !outer_unfold. cbv zeta.
  destruct (inner_cut solve sigma1 fuel [0; 1; 2; 3; 4] cnt) as [Ht Hn].
  pose proof (cut_short_ending solve
    (lp_proof.inner fuel (λ _, lp_proof.unsat) sigma1 [0; 1; 2; 3; 4] cnt).1.1
    (lp_proof.inner fuel (λ _, lp_proof.unsat) sigma1 [0; 1; 2; 3; 4] cnt).1.2) as Hend.
  rewrite <- Ht in Hend.
  destruct (lp_proof.inner fuel solve sigma1 [0; 1; 2; 3; 4] cnt) as [[t e] n].
  destruct (lp_proof.inner fuel (λ _, lp_proof.unsat) sigma1 [0; 1; 2; 3; 4] cnt) as [[t0 e0] n0].
  cbn [fst snd] in *.
  destruct e0; cbn [fst snd app cut_short].
  - destruct (lp_proof.next_tail sigma1).1; cbn [fst snd app cut_short].
    + rewrite cut_short_app, <- Ht. cbn [fst snd app cut_short]. destruct e; cbn [fst snd app cut_short]; [|done..].
      rewrite Hn by done.
      specialize (IH (lp_proof.next_tail sigma1).2 n0) as [IHt IHn].
      rewrite <- IHt. split; [by destruct (lp_proof.outer fuel solve _ _) as [[] ?]|done].
    + rewrite <- Ht. destruct e; cbn [fst snd app cut_short]; [|done..]. by rewrite Hn.
  - rewrite <- Ht. destruct e; cbn [fst snd app cut_short]; (done || (destruct Hend as [|[|]]; done)).
  - rewrite <- Ht. destruct e; cbn [fst snd app cut_short]; (done || (destruct Hend as [|[|]]; done)).
  - rewrite <- Ht. destruct e; cbn [fst snd app cut_short]; (done || (destruct Hend as [|[|]]; done)).
Qed.

(** The reference run, evaluated: it returns after 151 profiles. *)
Lemma reference_run_ends : reference_run.1.2 = lp_proof.Returns ∧ reference_run.2 = 151.
Proof. split; vm_compute; reflexivity. Qed.

Lemma lp_main_cut_short_aux (solve : list lp_proof.assertion → lp_proof.check_result) (fuel : nat) :
  (48 ≤ fuel)%nat →
  (lp_proof.main fuel solve).1 = cut_short solve reference_run.1.1 lp_proof.Returns
  ∧ (lp_proof.main fuel solve).1.2 ≠ lp_proof.OutOfFuel
  ∧ ((lp_proof.main fuel solve).1.2 = lp_proof.Returns →
     (lp_proof.main fuel solve).1.1 = reference_run.1.1 ∧ (lp_proof.main fuel solve).2 = 151).
Proof.
  intros Hfuel. destruct reference_run_ends as [Href Hcnt].
  assert ((lp_proof.main 48 solve).1 = cut_short solve reference_run.1.1 lp_proof.Returns
          ∧ ((lp_proof.main 48 solve).1.2 = lp_proof.Returns → (lp_proof.main 48 solve).2 = 151))
    as [Hcut Hn].
  { rewrite <- Href, <- Hcnt. apply outer_cut. }
  assert ((lp_proof.main 48 solve).1.2 ≠ lp_proof.OutOfFuel) as Hends.
  { rewrite Hcut.
    destruct (cut_short_ending solve reference_run.1.1 lp_proof.Returns) as [->|[->| ->]]; done. }
  rewrite (main_fuel_le solve 48 fuel Hfuel Hends). split_and!; [done..|].
  intros Hret. split; [|by apply Hn].
  rewrite Hcut in Hret |- *. clear Hcut Hn Hends.
  generalize reference_run.1.1 Hret. clear. intros t.
  induction t as [|[cnt|sigma1 sigma2 c2] t IH]; cbn [fst snd app cut_short]; [done| |].
  - destruct (cut_short solve t lp_proof.Returns) as [u e]. cbn [fst snd] in *.
    intros ->. by rewrite IH.
  - destruct (lp_proof.check solve sigma1 sigma2 c2) as [[]|]; cbn [fst snd app cut_short]; [|done..].
    destruct (cut_short solve t lp_proof.Returns) as [u e]. cbn [fst snd] in *.
    intros ->. by rewrite IH.
Qed.


(** X18: whatever the solver answers, the run of [main] (with fuel for its 24
    rounds of 24) is the run in which every answer is [unsat], cut short at
    the first call of [check] whose answer is something else: there the
    program exits.  It does not run out of fuel, and it returns exactly
    when the solver answers [unsat] to every call of the reference run. *)
Theorem lp_main_cut_short (solve : list lp_proof.assertion → lp_proof.check_result) (fuel : nat) :
  (48 ≤ fuel)%nat →
  (lp_proof.main fuel solve).1 = cut_short solve reference_run.1.1 lp_proof.Returns
  ∧ (lp_proof.main fuel solve).1.2 ≠ lp_proof.OutOfFuel
  ∧ ((lp_proof.main fuel solve).1.2 = lp_proof.Returns →
     (lp_proof.main fuel solve).1.1 = reference_run.1.1 ∧ (lp_proof.main fuel solve).2 = 151).
Proof. apply lp_main_cut_short_aux. Qed.

Example lp_main_cut_short_example :
  (lp_proof.main 50 (λ s, if decide (length s = 28%nat) then lp_proof.sat else lp_proof.unsat)).1
  = cut_short (λ s, if decide (length s = 28%nat) then lp_proof.sat else lp_proof.unsat)
      reference_run.1.1 lp_proof.Returns.
Proof.
  apply (lp_main_cut_short
          (λ s, if decide (length s = 28%nat) then lp_proof.sat else lp_proof.unsat) 50). lia.
Defined.

(** ** The run under a solver that answers as it should *)

(** The calls of the reference run are the accepted triples (which it
    meets in the order of [next_permutation]). *)
Lemma reference_run_calls :
  omap call_of reference_run.1.1
  ≡ₚ (λ t : list Z * list Z * Z, (0 :: t.1.1, 0 :: t.1.2, t.2)) <$> accepted_triples.
Proof. by_evaluation. Qed.

Lemma reference_run_counts : omap count_of reference_run.1.1 = seqZ 1 151.
Proof. vm_compute. reflexivity. Qed.

Lemma reference_run_NoDup : NoDup reference_run.1.1.
Proof. by_evaluation. Qed.

Lemma elem_of_calls (t : list lp_proof.event) (sigma1 sigma2 : list Z) (c2 : Z) :
  lp_proof.Check sigma1 sigma2 c2 ∈ t ↔ (sigma1, sigma2, c2) ∈ omap call_of t.
Proof.
  rewrite list_elem_of_omap. split.
  - intros Hin. by exists (lp_proof.Check sigma1 sigma2 c2).
  - intros ([cnt|a b c] & Hin & [= <- <- <-]). done.
Qed.

Lemma reference_run_Check (sigma1 sigma2 : list Z) (c2 : Z) :
  lp_proof.Check sigma1 sigma2 c2 ∈ reference_run.1.1 ↔
  ∃ s1 s2, sigma1 = 0 :: s1 ∧ sigma2 = 0 :: s2 ∧ s1 ≡ₚ seqZ 1 4 ∧ s2 ≡ₚ seqZ 1 4
           ∧ crossing_free s1 s2 ∧ 1 ≤ c2 ≤ 4.
Proof.
  rewrite elem_of_calls, reference_run_calls, list_elem_of_fmap. split.
  - intros ([[s1 s2] c] & [= -> -> ->] & Hin%elem_of_accepted_triples).
    exists s1, s2. simpl. tauto.
  - intros (s1 & s2 & -> & -> & H1 & H2 & Hfree & Hc).
    exists (s1, s2, c2). split; [done|]. by apply elem_of_accepted_triples.
Qed.

Lemma cut_short_all (solve : list lp_proof.assertion → lp_proof.check_result)
    (t : list lp_proof.event) (e : lp_proof.ending) :
  (∀ sigma1 sigma2 c2, lp_proof.Check sigma1 sigma2 c2 ∈ t →
     lp_proof.check solve sigma1 sigma2 c2 = Some true) →
  cut_short solve t e = (t, e).
Proof.
  induction t as [|[cnt|sigma1 sigma2 c2] t IH]; intros Hall; cbn [cut_short]; [done| |].
  - rewrite IH; [done|]. intros a b c Hin. apply Hall. by right.
  - rewrite (Hall sigma1 sigma2 c2) by left.
    rewrite IH; [done|]. intros a b c Hin. apply Hall. by right.
Qed.

(** A solver that answers [unsat] to every system that has no solution
    lets every call of the reference run return. *)
Lemma reference_run_answers (solve : list lp_proof.assertion → lp_proof.check_result)
    (sigma1 sigma2 : list Z) (c2 : Z) :
  (∀ s, unsatisfiable s → solve s = lp_proof.unsat) →
  lp_proof.Check sigma1 sigma2 c2 ∈ reference_run.1.1 →
  lp_proof.check solve sigma1 sigma2 c2 = Some true.
Proof.
  intros Hsolve (s1 & s2 & -> & -> & H1 & H2 & Hfree & Hc)%reference_run_Check.
  pose proof accepted_triples_refutable as Hall. rewrite Forall_forall in Hall.
  pose proof (proj2 (elem_of_accepted_triples s1 s2 c2) (conj H1 (conj H2 (conj Hfree Hc))))
    as Hin.
  destruct (Hall (s1, s2, c2) Hin 0 0) as (s & Hs & _ & Hunsat).
  cbn [fst snd] in Hs. unfold lp_proof.check. rewrite Hs. cbn [mbind option_bind].
  rewrite (Hsolve s Hunsat). reflexivity.
Qed.

(** X19: under a solver that answers [unsat] to every system that has no
    solution, [main] (with fuel for its 24 rounds of 24) returns.  It has
    then found 151 profiles, numbered 1 to 151 on [cerr], and has called
    [check] once on each triple of two arrangements [sigma1], [sigma2] of
    [1..4] with [(id, sigma1, sigma2)] single-crossing and a candidate [c2]
    of [1..4], and on nothing else. *)
Theorem lp_main_returns (solve : list lp_proof.assertion → lp_proof.check_result) (fuel : nat) :
  (48 ≤ fuel)%nat → (∀ s, unsatisfiable s → solve s = lp_proof.unsat) →
  ∃ t, lp_proof.main fuel solve = (t, lp_proof.Returns, 151)
       ∧ NoDup t
       ∧ omap count_of t = seqZ 1 151
       ∧ (∀ sigma1 sigma2 c2, lp_proof.Check sigma1 sigma2 c2 ∈ t ↔
            ∃ s1 s2, sigma1 = 0 :: s1 ∧ sigma2 = 0 :: s2 ∧ s1 ≡ₚ seqZ 1 4 ∧ s2 ≡ₚ seqZ 1 4
                     ∧ crossing_free s1 s2 ∧ 1 ≤ c2 ≤ 4).
Proof.
  intros Hfuel Hsolve. exists reference_run.1.1.
  split_and!; [|apply reference_run_NoDup|apply reference_run_counts|apply reference_run_Check].
  destruct (lp_main_cut_short_aux solve fuel Hfuel) as (Hcut & _ & Hret).
  rewrite (cut_short_all solve reference_run.1.1 lp_proof.Returns
             (λ a b c, reference_run_answers solve a b c Hsolve)) in Hcut.
  assert ((lp_proof.main fuel solve).1.2 = lp_proof.Returns) as He.
  { rewrite Hcut. reflexivity. }
  destruct (Hret He) as [Ht Hn].
  destruct (lp_proof.main fuel solve) as [[t e] n]. cbn [fst snd] in *.
  rewrite Ht, He, Hn. reflexivity.
Qed.

Example lp_main_returns_example :
  ∃ t, lp_proof.main 48 (λ _, lp_proof.unsat) = (t, lp_proof.Returns, 151)
       ∧ NoDup t
       ∧ omap count_of t = seqZ 1 151
       ∧ (∀ sigma1 sigma2 c2, lp_proof.Check sigma1 sigma2 c2 ∈ t ↔
            ∃ s1 s2, sigma1 = 0 :: s1 ∧ sigma2 = 0 :: s2 ∧ s1 ≡ₚ seqZ 1 4 ∧ s2 ≡ₚ seqZ 1 4
                     ∧ crossing_free s1 s2 ∧ 1 ≤ c2 ≤ 4).
Proof. apply (lp_main_returns (λ _, lp_proof.unsat) 48); [lia|reflexivity]. Defined.


(** * What [show] writes *)

Lemma string_app_nil_l (s : string) : "" +:+ s = s.
Proof. reflexivity. Qed.

Lemma string_app_cons (a : Ascii.ascii) (s t : string) :
  String a s +:+ t = String a (s +:+ t).
Proof. reflexivity. Qed.

Lemma string_app_assoc (s1 s2 s3 : string) : (s1 +:+ s2) +:+ s3 = s1 +:+ (s2 +:+ s3).
Proof.
  induction s1 as [|a s1 IH]; [done|]. by rewrite !string_app_cons, IH.
Qed.

Lemma string_app_empty_r (s : string) : s +:+ "" = s.
Proof. induction s as [|a s IH]; [done|]. by rewrite string_app_cons, IH. Qed.

(** A loop that reads the elements of a vector one by one is a fold. *)
Lemma for_each_at {A S} (F : S → A → S) (l pre : list A) (s : S) :
  for_each (seq (length pre) (length l)) (λ j s, x ← at_ (pre ++ l) j; Ret (F s x)) s
  = Ret (foldl F s l).
Proof.
  revert pre s. induction l as [|x l IH]; intros pre s; [done|].
  cbn [length seq for_each foldl].
  assert (at_ (pre ++ x :: l) (length pre) = Ret x) as ->.
  { unfold at_. by rewrite list_lookup_middle. }
  cbn [mbind res_bind].
  specialize (IH (pre ++ [x]) (F s x)).
  rewrite length_app, Nat.add_1_r, <- (assoc_L (++)) in IH. exact IH.
Qed.

Lemma for_each_at_0 {A S} (F : S → A → S) (l : list A) (s : S) :
  for_each (seq 0 (length l)) (λ j s, x ← at_ l j; Ret (F s x)) s = Ret (foldl F s l).
Proof. apply (for_each_at F l []). Qed.

Lemma for_each_ext_in {A S} (l : list A) (f f' : A → S → res S) (s : S) :
  (∀ x s, x ∈ l → f x s = f' x s) → for_each l f s = for_each l f' s.
Proof.
  revert s. induction l as [|x l IH]; intros s Hf; [done|].
  cbn [for_each]. rewrite (Hf x s) by left.
  destruct (f' x s) as [s'|e]; [|done]. cbn [mbind res_bind].
  apply IH. intros y t Hy. apply Hf. by right.
Qed.

Lemma foldl_string_app {A} (f : A → string) (l : list A) (out : string) :
  foldl (λ out x, out +:+ f x) out l = out +:+ foldr (λ x s, f x +:+ s) "" l.
Proof.
  revert out. induction l as [|x l IH]; intros out; cbn [foldl foldr].
  - by rewrite string_app_empty_r.
  - by rewrite IH, string_app_assoc.
Qed.

Lemma foldr_string_app {A} (f : A → string) (l : list A) (rest : string) :
  foldr (λ x s, f x +:+ s) "" l +:+ rest = foldr (λ x s, f x +:+ s) rest l.
Proof. induction l as [|x l IH]; cbn [foldr]; [done|by rewrite string_app_assoc, IH]. Qed.

Lemma row_text_foldl (row : list Pref) (out rest : string) :
  (foldl (λ out p, out +:+ show_pref p +:+ " ") out row +:+ endl) +:+ rest
  = out +:+ row_text row rest.
Proof.
  rewrite (foldl_string_app (λ p, show_pref p +:+ " ")).
  rewrite !string_app_assoc, foldr_string_app. f_equal. unfold row_text.
  apply foldr_ext; [|done..]. intros p t. by rewrite string_app_assoc.
Qed.

Lemma rows_text (g : Grid) (out rest : string) :
  foldl (λ out row, foldl (λ out p, out +:+ show_pref p +:+ " ") out row +:+ endl) out g
    +:+ rest
  = out +:+ foldr row_text rest g.
Proof.
  revert out. induction g as [|row g IH]; intros out; cbn [foldl foldr]; [done|].
  by rewrite IH, row_text_foldl.
Qed.

(** On a rectangular grid [show] returns, and writes [text g]. *)
Lemma show_text (g : Grid) (N M : nat) :
  grid_shape g N M → (0 < N)%nat → (0 < M)%nat → show g = Ret (text g).
Proof.
  intros [HN HM] HN0 HM0. unfold show.
  assert (dims g = Ret (N, M)) as ->.
  { destruct g as [|row0 g']; [simpl in HN; lia|].
    apply Forall_cons in HM as [Hrow0 _].
    destruct row0; [simpl in Hrow0; lia|]. unfold dims. by rewrite HN, Hrow0. }
  cbn [mbind res_bind].
  rewrite (for_each_ext_in _ _ (λ i out, row ← at_ g i;
             Ret (foldl (λ out p, out +:+ show_pref p +:+ " ") out row +:+ endl))).
  2:{ intros i out Hi. apply elem_of_seq in Hi.
      destruct (lookup_lt_is_Some_2 g i) as [row Hrow]; [lia|].
      assert (at_ g i = Ret row) as Hat by (unfold at_; by rewrite Hrow).
      rewrite Hat. cbn [mbind res_bind].
      assert (length row = M) as Hlen by by eapply (Forall_lookup_1 _ _ _ _ HM).
      rewrite (for_each_ext_in _ _ (λ j out, p ← at_ row j;
                 Ret (out +:+ show_pref p +:+ " "))).
      2:{ intros j out' _. unfold cell. by rewrite Hat. }
      rewrite <- Hlen. by rewrite (for_each_at_0 (λ out p, out +:+ show_pref p +:+ " ") row). }
  rewrite <- HN.
  rewrite (for_each_at_0 (λ out row,
             foldl (λ out p, out +:+ show_pref p +:+ " ") out row +:+ endl) g "").
  cbn [mbind res_bind]. f_equal. by rewrite rows_text, string_app_nil_l.
Qed.

(** The decimal form of a candidate below ten is its digit. *)
Lemma pretty_one_digit (x : Z) :
  0 ≤ x < 10 → pretty x = String (Ascii.ascii_of_nat (48 + Z.to_nat x)) "".
Proof.
  intros Hx.
  assert (x = 0 ∨ x = 1 ∨ x = 2 ∨ x = 3 ∨ x = 4 ∨ x = 5 ∨ x = 6 ∨ x = 7 ∨ x = 8 ∨ x = 9)
    as Hcases by lia.
  destruct_or!; subst x; reflexivity.
Qed.

Lemma digit_code (x : Z) :
  0 ≤ x < 10 →
  Ascii.nat_of_ascii (Ascii.ascii_of_nat (48 + Z.to_nat x)) = (48 + Z.to_nat x)%nat.
Proof. intros Hx. apply Ascii.nat_ascii_embedding. lia. Qed.

Lemma String_eq (a b : Ascii.ascii) (s t : string) :
  String a s = String b t → a = b ∧ s = t.
Proof. by intros [= -> ->]. Qed.

(** The entries of a cell, then a character that is no digit: the text
    determines the entries and what follows them. *)
Lemma digits_inj (p q : Pref) (a b : Ascii.ascii) (s s' : string) :
  Forall (λ x, 0 ≤ x < 10) p → Forall (λ x, 0 ≤ x < 10) q →
  (Ascii.nat_of_ascii a < 48)%nat → (Ascii.nat_of_ascii b < 48)%nat →
  foldr (λ x t, pretty x +:+ t) (String a s) p
  = foldr (λ x t, pretty x +:+ t) (String b s') q →
  p = q ∧ String a s = String b s'.
Proof.
  intros Hp Hq Ha Hb. revert q Hq.
  induction Hp as [|x p Hx Hp IH]; intros q Hq; destruct Hq as [|y q Hy Hq];
    cbn [foldr]; rewrite ?pretty_one_digit by done; rewrite ?string_app_cons, ?string_app_nil_l.
  - done.
  - intros [-> _]%String_eq. rewrite digit_code in Ha by done. lia.
  - intros [<- _]%String_eq. rewrite digit_code in Hb by done. lia.
  - intros [Hxy Heq]%String_eq. apply (f_equal Ascii.nat_of_ascii) in Hxy.
    rewrite !digit_code in Hxy by done.
    assert (x = y) as -> by lia.
    destruct (IH q Hq Heq) as [-> ?]. done.
Qed.

Lemma show_pref_digits (p : Pref) (s : string) :
  p ≠ [] →
  show_pref p +:+ " " +:+ s = foldr (λ x t, pretty x +:+ t) (" " +:+ s) p.
Proof.
  intros Hp. unfold show_pref, EmptyProf. rewrite decide_False by done.
  by rewrite (foldl_string_app pretty), string_app_nil_l, foldr_string_app.
Qed.

(** The first character of what is written for a cell: the question mark
    or a digit. *)
Lemma show_pref_head (p : Pref) (s : string) :
  Forall (λ x, 0 ≤ x < 10) p →
  ∃ a t, show_pref p +:+ " " +:+ s = String a t ∧ (48 ≤ Ascii.nat_of_ascii a)%nat.
Proof.
  intros Hp. destruct Hp as [|x p Hx Hp].
  - eexists _, _. split; [reflexivity|]. vm_compute. lia.
  - rewrite show_pref_digits by done. cbn [foldr].
    rewrite pretty_one_digit, string_app_cons by done.
    eexists _, _. split; [reflexivity|]. rewrite digit_code by done. lia.
Qed.

Lemma show_pref_inj (p q : Pref) (s s' : string) :
  Forall (λ x, 0 ≤ x < 10) p → Forall (λ x, 0 ≤ x < 10) q →
  show_pref p +:+ " " +:+ s = show_pref q +:+ " " +:+ s' → p = q ∧ s = s'.
Proof.
  intros Hp Hq.
  destruct (decide (p = [])) as [->|Hp0], (decide (q = [])) as [->|Hq0].
  - intros Heq.
    change ("? " +:+ s = "? " +:+ s') in Heq.
    by apply (inj (String.append "? ")) in Heq as ->.
  - rewrite (show_pref_digits q) by done. destruct Hq as [|y q Hy Hq]; [done|].
    cbn [foldr]. rewrite pretty_one_digit, string_app_cons by done.
    intros [Hy' _]%String_eq. apply (f_equal Ascii.nat_of_ascii) in Hy'.
    rewrite digit_code in Hy' by done.
    assert (Z.to_nat y < 10)%nat as Hlt by lia. revert Hy' Hlt.
    generalize (Z.to_nat y). intros n Hn Hlt. vm_compute in Hn. lia.
  - rewrite (show_pref_digits p) by done. destruct Hp as [|x p Hx Hp]; [done|].
    cbn [foldr]. rewrite pretty_one_digit, string_app_cons by done.
    intros [Hx' _]%String_eq. apply (f_equal Ascii.nat_of_ascii) in Hx'.
    rewrite digit_code in Hx' by done.
    assert (Z.to_nat x < 10)%nat as Hlt by lia. revert Hx' Hlt.
    generalize (Z.to_nat x). intros n Hn Hlt. vm_compute in Hn. lia.
  - rewrite !show_pref_digits by done. intros Heq.
    apply digits_inj in Heq as [-> [= ->]]; [done|done..| |]; vm_compute; lia.
Qed.

Lemma row_text_head (row : list Pref) (rest : string) :
  Forall (Forall (λ x, 0 ≤ x < 10)) row →
  ∃ a t, row_text row rest = String a t ∧ Ascii.nat_of_ascii a ≠ 35%nat.
Proof.
  intros Hrow. destruct Hrow as [|p row Hp Hrow]; unfold row_text; cbn [foldr].
  - eexists _, _. split; [reflexivity|]. vm_compute. lia.
  - destruct (show_pref_head p (foldr (λ p s, show_pref p +:+ " " +:+ s) (endl +:+ rest) row) Hp)
      as (a & t & -> & Ha).
    eexists _, _. split; [reflexivity|]. lia.
Qed.

Lemma row_text_inj (r1 r2 : list Pref) (s s' : string) :
  Forall (Forall (λ x, 0 ≤ x < 10)) r1 → Forall (Forall (λ x, 0 ≤ x < 10)) r2 →
  row_text r1 s = row_text r2 s' → r1 = r2 ∧ s = s'.
Proof.
  intros H1 H2. revert r2 H2.
  induction H1 as [|p r1 Hp H1 IH]; intros r2 H2; destruct H2 as [|q r2 Hq H2];
    unfold row_text; cbn [foldr].
  - by intros ->%(inj (String.append endl)).
  - destruct (show_pref_head q (foldr (λ p s, show_pref p +:+ " " +:+ s) (endl +:+ s') r2) Hq)
      as (a & t & -> & Ha).
    intros [<- _]%String_eq. vm_compute in Ha. lia.
  - destruct (show_pref_head p (foldr (λ p s, show_pref p +:+ " " +:+ s) (endl +:+ s) r1) Hp)
      as (a & t & -> & Ha).
    intros [-> _]%String_eq. vm_compute in Ha. lia.
  - intros Heq. apply show_pref_inj in Heq as [-> Heq]; [|done..].
    destruct (IH r2 H2 Heq) as [-> ->]. done.
Qed.

Lemma text_inj (g h : Grid) : one_digit g → one_digit h → text g = text h → g = h.
Proof.
  unfold one_digit. intros Hg Hh. revert h Hh.
  induction Hg as [|r1 g H1 Hg IH]; intros h Hh; destruct Hh as [|r2 h H2 Hh];
    unfold text; cbn [foldr].
  - done.
  - destruct (row_text_head r2 (foldr row_text ("####" +:+ endl) h) H2) as (a & t & -> & Ha).
    intros [<- _]%String_eq. by vm_compute in Ha.
  - destruct (row_text_head r1 (foldr row_text ("####" +:+ endl) g) H1) as (a & t & -> & Ha).
    intros [-> _]%String_eq. by vm_compute in Ha.
  - intros Heq. apply row_text_inj in Heq as [-> Heq]; [|done..].
    by rewrite (IH h Hh Heq).
Qed.

Lemma show_Ret_dims (g : Grid) (s : string) :
  show g = Ret s → (0 < length g)%nat ∧ ∀ row, head g = Some row → (0 < length row)%nat.
Proof.
  unfold show, dims. destruct g as [|[|p row0] g]; [done..|]. intros _. split; [simpl; lia|].
  intros row [= <-]. simpl. lia.
Qed.

(** ** The text identifies the profile *)

(** X20: when no candidate has more than one digit, two rectangular grids that
    [show] writes the same text for are the same grid: unassigned cells
    included, the output can be read back. *)
Theorem show_injective (g h : Grid) (N M N' M' : nat) (s : string) :
  grid_shape g N M → grid_shape h N' M' → one_digit g → one_digit h →
  show g = Ret s → show h = Ret s → g = h.
Proof.
  intros Hg Hh Dg Dh Sg Sh.
  assert (∀ g N M s, grid_shape g N M → show g = Ret s → s = text g) as Htext.
  { clear. intros g N M s Hshape Hs.
    destruct (show_Ret_dims g s Hs) as [HN HM].
    assert (0 < N)%nat by (destruct Hshape as [<- _]; done).
    assert (0 < M)%nat.
    { destruct Hshape as [_ Hrows]. destruct g as [|row g]; [simpl in HN; lia|].
      apply Forall_cons in Hrows as [<- _]. by apply HM. }
    rewrite (show_text g N M) in Hs by done. by injection Hs. }
  apply text_inj; [done..|].
  by rewrite <- (Htext g N M s), <- (Htext h N' M' s).
Qed.

Example show_injective_example :
  [[[0; 1]; []]] = [[[0; 1]; []]].
Proof.
  apply (show_injective _ _ 1 2 1 2 ("01 ? " +:+ endl +:+ "####" +:+ endl)).
  - split; [reflexivity|]. repeat constructor.
  - split; [reflexivity|]. repeat constructor.
  - unfold one_digit. repeat constructor; lia.
  - unfold one_digit. repeat constructor; lia.
  - reflexivity.
  - reflexivity.
Defined.

(** ** From eleven candidates on the text is ambiguous *)

Lemma text_replicate (N M : nat) (p q : Pref) :
  show_pref p = show_pref q →
  text (replicate N (replicate M p)) = text (replicate N (replicate M q)).
Proof.
  intros Hpq.
  assert (∀ rest, row_text (replicate M p) rest = row_text (replicate M q) rest) as Hrow.
  { intros rest. unfold row_text.
    induction M as [|M IH]; cbn [replicate foldr]; [done|]. by rewrite IH, Hpq. }
  unfold text. induction N as [|N IH]; cbn [replicate foldr]; [done|]. by rewrite IH, Hrow.
Qed.

Lemma complete_profile_replicate (N M : nat) (C : Z) (p : Pref) :
  p ≡ₚ seqZ 0 C → complete_profile (replicate N (replicate M p)) N M C.
Proof.
  intros Hp. split.
  - split; [apply length_replicate|]. apply Forall_replicate. apply length_replicate.
  - intros i j p' (row & [-> _]%lookup_replicate & [-> _]%lookup_replicate)%cell_Ret. done.
Qed.

(** X21: with eleven candidates or more, the entries [1 0 10] and [10 1 0] are
    written alike: for every size of grid there are two different complete
    profiles for which [show] writes the same text. *)
Theorem show_ambiguous (N M : nat) (C : Z) :
  (0 < N)%nat → (0 < M)%nat → 11 ≤ C →
  ∃ g h s, complete_profile g N M C ∧ complete_profile h N M C ∧ g ≠ h
           ∧ show g = Ret s ∧ show h = Ret s.
Proof.
  intros HN HM HC.
  set (rest := seqZ 2 8 ++ seqZ 11 (C - 11)).
  set (p := [1; 0; 10] ++ rest). set (q := [10; 1; 0] ++ rest).
  assert (seqZ 0 C = seqZ 0 2 ++ seqZ 2 8 ++ [10] ++ seqZ 11 (C - 11)) as HseqC.
  { replace C with (11 + (C - 11)) at 1 by lia. by rewrite seqZ_app by lia. }
  assert (p ≡ₚ seqZ 0 C) as Hp.
  { rewrite HseqC. unfold p, rest. rewrite !(assoc_L (++)).
    apply Permutation_app_tail. by_evaluation. }
  assert (q ≡ₚ seqZ 0 C) as Hq.
  { rewrite <- Hp. unfold p, q. apply Permutation_app_tail. by_evaluation. }
  assert (show_pref p = show_pref q) as Hpq.
  { unfold show_pref, p, q, EmptyProf. rewrite !decide_False by done.
    rewrite !foldl_app. reflexivity. }
  exists (replicate N (replicate M p)), (replicate N (replicate M q)),
    (text (replicate N (replicate M p))).
  split_and!.
  - by apply complete_profile_replicate.
  - by apply complete_profile_replicate.
  - intros Heq. destruct N as [|N]; [lia|]. destruct M as [|M]; [lia|].
    apply (f_equal (λ g, cell g 0 0)) in Heq. by injection Heq.
  - apply (show_text _ N M); [|done..].
    by apply (complete_profile_replicate N M C).
  - rewrite (text_replicate N M p q Hpq). apply (show_text _ N M); [|done..].
    by apply (complete_profile_replicate N M C).
Qed.

Example show_ambiguous_example :
  ∃ g h s, complete_profile g 1 1 11 ∧ complete_profile h 1 1 11 ∧ g ≠ h
           ∧ show g = Ret s ∧ show h = Ret s.
Proof. apply show_ambiguous; lia. Defined.
